(** * SlyCat: a shallow embedding of [slycat.py]

    The bundler turns a directory tree into one Markdown document (one
    path header and one fenced block per text file) and back.  This file
    embeds the functions of [slycat.py] that decide what is bundled and
    what is written on decode, and proves properties of them.

    Conventions of the embedding.
    - A Python [str] is a [list ascii]: the code points below 256.  The
      classes [str.isspace], [str.lower] and the [re] classes [\s], [\w]
      are the restrictions of Python's Unicode classes to that range.
    - [os.path] is [posixpath] ([os.sep] is ["/"]).
    - [print] calls are recorded as structured events, one constructor per
      message of the source; the text of a caught exception is left out.
    - The filesystem is a parameter: a tree of nodes for the encoder
      (each node holds what the traversal reads when it gets there), and
      for the decoder the answers of the operating system to each read
      and each write.  Writes to the output file of the encoder, once it
      is open, are taken to succeed.
    - The content of a file is its text as read in text mode, line ends
      translated; the codecs are outside the embedding.  When the bundle
      the encoder wrote is read back, the translation of line ends is
      [universal_newlines]. *)

From Stdlib Require Import Ascii String.
From Stdlib Require Import List Bool Arith PeanoNat NArith Lia.
From Stdlib Require Import Permutation.
From Stdlib Require Import Floats.
From Stdlib Require Strings.Byte.
Import ListNotations.

Open Scope string_scope.
Open Scope nat_scope.
Open Scope list_scope.

(** ** Strings *)

Definition str := list ascii.

Coercion list_ascii_of_string : string >-> list.

Definition code (c : ascii) : nat := nat_of_ascii c.

Fixpoint str_eqb (a b : str) : bool :=
  match a, b with
  | [], [] => true
  | x :: a', y :: b' => Ascii.eqb x y && str_eqb a' b'
  | _, _ => false
  end.

Definition mem (x : str) (l : list str) : bool := existsb (str_eqb x) l.

(** [s.startswith(p)] *)
Fixpoint startswith (p s : str) : bool :=
  match p, s with
  | [], _ => true
  | x :: p', y :: s' => Ascii.eqb x y && startswith p' s'
  | _ :: _, [] => false
  end.

(** [s.endswith(p)] *)
Definition endswith (p s : str) : bool := startswith (rev p) (rev s).

(** [p in s] for strings: [p] occurs in [s] as a substring. *)
Fixpoint contains (p s : str) : bool :=
  startswith p s ||
  match s with
  | [] => false
  | _ :: s' => contains p s'
  end.

(** [s.find(p)] from the start of [s]; [None] stands for Python's -1. *)
Fixpoint find (p s : str) : option nat :=
  if startswith p s then Some 0
  else match s with
       | [] => None
       | _ :: s' => option_map S (find p s')
       end.

(** [s.find(p, start)] for [0 <= start]. *)
Definition find_from (p s : str) (start : nat) : option nat :=
  if length s <? start then None
  else option_map (Nat.add start) (find p (skipn start s)).

(** [str.isspace] on one character, which is also the class [\s] of [re]. *)
Definition isspace (c : ascii) : bool :=
  let n := code c in
  ((9 <=? n) && (n <=? 13)) || ((28 <=? n) && (n <=? 32))
  || (n =? 133) || (n =? 160).

Fixpoint lstrip (s : str) : str :=
  match s with
  | c :: s' => if isspace c then lstrip s' else s
  | [] => []
  end.

Definition rstrip (s : str) : str := rev (lstrip (rev s)).

(** [s.strip()] *)
Definition strip (s : str) : str := rstrip (lstrip s).

(** [str.lower] on one character. *)
Definition lower_char (c : ascii) : ascii :=
  let n := code c in
  if ((65 <=? n) && (n <=? 90))
     || ((192 <=? n) && (n <=? 222) && negb (n =? 215))
  then ascii_of_nat (n + 32) else c.

Definition lower (s : str) : str := map lower_char s.

(** [s.split(sep)] for a one-character separator: never the empty list. *)
Fixpoint split_on (sep : ascii) (s : str) : list str :=
  match s with
  | [] => [[]]
  | c :: s' =>
      if Ascii.eqb c sep then [] :: split_on sep s'
      else match split_on sep s' with
           | w :: ws => (c :: w) :: ws
           | [] => [[c]]
           end
  end.

(** [sep.join(parts)] *)
Fixpoint join_with (sep : str) (parts : list str) : str :=
  match parts with
  | [] => []
  | [w] => w
  | w :: ws => w ++ sep ++ join_with sep ws
  end.

(** [s.rfind(c)] for a character: the index of the last occurrence. *)
Fixpoint rfind_char (c : ascii) (s : str) : option nat :=
  match s with
  | [] => None
  | x :: s' =>
      match rfind_char c s' with
      | Some i => Some (S i)
      | None => if Ascii.eqb x c then Some 0 else None
      end
  end.

(** [s.rfind(c) + 1] *)
Definition after_last (c : ascii) (s : str) : nat :=
  match rfind_char c s with
  | Some i => S i
  | None => 0
  end.

(** [s.rstrip(c)] for a one-character set. *)
Definition rstrip_char (c : ascii) (s : str) : str :=
  rev ((fix go (r : str) : str :=
          match r with
          | x :: r' => if Ascii.eqb x c then go r' else r
          | [] => []
          end) (rev s)).

(** ** posixpath *)

Module Path.

Definition sep : ascii := "/"%char.

Definition isabs (s : str) : bool := startswith "/" s.

(** One step of [posixpath.join]'s loop. *)
Definition join (a b : str) : str :=
  if startswith "/" b then b
  else if match a with [] => true | _ => endswith "/" a end then a ++ b
  else a ++ "/" ++ b.

Definition basename (p : str) : str := skipn (after_last sep p) p.

Definition dirname (p : str) : str :=
  let head := firstn (after_last sep p) p in
  if negb (str_eqb head []) && negb (forallb (Ascii.eqb sep) head)
  then rstrip_char sep head else head.

(** [genericpath._splitext]: the extension starts at the last dot of the
    last component, unless only dots precede it there. *)
Definition splitext (p : str) : str * str :=
  match rfind_char "."%char p with
  | None => (p, [])
  | Some dotIndex =>
      let filenameIndex := after_last sep p in
      if filenameIndex <=? dotIndex then
        if forallb (Ascii.eqb "."%char)
             (firstn (dotIndex - filenameIndex) (skipn filenameIndex p))
        then (p, [])
        else (firstn dotIndex p, skipn dotIndex p)
      else (p, [])
  end.

(** The number of leading slashes [normpath] keeps: 0, 1, or 2 when the path
    starts with exactly two. *)
Definition initial_slashes (path : str) : nat :=
  if startswith "/" path then
    if startswith "//" path && negb (startswith "///" path) then 2 else 1
  else 0.

(** The body of [normpath]'s loop over the components. *)
Definition norm_step (initial : nat) (new_comps : list str) (comp : str)
  : list str :=
  if str_eqb comp [] || str_eqb comp "." then new_comps
  else if negb (str_eqb comp "..")
          || ((initial =? 0) && match new_comps with [] => true | _ => false end)
          || match rev new_comps with
             | last :: _ => str_eqb last ".."
             | [] => false
             end
  then new_comps ++ [comp]
  else removelast new_comps.

Definition norm_comps (path : str) : list str :=
  fold_left (norm_step (initial_slashes path)) (split_on sep path) [].

Definition normpath (path : str) : str :=
  match path with
  | [] => "."
  | _ =>
      let p := repeat sep (initial_slashes path)
               ++ join_with "/" (norm_comps path) in
      match p with [] => "." | _ => p end
  end.

(** [posixpath.abspath] with the working directory as a parameter. *)
Definition abspath (cwd path : str) : str :=
  normpath (if isabs path then path else join cwd path).

Fixpoint commonprefix_len (a b : list str) : nat :=
  match a, b with
  | x :: a', y :: b' => if str_eqb x y then S (commonprefix_len a' b') else 0
  | _, _ => 0
  end.

Definition nonempty (s : str) : bool := negb (str_eqb s []).

(** [posixpath.relpath(path, start)]; [path] is never empty where the
    program calls it. *)
Definition relpath (cwd path start : str) : str :=
  let start_list := filter nonempty (split_on sep (abspath cwd start)) in
  let path_list := filter nonempty (split_on sep (abspath cwd path)) in
  let i := commonprefix_len start_list path_list in
  let rel_list := repeat (".." : str) (length start_list - i)
                  ++ skipn i path_list in
  match rel_list with
  | [] => "."
  | _ => join_with "/" rel_list
  end.

End Path.

(** ** The [re] engine, as far as the decoder's pattern needs it

    A backtracking matcher in continuation-passing style.  Alternatives are
    tried in the order [re] tries them: a greedy repeat takes the longest run
    first, a lazy one the shortest, [|] the left branch first, [?] the
    present branch first.  Every repeat of the pattern is over a class of
    single characters, which [Rep] states. *)

Module Re.

Inductive regex : Type :=
| Eps
| Chr (c : ascii)                         (* a literal character *)
| Cls (p : ascii -> bool)                 (* one character of a class *)
| Bol                                     (* ^ under re.MULTILINE *)
| Eol                                     (* $ under re.MULTILINE *)
| Rep (p : ascii -> bool) (greedy : bool) (* p* and p*? *)
| Cat (r1 r2 : regex)
| Alt (r1 r2 : regex)
| Opt (r : regex)                         (* (?:r)? *)
| Grp (n : nat) (r : regex).              (* the n-th capturing group *)

(** A position in the subject: the character before it and the text after. *)
Record cursor : Type := Cursor { prev : option ascii; rest : str }.

Definition groups := nat -> option str.

Definition no_groups : groups := fun _ => None.

Definition set_group (n : nat) (s : str) (g : groups) : groups :=
  fun m => if m =? n then Some s else g m.

Definition answer := option (groups * cursor).

Definition cont := cursor -> groups -> answer.

Definition newline : ascii := ascii_of_nat 10.

Fixpoint rep_greedy (p : ascii -> bool) (k : cursor -> answer)
    (pv : option ascii) (s : str) : answer :=
  match s with
  | c :: s' =>
      if p c then
        match rep_greedy p k (Some c) s' with
        | Some a => Some a
        | None => k (Cursor pv s)
        end
      else k (Cursor pv s)
  | [] => k (Cursor pv s)
  end.

Fixpoint rep_lazy (p : ascii -> bool) (k : cursor -> answer)
    (pv : option ascii) (s : str) : answer :=
  match k (Cursor pv s) with
  | Some a => Some a
  | None =>
      match s with
      | c :: s' => if p c then rep_lazy p k (Some c) s' else None
      | [] => None
      end
  end.

Fixpoint exec (r : regex) (k : cont) (cu : cursor) (g : groups) : answer :=
  match r with
  | Eps => k cu g
  | Chr c =>
      match rest cu with
      | x :: s' => if Ascii.eqb x c then k (Cursor (Some x) s') g else None
      | [] => None
      end
  | Cls p =>
      match rest cu with
      | x :: s' => if p x then k (Cursor (Some x) s') g else None
      | [] => None
      end
  | Bol =>
      match prev cu with
      | None => k cu g
      | Some c => if Ascii.eqb c newline then k cu g else None
      end
  | Eol =>
      match rest cu with
      | [] => k cu g
      | c :: _ => if Ascii.eqb c newline then k cu g else None
      end
  | Rep p true => rep_greedy p (fun cu' => k cu' g) (prev cu) (rest cu)
  | Rep p false => rep_lazy p (fun cu' => k cu' g) (prev cu) (rest cu)
  | Cat r1 r2 => exec r1 (exec r2 k) cu g
  | Alt r1 r2 =>
      match exec r1 k cu g with
      | Some a => Some a
      | None => exec r2 k cu g
      end
  | Opt r1 =>
      match exec r1 k cu g with
      | Some a => Some a
      | None => k cu g
      end
  | Grp n r1 =>
      exec r1
        (fun cu' g' =>
           k cu' (set_group n
                    (firstn (length (rest cu) - length (rest cu')) (rest cu))
                    g'))
        cu g
  end.

Fixpoint seq (l : list regex) : regex :=
  match l with
  | [] => Eps
  | r :: l' => Cat r (seq l')
  end.

(** [p+], greedy: one [p], then [p*]. *)
Definition Plus (p : ascii -> bool) : regex := Cat (Cls p) (Rep p true).

(** A match object: its groups and the length of the matched text. *)
Record mtch : Type := Match { m_groups : groups; m_len : nat }.

(** [match.group(n)]; a group that took no part in the match reads as the
    empty string here. *)
Definition group (m : mtch) (n : nat) : str :=
  match m_groups m n with
  | Some s => s
  | None => []
  end.

(** [re.match] at one position of the subject. *)
Definition match_at (r : regex) (pv : option ascii) (s : str) : option mtch :=
  match exec r (fun cu g => Some (g, cu)) (Cursor pv s) no_groups with
  | Some (g, cu) => Some (Match g (length s - length (rest cu)))
  | None => None
  end.

(** [re.finditer]: the matches from left to right, none overlapping.  The
    scan resumes where a match ended ([skip] counts the characters still to
    pass over); after an empty match it moves on by one character. *)
Fixpoint finditer_from (r : regex) (skip : nat) (pv : option ascii) (s : str)
    {struct s} : list mtch :=
  match skip with
  | S n =>
      match s with
      | c :: s' => finditer_from r n (Some c) s'
      | [] => []
      end
  | 0 =>
      match match_at r pv s with
      | Some m =>
          m :: match s with
               | c :: s' => finditer_from r (m_len m - 1) (Some c) s'
               | [] => []
               end
      | None =>
          match s with
          | c :: s' => finditer_from r 0 (Some c) s'
          | [] => []
          end
      end
  end.

Definition finditer (r : regex) (s : str) : list mtch :=
  finditer_from r 0 None s.

End Re.

(** ** The decoder's pattern

    The source's pattern, piece by piece (the pieces are written apart here;
    in the source they follow each other without spaces):
      ^  \s*  ###  \s*  \*\*  `  ( [^`]+ )  `  \*\*  \s*  $  \n+  ```
      (?: ( \w* | \S* ) \n )?  ( [\s\S]*? )  \n  ```
    compiled with re.MULTILINE. *)

Definition backtick : ascii := ascii_of_nat 96.

Definition not_backtick (c : ascii) : bool := negb (Ascii.eqb c backtick).

Definition is_newline (c : ascii) : bool := Ascii.eqb c Re.newline.

Definition not_space (c : ascii) : bool := negb (isspace c).

Definition space_or_not (c : ascii) : bool := isspace c || negb (isspace c).

(** The class [\w] of [re] for a [str] pattern: alphanumeric or underscore. *)
Definition isword (c : ascii) : bool :=
  let n := code c in
  ((48 <=? n) && (n <=? 57)) || ((65 <=? n) && (n <=? 90)) || (n =? 95)
  || ((97 <=? n) && (n <=? 122))
  || (n =? 170) || (n =? 178) || (n =? 179) || (n =? 181) || (n =? 185)
  || (n =? 186) || ((188 <=? n) && (n <=? 190))
  || ((192 <=? n) && (n <=? 214)) || ((216 <=? n) && (n <=? 246))
  || (248 <=? n).

Definition pattern : Re.regex :=
  Re.seq
    [ Re.Bol; Re.Rep isspace true;                        (* ^ \s*  *)
      Re.Chr "#"; Re.Chr "#"; Re.Chr "#";                 (* ###         *)
      Re.Rep isspace true;                                (* \s*  *)
      Re.Chr "*"; Re.Chr "*"; Re.Chr backtick;            (* \*\*`       *)
      Re.Grp 1 (Re.Plus not_backtick);                    (* ( [^`]+ )  *)
      Re.Chr backtick; Re.Chr "*"; Re.Chr "*";            (* `\*\*       *)
      Re.Rep isspace true; Re.Eol;                        (* \s* $  *)
      Re.Plus is_newline;                                 (* \n+         *)
      Re.Chr backtick; Re.Chr backtick; Re.Chr backtick;  (* ```         *)
      Re.Opt (Re.Cat
                (Re.Grp 2 (Re.Alt (Re.Rep isword true)
                                  (Re.Rep not_space true)))
                (Re.Chr Re.newline));                     (* (?: ( \w* | \S* ) \n )? *)
      Re.Grp 3 (Re.Rep space_or_not false);               (* ( [\s\S]*? ) *)
      Re.Chr Re.newline;                                  (* \n          *)
      Re.Chr backtick; Re.Chr backtick; Re.Chr backtick   (* ```         *) ].

(** ** Constants of the module *)

Definition nl : str := [Re.newline].

(** [AI_INSTRUCTION_PROMPT], after the [+= "\n\n"] that follows its
    definition. *)
Definition AI_INSTRUCTION_PROMPT : str :=
  nl
  ++ "> **AI Instruction:**" ++ nl
  ++ "> The following code represents a software project, with each file presented below its corresponding path header." ++ nl
  ++ ">" ++ nl
  ++ "> Please adhere strictly to the following format when generating responses or modifications:" ++ nl
  ++ "> 1.  Use a header line exactly like `### **\`path/to/file.ext\`**` before each file's content. Replace `path/to/file.ext` with the actual relative path." ++ nl
  ++ "> 2.  Enclose all code blocks within triple backticks (```) specifying the language identifier (e.g., ```python, ```javascript, ```html, etc.). If the language is unknown or plain text, you can omit it or use ```text." ++ nl
  ++ ">" ++ nl
  ++ "> Maintaining this exact structure is crucial for parsing your response correctly. Thank you!" ++ nl
  ++ nl
  ++ nl ++ nl.

Definition prompt_marker : str := "> **AI Instruction:**".

Definition CODE_FENCE_LOOKUP : list (str * str) :=
  [ (".py" : str, "python" : str); (".js" : str, "javascript" : str);
    (".html" : str, "html" : str); (".css" : str, "css" : str);
    (".sh" : str, "bash" : str); (".java" : str, "java" : str);
    (".cpp" : str, "c++" : str); (".c" : str, "c" : str);
    (".json" : str, "json" : str); (".yml" : str, "yaml" : str);
    (".yaml" : str, "yaml" : str); (".xml" : str, "xml" : str);
    (".rb" : str, "ruby" : str); (".rs" : str, "rust" : str);
    (".go" : str, "go" : str); (".md" : str, "markdown" : str);
    (".txt" : str, "text" : str); (".ini" : str, "ini" : str);
    (".cfg" : str, "ini" : str) ].

(** [d.get(key, default)] *)
Fixpoint dict_get (d : list (str * str)) (key default : str) : str :=
  match d with
  | [] => default
  | (k, v) :: d' => if str_eqb k key then v else dict_get d' key default
  end.

(** ** What the program prints *)

Inductive event : Type :=
(* handle_error *)
| Error_output_is_input (output_name : str)
| Error_output_exists (output_name : str)
| Error_create_output_folder (output_folder : str)
(* is_text_file, write_file_to_output *)
| Warning_could_not_read (file_path : str)
| Warning_error_reading (file_path : str) (encoding_name : str)
| Warning_unable_to_decode (file_path : str)
(* traverse_and_concatenate *)
| Excluding (normalized_rel_path : str) (is_dir : bool)
| Warning_cannot_access (current_path : str)
| Entering (normalized_rel_path : str)
| Warning_cannot_access_contents (current_path : str)
| Adding (display_path : str)
| Skipping_non_text (display_path : str)
(* concatenate_files_and_folders *)
| Overwriting (output_name : str)
| Adding_prompt
| Warning_input_path_missing (path_arg : str)
| Concatenation_complete (output_name : str)
    (not_found processed skipped excluded : nat)
(* slice_files *)
| Slicing (input_files : list str) (output_folder : str)
| Created_output_folder (output_folder : str)
| Warning_input_file_not_found (input_file : str)
| Processing (input_file : str)
| Warning_not_utf8 (input_file : str)
| Error_reading_latin1 (input_file : str)
| Error_reading (input_file : str)
| Skipped_prompt
| Warning_prompt_end_not_found
| Security_warning (rel_path input_file : str)
| Creating_file (display_path : str)
| Error_creating_file (full_output_path : str)
| Unexpected_error (rel_path : str)
| Warning_no_sections (input_file : str)
| Slicing_complete (files_created errors_encountered : nat).

(** A run ends by [handle_error] (which prints and calls [exit(1)]), by an
    exception nothing catches, or runs to its end. *)
Inductive outcome (A : Type) : Type :=
| Aborted (message : event)
| Uncaught
| Completed (result : A).

Arguments Aborted {A} message.
Arguments Uncaught {A}.
Arguments Completed {A} result.

(** Reading a file as text under one encoding. *)
Inductive encoding : Type := Utf8 | Latin1 | Ascii7.

Inductive read_result : Type :=
| ReadOk (content : str)
| UnicodeDecodeError
| ReadError.

Definition cr : ascii := ascii_of_nat 13.

(** What [f.read()] gives for a file opened in text mode that holds the
    text [s] (universal newlines): a carriage return, alone or followed by
    a newline, is read as a newline. *)
Fixpoint universal_newlines (s : str) : str :=
  match s with
  | [] => []
  | c :: s' =>
      if Ascii.eqb c cr then
        Re.newline
        :: match s' with
           | n :: s'' =>
               if Ascii.eqb n Re.newline then universal_newlines s''
               else universal_newlines s'
           | [] => []
           end
      else c :: universal_newlines s'
  end.

(** The text holds no carriage return. *)
Definition cr_free (s : str) : bool :=
  forallb (fun c => negb (Ascii.eqb c cr)) s.

(** ** The decoder: [slice_files] *)

(** What the operating system answers when an entry is written: all of
    [os.makedirs], [open] and [write] succeed; [os.makedirs] raises
    [OSError]; [open] or [write] raises [OSError]; something that is not
    an [OSError] is raised before anything was created; or, the directories
    made, [open] or [write] raises something that is not an [OSError] (a
    [ValueError] for a name that holds a null character). *)
Inductive io_outcome : Type :=
| IoOk
| MakedirsFails
| OpenFails
| Unexpected
| OpenUnexpected.

Inductive fs_op : Type :=
| Makedirs (directory : str)
| WriteFile (path content : str).

Record dec_env : Type := {
  (* os.path.exists(output_folder), and whether os.makedirs of it succeeds *)
  out_exists : bool;
  out_creatable : bool;
  (* an input file: None when os.path.isfile is false, else what reading it
     under an encoding gives *)
  bundle : str -> option (encoding -> read_result);
  (* the answer to writing a path, given what was done so far *)
  io : list fs_op -> str -> io_outcome
}.

Record dec_state : Type := {
  ops : list fs_op;
  files_created : nat;
  errors_encountered : nat;
  printed : list event
}.

Definition dec_error (e : list event) (st : dec_state) : dec_state :=
  {| ops := ops st;
     files_created := files_created st;
     errors_encountered := S (errors_encountered st);
     printed := printed st ++ e |}.

Definition dec_print (e : list event) (st : dec_state) : dec_state :=
  {| ops := ops st;
     files_created := files_created st;
     errors_encountered := errors_encountered st;
     printed := printed st ++ e |}.

(** The test of lines 444: the path is absolute or has a [..] component. *)
Definition unsafe_path (rel_path : str) : bool :=
  Path.isabs rel_path || mem ".." (split_on Path.sep rel_path).

(** The body of the loop over the matches (lines 440-467). *)
Definition slice_entry (env : dec_env) (input_file output_folder : str)
    (st : dec_state) (m : Re.mtch) : dec_state :=
  let rel_path := Path.normpath (strip (Re.group m 1)) in
  if unsafe_path rel_path then
    dec_error [Security_warning rel_path input_file] st
  else
    let file_content := Re.group m 3 in
    let full_output_path := Path.join output_folder rel_path in
    let display_path := Path.normpath full_output_path in
    match io env (ops st) full_output_path with
    | IoOk =>
        {| ops := ops st ++ [Makedirs (Path.dirname full_output_path);
                             WriteFile full_output_path file_content];
           files_created := S (files_created st);
           errors_encountered := errors_encountered st;
           printed := printed st ++ [Creating_file display_path] |}
    | MakedirsFails =>
        dec_error [Error_creating_file full_output_path] st
    | OpenFails =>
        {| ops := ops st ++ [Makedirs (Path.dirname full_output_path)];
           files_created := files_created st;
           errors_encountered := S (errors_encountered st);
           printed := printed st ++ [Creating_file display_path;
                                     Error_creating_file full_output_path] |}
    | Unexpected =>
        dec_error [Unexpected_error rel_path] st
    | OpenUnexpected =>
        {| ops := ops st ++ [Makedirs (Path.dirname full_output_path)];
           files_created := files_created st;
           errors_encountered := S (errors_encountered st);
           printed := printed st ++ [Creating_file display_path;
                                     Unexpected_error rel_path] |}
    end.

(** Lines 421-433: drop the instruction prompt when the text starts with
    its marker and a blank line follows the marker. *)
Definition skip_prompt (content : str) : str * event :=
  match find prompt_marker content with
  | Some start =>
      match find_from (nl ++ nl) content start with
      | Some i => (skipn (i + 2) content, Skipped_prompt)
      | None => (content, Warning_prompt_end_not_found)
      end
  | None => (content, Warning_prompt_end_not_found)
  end.

(** Lines 436-471: the entries of the text, written one after the other. *)
Definition scan_entries (env : dec_env) (input_file output_folder : str)
    (content : str) (st : dec_state) : dec_state :=
  let matches := Re.finditer pattern content in
  let st := fold_left (slice_entry env input_file output_folder) matches st in
  match matches with
  | [] => dec_print [Warning_no_sections input_file] st
  | _ => st
  end.

(** Lines 421-471, for the text of one input file. *)
Definition slice_content (env : dec_env) (input_file output_folder : str)
    (content : str) (st : dec_state) : dec_state :=
  if startswith prompt_marker (lstrip content) then
    let '(content', e) := skip_prompt content in
    scan_entries env input_file output_folder content' (dec_print [e] st)
  else scan_entries env input_file output_folder content st.

(** The body of the loop over the input files (lines 392-476). *)
Definition slice_input (env : dec_env) (output_folder : str)
    (st : dec_state) (input_file : str) : dec_state :=
  match bundle env input_file with
  | None => dec_error [Warning_input_file_not_found input_file] st
  | Some read =>
      let st := dec_print [Processing input_file] st in
      match read Utf8 with
      | ReadOk content => slice_content env input_file output_folder content st
      | UnicodeDecodeError =>
          let st := dec_print [Warning_not_utf8 input_file] st in
          match read Latin1 with
          | ReadOk content =>
              slice_content env input_file output_folder content st
          | _ => dec_error [Error_reading_latin1 input_file] st
          end
      | ReadError => dec_error [Error_reading input_file] st
      end
  end.

Definition slice_files (env : dec_env) (input_files : list str)
    (output_folder : str) : outcome dec_state :=
  let st := {| ops := []; files_created := 0; errors_encountered := 0;
               printed := [Slicing input_files output_folder] |} in
  let created :=
    if out_exists env then Completed st
    else if out_creatable env
         then Completed
                {| ops := [Makedirs output_folder];
                   files_created := 0; errors_encountered := 0;
                   printed := printed st ++ [Created_output_folder output_folder] |}
         else Aborted (Error_create_output_folder output_folder) in
  match created with
  | Aborted e => Aborted e
  | Uncaught => Uncaught
  | Completed st =>
      let st := fold_left (slice_input env output_folder) input_files st in
      Completed
        (dec_print [Slicing_complete (files_created st) (errors_encountered st)]
           st)
  end.

(** ** [fnmatch.fnmatch] on POSIX

    [fnmatch.translate] turns a glob into a regular expression, matched
    against the whole name with [re.DOTALL].  The glob is read here into the
    tokens that expression is made of. *)

Module Fnmatch.

Inductive token : Type :=
| Star                                         (* any run of characters *)
| Any                                          (* one character *)
| Lit (c : ascii)
| Set_ (negated : bool) (items : list (ascii * ascii)).  (* [...] as ranges *)

Definition hyphen : ascii := "-"%char.

Fixpoint find_char_from (c : ascii) (s : str) (start : nat) : option nat :=
  match start, s with
  | S k, _ :: s' => option_map S (find_char_from c s' k)
  | S _, [] => None
  | 0, [] => None
  | 0, x :: s' =>
      if Ascii.eqb x c then Some 0 else option_map S (find_char_from c s' 0)
  end.

(** The index [j] of the bracket that closes a set whose body starts [s]:
    a leading [!] and a [\]] right after it belong to the body. *)
Definition bracket_end (s : str) : option nat :=
  let j := if startswith "!" s then 1 else 0 in
  let j := if startswith "]" (skipn j s) then S j else j in
  find_char_from "]"%char s j.

(** The body cut at the hyphens that make ranges: a hyphen is looked for
    from [skip] on; the text before it is a chunk, and the next hyphen is
    looked for two characters further.  A hyphen that ends the body stays
    in the last chunk. *)
Fixpoint chunks_from (fuel : nat) (body : str) (skip : nat) : list str :=
  match fuel with
  | 0 => [body]
  | S fuel' =>
      match find_char_from hyphen body skip with
      | None => [body]
      | Some k =>
          match skipn (S k) body with
          | [] => [body]
          | after => firstn k body :: chunks_from fuel' after 2
          end
      end
  end.

Definition last_char (s : str) : option ascii := hd_error (rev s).

(** "Remove empty ranges": from the right, a chunk that ends above the
    start of the next one loses that end, and takes the next chunk less its
    first character. *)
Fixpoint merge_empty_ranges (chunks : list str) : list str :=
  match chunks with
  | [] => []
  | c :: cs =>
      match merge_empty_ranges cs with
      | [] => [c]
      | d :: ds =>
          match last_char c, d with
          | Some x, y :: d' =>
              if code y <? code x then (removelast c ++ d') :: ds
              else c :: d :: ds
          | _, _ => c :: d :: ds
          end
      end
  end.

Definition single (c : ascii) : ascii * ascii := (c, c).

(** The set the joined chunks denote: between two chunks a range from the
    last character of the first to the first character of the second.
    [skip_first] says that the first character was used as the end of a
    range. *)
Fixpoint class_items (skip_first : bool) (chunks : list str)
  : list (ascii * ascii) :=
  match chunks with
  | [] => []
  | c :: cs =>
      let c := if skip_first then tl c else c in
      match cs with
      | [] => map single c
      | d :: _ =>
          match last_char c, d with
          | Some x, y :: _ =>
              map single (removelast c) ++ (x, y) :: class_items true cs
          | _, _ => map single c ++ single hyphen :: class_items false cs
          end
      end
  end.

(** The token of a set with body [stuff] (the text between the brackets). *)
Definition set_token (stuff : str) : token :=
  let chunks :=
    if existsb (Ascii.eqb hyphen) stuff
    then merge_empty_ranges
           (chunks_from (length stuff) stuff
              (if startswith "!" stuff then 2 else 1))
    else [stuff] in
  match chunks with
  | ("!"%char :: c) :: cs => Set_ true (class_items false (c :: cs))
  | _ => Set_ false (class_items false chunks)
  end.

(** [translate]'s loop.  [skip] counts the characters of a set still to
    pass over. *)
Fixpoint translate_from (skip : nat) (pat : str) {struct pat} : list token :=
  match pat with
  | [] => []
  | c :: pat' =>
      match skip with
      | S n => translate_from n pat'
      | 0 =>
          if Ascii.eqb c "*" then Star :: translate_from 0 pat'
          else if Ascii.eqb c "?" then Any :: translate_from 0 pat'
          else if Ascii.eqb c "[" then
            match bracket_end pat' with
            | None => Lit c :: translate_from 0 pat'
            | Some j => set_token (firstn j pat') :: translate_from (S j) pat'
            end
          else Lit c :: translate_from 0 pat'
      end
  end.

Definition translate (pat : str) : list token := translate_from 0 pat.

Definition in_items (items : list (ascii * ascii)) (c : ascii) : bool :=
  existsb (fun r => (code (fst r) <=? code c) && (code c <=? code (snd r)))
    items.

Definition token_matches (t : token) (c : ascii) : bool :=
  match t with
  | Star => true
  | Any => true
  | Lit x => Ascii.eqb c x
  | Set_ negated items => xorb negated (in_items items c)
  end.

Fixpoint matches (toks : list token) (name : str) : bool :=
  match toks with
  | [] => match name with [] => true | _ => false end
  | Star :: toks' =>
      (fix star (s : str) : bool :=
         matches toks' s
         || match s with
            | [] => false
            | _ :: s' => star s'
            end) name
  | t :: toks' =>
      match name with
      | c :: name' => token_matches t c && matches toks' name'
      | [] => false
      end
  end.

Definition fnmatch (name pat : str) : bool := matches (translate pat) name.

End Fnmatch.

(** ** The filesystem the encoder reads *)

(** A regular file: what [open(path, 'rb').read()] gives ([None] when it
    raises), and what reading it as text gives under each encoding. *)
Record file : Type := {
  file_bytes : option (list Byte.byte);
  file_text : encoding -> read_result
}.

(** A node of the tree, as the traversal finds it when it gets there: a
    regular file, a directory with what [os.listdir]
    gives (in the order it gives it; [None] when it raises [OSError]), or
    something that is neither (a socket, a dangling link, nothing). *)
#[warnings="-register-all"]
Inductive node : Type :=
| File (f : file)
| Dir (listing : option (list (str * node)))
| Other.

Definition isdir (n : node) : bool :=
  match n with Dir _ => true | _ => false end.

Definition isfile (n : node) : bool :=
  match n with File _ => true | _ => false end.

(** ** [is_text_file] *)

Definition binary_extensions : list str :=
  [ ".jpg" : str; ".jpeg" : str; ".png" : str; ".gif" : str; ".bmp" : str;
    ".tiff" : str; ".ico" : str;
    ".mp3" : str; ".wav" : str; ".ogg" : str; ".flac" : str; ".aac" : str;
    ".mp4" : str; ".avi" : str; ".mov" : str; ".mkv" : str; ".webm" : str;
    ".zip" : str; ".rar" : str; ".7z" : str; ".tar" : str; ".gz" : str;
    ".bz2" : str; ".xz" : str;
    ".exe" : str; ".dll" : str; ".so" : str; ".o" : str; ".pyc" : str;
    ".pyd" : str;
    ".class" : str; ".jar" : str; ".war" : str;
    ".pdf" : str; ".doc" : str; ".docx" : str; ".xls" : str; ".xlsx" : str;
    ".ppt" : str; ".pptx" : str;
    ".db" : str; ".sqlite" : str; ".sqlite3" : str;
    ".woff" : str; ".woff2" : str; ".ttf" : str; ".otf" : str; ".eot" : str ].

(** [float(n)] for an [int]; exact below 2^53, far above the 4096 bytes
    that are read. *)
Fixpoint float_of_nat (n : nat) : float :=
  match n with
  | 0 => 0%float
  | S n' => (float_of_nat n' + 1)%float
  end.

(** [byte < 32 and byte not in (9, 10, 13)] *)
Definition is_control (b : Byte.byte) : bool :=
  let n := Byte.to_nat b in
  (n <? 32) && negb ((n =? 9) || (n =? 10) || (n =? 13)).

Definition is_null (b : Byte.byte) : bool := Byte.to_nat b =? 0.

Definition control_chars (chunk : list Byte.byte) : nat :=
  length (filter is_control chunk).

(** [control_chars / len(chunk) > 0.1], in binary64 as Python computes it. *)
Definition too_many_controls (controls len : nat) : bool :=
  PrimFloat.ltb 0x1.999999999999ap-4%float
    (float_of_nat controls / float_of_nat len)%float.

Definition is_text_file (file_path : str) (f : file) : bool * list event :=
  let ext := snd (Path.splitext file_path) in
  if mem (lower ext) binary_extensions then (false, [])
  else
    match file_bytes f with
    | None => (false, [Warning_could_not_read file_path])
    | Some bytes =>
        let chunk := firstn 4096 bytes in
        match chunk with
        | [] => (true, [])
        | _ =>
            if existsb is_null chunk then (false, [])
            else if too_many_controls (control_chars chunk) (length chunk)
                 then (false, [])
                 else (true, [])
        end
    end.

(** ** The encoder *)

Record enc_state : Type := {
  sink : str;                      (* what was written to output_file *)
  processed_files : list str;
  skipped_files : list str;
  excluded_items : list str;
  enc_printed : list event
}.

(** [s.add(x)] on a set kept as a list. *)
Definition set_add (x : str) (s : list str) : list str :=
  if mem x s then s else s ++ [x].

Definition enc_print (e : list event) (st : enc_state) : enc_state :=
  {| sink := sink st;
     processed_files := processed_files st;
     skipped_files := skipped_files st;
     excluded_items := excluded_items st;
     enc_printed := enc_printed st ++ e |}.

Definition enc_write (text : str) (st : enc_state) : enc_state :=
  {| sink := sink st ++ text;
     processed_files := processed_files st;
     skipped_files := skipped_files st;
     excluded_items := excluded_items st;
     enc_printed := enc_printed st |}.

Definition encoding_name (e : encoding) : str :=
  match e with
  | Utf8 => "utf-8"
  | Latin1 => "latin-1"
  | Ascii7 => "ascii"
  end.

Definition encodings_to_try : list encoding := [Utf8; Latin1; Ascii7].

(** Lines 142-152: the first encoding under which the file reads. *)
Fixpoint read_with (file_path : str) (f : file) (encodings : list encoding)
  : option str * list event :=
  match encodings with
  | [] => (None, [])
  | e :: rest =>
      match file_text f e with
      | ReadOk content => (Some content, [])
      | UnicodeDecodeError => read_with file_path f rest
      | ReadError =>
          let '(content, evs) := read_with file_path f rest in
          (content, Warning_error_reading file_path (encoding_name e) :: evs)
      end
  end.

(** Lines 123-136: the path of the header and the language of the fence. *)
Definition header_path (cwd file_path base_folder : str) : str :=
  let rel_path := Path.relpath cwd file_path base_folder in
  let base_folder_name := Path.basename (Path.normpath base_folder) in
  if Path.nonempty base_folder_name && negb (str_eqb base_folder_name ".")
  then Path.join base_folder_name rel_path
  else Path.normpath rel_path.

Definition language_of (file_path : str) : str :=
  dict_get CODE_FENCE_LOOKUP (lower (snd (Path.splitext file_path))) "text".

(** The text of line 159:
    [f"### **`{rel_path}`**\n\n```{language}\n{content}\n```\n\n"]. *)
Definition entry_text (rel_path language content : str) : str :=
  "### **`" ++ rel_path ++ "`**" ++ nl ++ nl
  ++ "```" ++ language ++ nl
  ++ content ++ nl
  ++ "```" ++ nl ++ nl.

Definition write_file_to_output (cwd file_path base_folder : str) (f : file)
    (st : enc_state) : enc_state :=
  let rel_path := header_path cwd file_path base_folder in
  let language := language_of file_path in
  let '(content, evs) := read_with file_path f encodings_to_try in
  let st := enc_print evs st in
  match content with
  | None => enc_print [Warning_unable_to_decode file_path] st
  | Some content => enc_write (entry_text rel_path language content) st
  end.

Definition should_include (item_path : str) (includes : list str)
    (is_dir : bool) : bool :=
  match includes with
  | [] => true
  | _ =>
      existsb
        (fun pattern =>
           Fnmatch.fnmatch item_path pattern
           || Fnmatch.fnmatch (Path.basename item_path) pattern)
        includes
  end.

Definition should_exclude (item_path : str) (exclusions : list str)
    (is_dir : bool) : bool :=
  existsb
    (fun pattern =>
       Fnmatch.fnmatch item_path pattern
       || Fnmatch.fnmatch (Path.basename item_path) pattern
       || (is_dir && endswith "/" pattern
           && Fnmatch.fnmatch (item_path ++ "/") pattern))
    exclusions.

(** [a <= b] on strings: by code point, a prefix first. *)
Fixpoint str_leb (a b : str) : bool :=
  match a, b with
  | [], _ => true
  | _ :: _, [] => false
  | x :: a', y :: b' =>
      if code x <? code y then true
      else if code y <? code x then false
      else str_leb a' b'
  end.

(** [sorted] on names, each with something attached: a stable insertion
    sort. *)
Fixpoint insert_by_name {A : Type} (e : str * A) (l : list (str * A))
  : list (str * A) :=
  match l with
  | [] => [e]
  | h :: t => if str_leb (fst e) (fst h) then e :: l else h :: insert_by_name e t
  end.

Fixpoint sorted {A : Type} (l : list (str * A)) : list (str * A) :=
  match l with
  | [] => []
  | h :: t => insert_by_name h (sorted t)
  end.

(** What a run is given besides the tree. *)
Record config : Type := {
  cwd : str;
  base_folder : str;
  exclusions : list str;
  includes : list str
}.

(** What is found at [current_path]: for a directory, its listing with, for
    each child, what the recursive call on it computes. *)
Inductive view (A : Type) : Type :=
| At_dir (listing : option (list (str * A)))
| At_file (f : file)
| At_other.

Arguments At_dir {A} listing.
Arguments At_file {A} f.
Arguments At_other {A}.

Definition view_is_dir {A : Type} (v : view A) : bool :=
  match v with At_dir _ => true | _ => false end.

(** [os.path.relpath(current_path,
      start=os.path.dirname(base_folder) if base_folder != '.' else '.')] *)
Definition display_path (cfg : config) (current_path : str) : str :=
  Path.relpath (cwd cfg) current_path
    (if negb (str_eqb (base_folder cfg) ".")
     then Path.dirname (base_folder cfg) else ".").

(** The loops of lines 241-244 and 259-263 over the sorted listing. *)
Definition visit_children (current_path : str)
    (items : list (str * (str -> enc_state -> enc_state)))
    (st : enc_state) : enc_state :=
  fold_left (fun st item => snd item (Path.join current_path (fst item)) st)
    (sorted items) st.

(** The body of [traverse_and_concatenate], its recursive calls being the
    traversals the view holds. *)
Definition visit (cfg : config) (v : view (str -> enc_state -> enc_state))
    (current_path : str) (st : enc_state) : enc_state :=
  let is_dir := view_is_dir v in
  let normalized_rel_path :=
    Path.relpath (cwd cfg) current_path (base_folder cfg) in
  (* 1. exclusions first *)
  if should_exclude current_path (exclusions cfg) is_dir then
    let st := enc_print [Excluding normalized_rel_path is_dir] st in
    {| sink := sink st;
       processed_files := processed_files st;
       skipped_files := skipped_files st;
       excluded_items := set_add current_path (excluded_items st);
       enc_printed := enc_printed st |}
  (* 2. inclusions *)
  else if match includes cfg with [] => false | _ => true end
          && negb (should_include current_path (includes cfg) is_dir) then
    match v with
    | At_dir (Some items) => visit_children current_path items st
    | At_dir None => enc_print [Warning_cannot_access current_path] st
    | _ => st
    end
  (* 3. the item itself *)
  else
    match v with
    | At_dir listing =>
        let st := enc_print [Entering normalized_rel_path] st in
        match listing with
        | Some items => visit_children current_path items st
        | None => enc_print [Warning_cannot_access_contents current_path] st
        end
    | At_file f =>
        let '(is_text, evs) := is_text_file current_path f in
        let st := enc_print evs st in
        if is_text then
          let st := enc_print [Adding (display_path cfg current_path)] st in
          let st :=
            {| sink := sink st;
               processed_files := set_add current_path (processed_files st);
               skipped_files := skipped_files st;
               excluded_items := excluded_items st;
               enc_printed := enc_printed st |} in
          write_file_to_output (cwd cfg) current_path (base_folder cfg) f st
        else
          let st :=
            enc_print [Skipping_non_text (display_path cfg current_path)] st in
          {| sink := sink st;
             processed_files := processed_files st;
             skipped_files := set_add current_path (skipped_files st);
             excluded_items := excluded_items st;
             enc_printed := enc_printed st |}
    | At_other => st
    end.

(** [traverse_and_concatenate], on the node found at [current_path]. *)
Fixpoint traverse_and_concatenate (cfg : config) (n : node)
    (current_path : str) (st : enc_state) {struct n} : enc_state :=
  match n with
  | File f => visit cfg (At_file f) current_path st
  | Other => visit cfg At_other current_path st
  | Dir listing =>
      visit cfg
        (At_dir
           (option_map
              (fix children (l : list (str * node)) :=
                 match l with
                 | [] => []
                 | (name, child) :: l' =>
                     (name, traverse_and_concatenate cfg child) :: children l'
                 end)
              listing))
        current_path st
  end.

(** ** [concatenate_files_and_folders] *)

Definition default_venv_patterns : list str :=
  [ "venv" : str; ".venv" : str; "**/site-packages" : str;
    "__pycache__" : str; "*.pyc" : str; ".git" : str; ".hg" : str;
    ".svn" : str; "node_modules" : str; ".DS_Store" : str ].

(** What the operating system and the interpreter answer during a run. *)
Record enc_env : Type := {
  working_dir : str;
  (* os.path.exists(output_name), before the output file is opened *)
  output_exists : bool;
  (* whether open(output_name, 'w') succeeds *)
  output_opens : bool;
  (* the node an input path names once the output file is open; None when
     os.path.exists is false *)
  lookup : str -> option node;
  (* list(s) for a set s: the elements of the set, in the order the
     interpreter iterates them *)
  set_order : list str -> list str
}.

(** The body of the loop of lines 326-346. *)
Definition concatenate_path (env : enc_env)
    (effective_exclusions_list includes : list str)
    (acc : enc_state * list str) (path_arg : str) : enc_state * list str :=
  let '(st, not_found_paths) := acc in
  match lookup env path_arg with
  | None =>
      (enc_print [Warning_input_path_missing path_arg] st,
       not_found_paths ++ [path_arg])
  | Some _ =>
      let path_arg := Path.normpath path_arg in
      let n := match lookup env path_arg with Some n => n | None => Other end in
      let base_folder_for_relpath :=
        if isfile n then
          match Path.dirname path_arg with
          | [] => "." : str
          | d => d
          end
        else path_arg in
      (traverse_and_concatenate
         {| cwd := working_dir env;
            base_folder := base_folder_for_relpath;
            exclusions := effective_exclusions_list;
            includes := includes |}
         n path_arg st,
       not_found_paths)
  end.

Definition concatenate_files_and_folders (env : enc_env) (output_name : str)
    (paths : list str) (force : bool) (exclusions includes : list str)
    (add_prompt : bool) : outcome enc_state :=
  let output_name := Path.normpath output_name in
  if output_exists env && negb force then
    let normalized_input_paths := map Path.normpath paths in
    if mem output_name normalized_input_paths
    then Aborted (Error_output_is_input output_name)
    else Aborted (Error_output_exists output_name)
  else
    let st := {| sink := []; processed_files := []; skipped_files := [];
                 excluded_items := []; enc_printed := [] |} in
    let st := if output_exists env && force
              then enc_print [Overwriting output_name] st else st in
    let effective_exclusions_list :=
      set_order env (exclusions ++ default_venv_patterns) in
    if negb (output_opens env) then Uncaught
    else
      let st := if add_prompt
                then enc_write AI_INSTRUCTION_PROMPT (enc_print [Adding_prompt] st)
                else st in
      let '(st, not_found_paths) :=
        fold_left (concatenate_path env effective_exclusions_list includes)
          paths (st, []) in
      Completed
        (enc_print
           [Concatenation_complete output_name (length not_found_paths)
              (length (processed_files st)) (length (skipped_files st))
              (length (excluded_items st))]
           st).

(** ** Notions the properties are stated with *)

(** *** Paths *)

(** A path read lexically: the leading slashes [normpath] keeps and the
    components it keeps. *)
Definition resolved (p : str) : nat * list str :=
  (Path.initial_slashes p, Path.norm_comps p).

(** [p] lies under [root]: read lexically it is [root] followed by
    components, none of which is empty or goes up. *)
Definition lies_under (root p : str) : Prop :=
  fst (resolved p) = fst (resolved root)
  /\ exists cs, snd (resolved p) = snd (resolved root) ++ cs
                /\ ~ In (".." : str) cs /\ ~ In ([] : str) cs.

(** Every file written so far lies under [root]. *)
Definition writes_under (root : str) (st : dec_state) : Prop :=
  forall p c, In (WriteFile p c) (ops st) -> lies_under root p.

(** The components of a path that are neither empty nor [.]. *)
Definition plain (comp : str) : bool :=
  negb (str_eqb comp [] || str_eqb comp ".").

(** The text holds no separator. *)
Definition sep_free (s : str) : bool :=
  negb (existsb (Ascii.eqb Path.sep) s).

(** A name as [os.listdir] gives them: not empty, neither [.] nor [..],
    without a separator. *)
Definition component (name : str) : bool :=
  plain name && negb (str_eqb name "..") && sep_free name.

(** Two quoted paths that differ only in surrounding whitespace and in
    redundant separators and [.] segments: stripped, they keep the same
    leading slashes and the same plain components. *)
Definition same_header_path (a b : str) : Prop :=
  Path.initial_slashes (strip a) = Path.initial_slashes (strip b)
  /\ filter plain (split_on Path.sep (strip a))
     = filter plain (split_on Path.sep (strip b)).

(** The path an operation touches. *)
Definition target (o : fs_op) : str :=
  match o with
  | Makedirs d => d
  | WriteFile p _ => p
  end.

(** A header path the decoder reads back as it is. *)
Definition plain_header (p : str) : Prop :=
  p <> [] /\ forallb not_backtick p = true
  /\ Path.normpath (strip p) = p /\ unsafe_path p = false.

(** *** The classifier *)

(** The classifier as the specification words it: a known binary extension
    is binary; else an unreadable file is not text, an empty prefix is text,
    a null byte makes it binary, and otherwise it is binary exactly when
    the control characters are more than a tenth of the prefix. *)
Definition classifier_policy (file_path : str) (bytes : option (list Byte.byte))
  : bool :=
  if mem (lower (snd (Path.splitext file_path))) binary_extensions then false
  else
    match bytes with
    | None => false
    | Some bytes =>
        let prefix := firstn 4096 bytes in
        match prefix with
        | [] => true
        | _ =>
            if existsb is_null prefix then false
            else negb (length prefix <? 10 * control_chars prefix)
        end
    end.

(** The binary64 test of [is_text_file] compared with the exact one,
    [10 * controls > len], for [fuel] numbers of control characters from
    [c] on ([cf] is [c] as a float, [nf] is [n] as a float). *)
Fixpoint agrees_from (fuel : nat) (c : N) (cf : float) (n : N) (nf : float)
  : bool :=
  match fuel with
  | 0 => true
  | S fuel' =>
      Bool.eqb (PrimFloat.ltb 0x1.999999999999ap-4%float (cf / nf)%float)
               (N.ltb n (10 * c))
      && agrees_from fuel' (N.succ c) (cf + 1)%float n nf
  end.

(** The same for [fuel] lengths from [n] on, and every number of control
    characters up to the length. *)
Fixpoint agrees_upto (fuel : nat) (n : nat) (nN : N) (nf : float) : bool :=
  match fuel with
  | 0 => true
  | S fuel' =>
      agrees_from (S n) 0%N 0%float nN nf
      && agrees_upto fuel' (S n) (N.succ nN) (nf + 1)%float
  end.

(** *** Traversals *)

(** The state a path leaves behind when a pattern excludes it. *)
Definition excluded_at (cfg : config) (is_dir : bool) (current_path : str)
    (st : enc_state) : enc_state :=
  {| sink := sink st;
     processed_files := processed_files st;
     skipped_files := skipped_files st;
     excluded_items := set_add current_path (excluded_items st);
     enc_printed :=
       enc_printed st
       ++ [Excluding (Path.relpath (cwd cfg) current_path (base_folder cfg))
             is_dir] |}.

(** [p] is reached from [start] cleanly: it is [start] followed by names
    as [os.listdir] gives them, and neither the base name of [start] nor
    any of the names that follow, down to the name of [p] itself, is one of
    [names]. *)
Definition reached_cleanly (names : list str) (start p : str) : Prop :=
  exists below,
    p = fold_left Path.join below start
    /\ forallb component below = true
    /\ ~ In (Path.basename start) names
    /\ Forall (fun name => ~ In name names) below.

(** The directories of the tree list names as [os.listdir] gives them. *)
Fixpoint names_are_components (n : node) : Prop :=
  match n with
  | Dir (Some l) =>
      (fix each (l : list (str * node)) : Prop :=
         match l with
         | [] => True
         | (name, child) :: l' =>
             component name = true /\ names_are_components child /\ each l'
         end) l
  | _ => True
  end.

(** The tree with every listing given in another order: [pi] reorders a
    listing. *)
Fixpoint shuffle (pi : list (str * node) -> list (str * node)) (n : node)
  : node :=
  match n with
  | Dir (Some l) =>
      Dir (Some (pi ((fix each (l : list (str * node)) :=
                        match l with
                        | [] => []
                        | (name, child) :: l' =>
                            (name, shuffle pi child) :: each l'
                        end) l)))
  | _ => n
  end.

(** No directory lists a name twice. *)
Fixpoint distinct_names (n : node) : Prop :=
  match n with
  | Dir (Some l) =>
      NoDup (map fst l)
      /\ (fix each (l : list (str * node)) : Prop :=
            match l with
            | [] => True
            | (_, child) :: l' => distinct_names child /\ each l'
            end) l
  | _ => True
  end.

(** [list(s)] gives the elements of [s], in some order. *)
Definition lists_the_set (order : list str -> list str) : Prop :=
  forall l x, In x (order l) <-> In x l.

(** Two configurations that differ only in the order of the exclusion
    list. *)
Definition same_config (c1 c2 : config) : Prop :=
  cwd c1 = cwd c2 /\ base_folder c1 = base_folder c2
  /\ includes c1 = includes c2
  /\ forall x, In x (exclusions c1) <-> In x (exclusions c2).

(** The environment of another run over the same filesystem: listings come
    in the order [pi] gives and sets are iterated in the order [order]
    gives. *)
Definition rerun (env : enc_env) (order : list str -> list str)
    (pi : list (str * node) -> list (str * node)) : enc_env :=
  {| working_dir := working_dir env;
     output_exists := output_exists env;
     output_opens := output_opens env;
     lookup := fun p => option_map (shuffle pi) (lookup env p);
     set_order := order |}.

(** Items with the same names and traversals that do the same. *)
Definition same_items (a b : str * (str -> enc_state -> enc_state)) : Prop :=
  fst a = fst b /\ forall p st, snd a p st = snd b p st.

(** *** Bundles and their entries *)

(** The text of a file as the encoder decodes it: under the first of
    UTF-8, Latin-1 and ASCII that reads it. *)
Definition decoded_text (f : file) : option str :=
  match file_text f Utf8 with
  | ReadOk content => Some content
  | _ =>
      match file_text f Latin1 with
      | ReadOk content => Some content
      | _ =>
          match file_text f Ascii7 with
          | ReadOk content => Some content
          | _ => None
          end
      end
  end.

(** The text has no line that starts with a fence: no newline followed by
    three backticks. *)
Definition fence_free (content : str) : bool :=
  negb (contains (nl ++ "```") content).

(** An entry of a bundle: path, language tag and text. *)
Record bundle_entry : Type := {
  e_path : str;
  e_language : str;
  e_content : str
}.

(** The text of the entries, one after the other. *)
Definition bundle_text (es : list bundle_entry) : str :=
  concat (map (fun e => entry_text (e_path e) (e_language e) (e_content e)) es).

(** An entry the pattern reads back as it was written. *)
Definition readable (e : bundle_entry) : Prop :=
  e_path e <> [] /\ forallb not_backtick (e_path e) = true
  /\ forallb not_space (e_language e) = true
  /\ fence_free (e_content e) = true.

(** A file given to [write_file_to_output], with the base folder it is
    written against. *)
Record source_file : Type := {
  src_path : str;
  src_base : str;
  src_file : file
}.

(** The encoder's loop over the files it writes, in order. *)
Definition write_files (cwd : str) (files : list source_file)
    (st : enc_state) : enc_state :=
  fold_left
    (fun st sf =>
       write_file_to_output cwd (src_path sf) (src_base sf) (src_file sf) st)
    files st.

(** The entry [write_file_to_output] writes for a file: none when the file
    does not decode. *)
Definition entry_of (cwd : str) (sf : source_file) : list bundle_entry :=
  match decoded_text (src_file sf) with
  | Some content =>
      [ {| e_path := header_path cwd (src_path sf) (src_base sf);
           e_language := language_of (src_path sf);
           e_content := content |} ]
  | None => []
  end.

(** A file the round trip holds for: it decodes, its text has no line that
    starts with a fence and no carriage return, and its header path has no
    carriage return and is read back as it is. *)
Definition round_trips (cwd : str) (sf : source_file) : Prop :=
  exists content,
    decoded_text (src_file sf) = Some content
    /\ fence_free content = true
    /\ cr_free content = true
    /\ plain_header (header_path cwd (src_path sf) (src_base sf))
    /\ cr_free (header_path cwd (src_path sf) (src_base sf)) = true.

(** What decoding the entry of a file does: the directories of the path,
    then the file with the text. *)
Definition expected_ops (output_folder : str) (e : bundle_entry)
  : list fs_op :=
  [ Makedirs (Path.dirname (Path.join output_folder (e_path e)));
    WriteFile (Path.join output_folder (e_path e)) (e_content e) ].

(** A decoder run over an input file that holds the text [content]:
    reading it gives the text with its line ends translated; the output
    folder exists and every write succeeds. *)
Definition reads (content : str) (env : dec_env) (input_file : str) : Prop :=
  out_exists env = true
  /\ (exists read, bundle env input_file = Some read
                   /\ read Utf8 = ReadOk (universal_newlines content))
  /\ forall done p, io env done p = IoOk.


(** *** Matches *)

(** The character before the position reached after [run], from a position
    that has [pv] before it. *)
Fixpoint last_of (pv : option ascii) (run : str) : option ascii :=
  match run with
  | [] => pv
  | c :: run' => last_of (Some c) run'
  end.

(** A position where [^] matches under [re.MULTILINE]. *)
Definition line_start (pv : option ascii) : Prop :=
  pv = None \/ pv = Some Re.newline.

(** Text that cannot start an entry: blanks, then the end or a character
    that is neither blank nor [#]. *)
Definition no_header_ahead (s : str) : Prop :=
  exists ws t,
    s = ws ++ t /\ forallb isspace ws = true
    /\ match t with
       | [] => True
       | c :: _ => isspace c = false /\ c <> "#"%char
       end.

(** An entry up to its closing fence, as [write_file_to_output] writes it. *)
Definition entry_body (rel_path language content : str) : str :=
  "#"%char :: "#"%char :: "#"%char :: " "%char :: "*"%char :: "*"%char
  :: backtick
  :: rel_path
  ++ backtick :: "*"%char :: "*"%char :: Re.newline :: Re.newline
  :: backtick :: backtick :: backtick
  :: language
  ++ Re.newline
  :: content
  ++ [Re.newline; backtick; backtick; backtick].

(** The groups of the match of an entry. *)
Definition entry_groups (rel_path language content : str) : Re.groups :=
  Re.set_group 3 content
    (Re.set_group 2 language (Re.set_group 1 rel_path Re.no_groups)).

(** What the decoder reads of a match. *)
Definition caps (m : Re.mtch) : str * str := (Re.group m 1, Re.group m 3).

(** The match of an entry, as far as the decoder reads it. *)
Definition entry_match (e : bundle_entry) : Re.mtch :=
  Re.Match (entry_groups (e_path e) (e_language e) (e_content e)) 0.

(** *** The selection of files *)

(** The walk of the tree as the specification describes it, apart from the
    writing: the files that are selected, in order.  It is compared with
    [traverse_and_concatenate] in [traverse_selects].  First, the files
    selected in the children of a directory, taken in sorted order. *)
Definition select_children (current_path : str)
    (items : list (str * (str -> list source_file))) : list source_file :=
  flat_map (fun item => snd item (Path.join current_path (fst item)))
    (sorted items).

(** The decisions of [traverse_and_concatenate] at one path: excluded,
    not included, a directory, a text file, something else. *)
Definition select (cfg : config) (v : view (str -> list source_file))
    (current_path : str) : list source_file :=
  if should_exclude current_path (exclusions cfg) (view_is_dir v) then []
  else if match includes cfg with [] => false | _ => true end
          && negb (should_include current_path (includes cfg) (view_is_dir v))
  then
    match v with
    | At_dir (Some items) => select_children current_path items
    | _ => []
    end
  else
    match v with
    | At_dir (Some items) => select_children current_path items
    | At_dir None => []
    | At_file f =>
        if fst (is_text_file current_path f)
        then [ {| src_path := current_path;
                  src_base := base_folder cfg;
                  src_file := f |} ]
        else []
    | At_other => []
    end.

(** The files selected in the tree [n] found at [current_path]. *)
Fixpoint selected (cfg : config) (n : node) (current_path : str)
    {struct n} : list source_file :=
  match n with
  | File f => select cfg (At_file f) current_path
  | Other => select cfg At_other current_path
  | Dir listing =>
      select cfg
        (At_dir
           (option_map
              (fix children (l : list (str * node)) :=
                 match l with
                 | [] => []
                 | (name, child) :: l' =>
                     (name, selected cfg child) :: children l'
                 end)
              listing))
        current_path
  end.

(** The files a run selects, over its input paths. *)
Definition selected_files (env : enc_env)
    (effective_exclusions_list includes : list str) (paths : list str)
  : list source_file :=
  flat_map
    (fun path_arg =>
       match lookup env path_arg with
       | None => []
       | Some _ =>
           let path_arg := Path.normpath path_arg in
           let n := match lookup env path_arg with
                    | Some n => n
                    | None => Other
                    end in
           selected
             {| cwd := working_dir env;
                base_folder :=
                  if isfile n then
                    match Path.dirname path_arg with
                    | [] => "." : str
                    | d => d
                    end
                  else path_arg;
                exclusions := effective_exclusions_list;
                includes := includes |}
             n path_arg
       end)
    paths.

(** A traversal and a selection that go together: the traversal appends the
    entries of the files selected. *)
Definition writes_selection (cwd : str)
    (a : str * (str -> enc_state -> enc_state))
    (b : str * (str -> list source_file)) : Prop :=
  fst a = fst b
  /\ forall p st,
       sink (snd a p st)
       = sink st ++ bundle_text (flat_map (entry_of cwd) (snd b p)).

(** ** Further notions *)

(** *** Operations of the decoder *)

(** The operation writes a file. *)
Definition is_write (o : fs_op) : bool :=
  match o with
  | WriteFile _ _ => true
  | Makedirs _ => false
  end.

(** The path the decoder writes an entry to is safe: it is relative and
    never goes up, once stripped and normalized. *)
Definition safe_entry (e : bundle_entry) : bool :=
  negb (unsafe_path (Path.normpath (strip (e_path e)))).

(** A state in which the operations come in pairs: every file written has
    the directory of its path made just before it. *)
Inductive paired : list fs_op -> Prop :=
| paired_nil : paired []
| paired_dir (d : str) (l : list fs_op) : paired l -> paired (Makedirs d :: l)
| paired_file (p c : str) (l : list fs_op) :
    paired l ->
    paired (Makedirs (Path.dirname p) :: WriteFile p c :: l).

(** What decoding an entry does, whatever its path: nothing when the path
    is unsafe; otherwise the directories of the normalized path are made
    under the output folder and the file is written there. *)
Definition decoded_ops (output_folder : str) (e : bundle_entry)
  : list fs_op :=
  let rel_path := Path.normpath (strip (e_path e)) in
  if safe_entry e
  then [ Makedirs (Path.dirname (Path.join output_folder rel_path));
         WriteFile (Path.join output_folder rel_path) (e_content e) ]
  else [].

(** Every directory made so far lies under [root]. *)
Definition makes_under (root : str) (st : dec_state) : Prop :=
  forall d, In (Makedirs d) (ops st) -> lies_under root d.

(** *** What a traversal leaves behind *)

(** The second state holds all the first holds, and possibly more: the
    output and the messages go on from those of the first, and each set
    holds the paths it held. *)
Definition extends (st st' : enc_state) : Prop :=
  (exists text, sink st' = sink st ++ text)
  /\ (exists evs, enc_printed st' = enc_printed st ++ evs)
  /\ incl (processed_files st) (processed_files st')
  /\ incl (skipped_files st) (skipped_files st')
  /\ incl (excluded_items st) (excluded_items st').

(** What a traversal produces, apart from the messages: the output and
    the three sets. *)
Definition produced (st : enc_state)
  : str * list str * list str * list str :=
  (sink st, processed_files st, skipped_files st, excluded_items st).

(** The walk of the entries of a directory, in sorted order. *)
Definition walk (cfg : config) (current_path : str) (l : list (str * node))
    (st : enc_state) : enc_state :=
  fold_left
    (fun st e =>
       traverse_and_concatenate cfg (snd e) (Path.join current_path (fst e)) st)
    (sorted l) st.

(** Lines 358: the count of excluded items the summary prints, [isdir]
    being what [os.path.isdir] answers when the summary is made. *)
Definition explicitly_excluded_count (isdir : str -> bool)
    (effective_exclusions_list excluded_items : list str) : nat :=
  length
    (filter (fun item => should_exclude item effective_exclusions_list
                           (isdir item))
       excluded_items).

(** *** Patterns *)

(** A pattern without the characters [fnmatch] reads as wildcards. *)
Definition literal (pat : str) : bool :=
  forallb
    (fun c => negb (Ascii.eqb c "*" || Ascii.eqb c "?" || Ascii.eqb c "["))
    pat.

(** *** Names and paths *)

(** The first argument of [os.path.join] as it is put before a relative
    second one: followed by a slash unless it is empty or ends with one. *)
Definition glue (a : str) : str :=
  if match a with [] => true | _ => endswith "/" a end then a else a ++ "/".

(** The number of separators a path starts with. *)
Fixpoint lead (s : str) : nat :=
  match s with
  | c :: s' => if Ascii.eqb Path.sep c then S (lead s') else 0
  | [] => 0
  end.

(** A name that a header line holds as it is: it has no backtick and
    neither starts nor ends with white space. *)
Definition tidy (name : str) : bool :=
  forallb not_backtick name
  && match name with c :: _ => negb (isspace c) | [] => true end
  && match rev name with c :: _ => negb (isspace c) | [] => true end.

(** The base folder has a tidy name of its own, other than [..], or no
    name of its own: it is [.] or the root. *)
Definition tidy_base (base : str) : Prop :=
  let base_folder_name := Path.basename (Path.normpath base) in
  base_folder_name = [] \/ base_folder_name = "."
  \/ (base_folder_name <> ".." /\ tidy base_folder_name = true).

(** *** Tidy trees *)

(** A tree that is kept tidy: the names its directories list are names as
    [os.listdir] gives them, are tidy and hold no carriage return, and the
    text of each of its files that decodes has no line that starts with a
    fence and no carriage return. *)
Fixpoint well_kept (n : node) : Prop :=
  match n with
  | File f =>
      match decoded_text f with
      | Some content => fence_free content = true /\ cr_free content = true
      | None => True
      end
  | Dir (Some l) =>
      (fix each (l : list (str * node)) : Prop :=
         match l with
         | [] => True
         | (name, child) :: l' =>
             component name = true /\ tidy name = true
             /\ cr_free name = true
             /\ well_kept child /\ each l'
         end) l
  | _ => True
  end.

(** A file the decoder gives back: its header path has no carriage return
    and is read back as it is, and its text, when it decodes, has no line
    that starts with a fence and no carriage return. *)
Definition given_back (cwd : str) (sf : source_file) : Prop :=
  plain_header (header_path cwd (src_path sf) (src_base sf))
  /\ cr_free (header_path cwd (src_path sf) (src_base sf)) = true
  /\ match decoded_text (src_file sf) with
     | Some content => fence_free content = true /\ cr_free content = true
     | None => True
     end.

(** ** Concrete inputs *)

(** A file that holds [content], read alike under every encoding. *)
Definition text_file (content : str) : file :=
  {| file_bytes :=
       Some (map (fun c => match Byte.of_nat (code c) with
                           | Some b => b
                           | None => Byte.x00
                           end) content);
     file_text := fun _ => ReadOk content |}.

(** The state of the encoder before anything is written. *)
Definition empty_state : enc_state :=
  {| sink := []; processed_files := []; skipped_files := [];
     excluded_items := []; enc_printed := [] |}.

(** The state of the decoder before anything is done. *)
Definition no_ops : dec_state :=
  {| ops := []; files_created := 0; errors_encountered := 0; printed := [] |}.

(** A decoder run that reads [content] from every input file and whose
    writes all succeed. *)
Definition always_ok (content : str) : dec_env :=
  {| out_exists := true;
     out_creatable := true;
     bundle := fun _ => Some (fun _ => ReadOk content);
     io := fun _ _ => IoOk |}.

(** A run with no input found. *)
Definition plain_env : enc_env :=
  {| working_dir := "/work";
     output_exists := false;
     output_opens := true;
     lookup := fun _ => None;
     set_order := fun l => l |}.

(** A run whose output file exists and is also its only input. *)
Definition self_input_env : enc_env :=
  {| working_dir := "/work";
     output_exists := true;
     output_opens := true;
     lookup := fun p =>
       if str_eqb p "out.md" then Some (File (text_file [])) else None;
     set_order := fun l => l |}.

(** A repository directory, with a file in it. *)
Definition git_dir : node :=
  Dir (Some [("config" : str, File (text_file "[core]"))]).

(** A run over a directory given from inside a repository directory. *)
Definition inside_git_env : enc_env :=
  {| working_dir := "/work";
     output_exists := false;
     output_opens := true;
     lookup := fun p =>
       if str_eqb p "a/.git/hooks"
       then Some (Dir (Some [("pre-commit" : str,
                              File (text_file "#!/bin/sh"))]))
       else None;
     set_order := fun l => l |}.

(** A project directory with a script in it. *)
Definition project_env : enc_env :=
  {| working_dir := "/work";
     output_exists := false;
     output_opens := true;
     lookup := fun p =>
       if str_eqb p "a"
       then Some (Dir (Some [("x.py" : str, File (text_file "print(1)"));
                             (".git" : str, git_dir)]))
       else None;
     set_order := fun l => l |}.

(** A text that quotes a fenced block, and a directory with a Markdown
    file that holds it. *)
Definition fenced_text : str := "hi" ++ nl ++ "```" ++ nl ++ "foo".

Definition notes_env : enc_env :=
  {| working_dir := "/work";
     output_exists := false;
     output_opens := true;
     lookup := fun p =>
       if str_eqb p "a"
       then Some (Dir (Some [("m.md" : str, File (text_file fenced_text))]))
       else None;
     set_order := fun l => l |}.

(** A directory with two files. *)
Definition two_files_env : enc_env :=
  {| working_dir := "/work";
     output_exists := false;
     output_opens := true;
     lookup := fun p =>
       if str_eqb p "a"
       then Some (Dir (Some [("x.py" : str, File (text_file "print(1)"));
                             ("b.txt" : str, File (text_file "two"))]))
       else None;
     set_order := fun l => l |}.

(** A bundle with an entry that goes up and an entry that stays. *)
Definition evil_bundle : str :=
  entry_text "../evil.txt" "text" "x" ++ entry_text "b.txt" "text" "y".

(** A file whose name ends with a blank, a file whose name holds a
    carriage return, and a file bundled from the parent directory. *)
Definition blank_name : source_file :=
  {| src_path := "a/x.txt "; src_base := "a"; src_file := text_file "one" |}.

Definition cr_name : source_file :=
  {| src_path := "a/x" ++ [cr] ++ "y.txt"; src_base := "a";
     src_file := text_file "one" |}.

Definition from_parent : source_file :=
  {| src_path := "../x.txt"; src_base := ".."; src_file := text_file "one" |}.

(** ** Strings: basic facts *)

#[local] Arguments Ascii.eqb : simpl never.

Lemma str_eqb_refl (a : str) : str_eqb a a = true.
Proof.
  induction a as [|x a IH]; simpl; [reflexivity|].
  now rewrite Ascii.eqb_refl.
Qed.

Lemma str_eqb_eq (a b : str) : str_eqb a b = true <-> a = b.
Proof.
  split.
  - revert b; induction a as [|x a IH]; intros [|y b] H; simpl in H;
      try discriminate; [reflexivity|].
    apply andb_true_iff in H as [Hxy Hab].
    apply Ascii.eqb_eq in Hxy. apply IH in Hab. now subst.
  - intros ->. apply str_eqb_refl.
Qed.

Lemma str_eqb_neq (a b : str) : str_eqb a b = false <-> a <> b.
Proof.
  split.
  - intros H Heq. apply str_eqb_eq in Heq. congruence.
  - intros H. destruct (str_eqb a b) eqn:E; [|reflexivity].
    apply str_eqb_eq in E. contradiction.
Qed.

Lemma mem_In (x : str) (l : list str) : mem x l = true <-> In x l.
Proof.
  unfold mem. rewrite existsb_exists. split.
  - intros [y [Hy E]]. apply str_eqb_eq in E. now subst.
  - intros H. exists x. split; [assumption|apply str_eqb_refl].
Qed.

(** ** The pre-flight check of the encoder *)

(** C7 (amended): the run is aborted by [handle_error] exactly when the
    output file exists and [force] is off; the message says that the output
    is an input when the normalized output path is among the normalized
    input paths.  An aborted run has written nothing: it has no state.  With
    [force] on, or with an output file that does not exist yet, this check
    aborts nothing. *)
Theorem concatenate_aborts_iff :
  forall env output_name paths force exclusions includes add_prompt e,
    concatenate_files_and_folders env output_name paths force exclusions
      includes add_prompt = Aborted e
    <-> (output_exists env = true /\ force = false
         /\ e = if mem (Path.normpath output_name) (map Path.normpath paths)
                then Error_output_is_input (Path.normpath output_name)
                else Error_output_exists (Path.normpath output_name)).
Proof.
  intros env output_name paths force exclusions includes add_prompt e.
  unfold concatenate_files_and_folders.
  destruct (output_exists env), force; simpl.
  - destruct (output_opens env); simpl.
    + destruct (fold_left _ _ _). split; [discriminate|]. intros (_ & H & _). discriminate.
    + split; [discriminate|]. intros (_ & H & _). discriminate.
  - destruct (mem _ _); split.
    + intros [= <-]. auto.
    + intros (_ & _ & ->). reflexivity.
    + intros [= <-]. auto.
    + intros (_ & _ & ->). reflexivity.
  - destruct (output_opens env); simpl.
    + destruct (fold_left _ _ _). split; [discriminate|]. intros (H & _). discriminate.
    + split; [discriminate|]. intros (H & _). discriminate.
  - destruct (output_opens env); simpl.
    + destruct (fold_left _ _ _). split; [discriminate|]. intros (H & _). discriminate.
    + split; [discriminate|]. intros (H & _). discriminate.
Qed.

(** C7, as stated, fails: with [force] on, a run whose output path is one
    of its input paths is not aborted; the output file is opened for
    writing and an entry is written to it. *)
Lemma forced_self_input_is_not_aborted :
  mem (Path.normpath "out.md") (map Path.normpath ["out.md" : str]) = true
  /\ exists st,
       concatenate_files_and_folders self_input_env "out.md" ["out.md" : str]
         true [] [] false = Completed st
       /\ sink st = entry_text "out.md" "markdown" [].
Proof.
  split; [reflexivity|].
  eexists. split; [vm_compute; reflexivity|]. reflexivity.
Qed.
(** ** Exclusion *)

Lemma traverse_excluded (cfg : config) (n : node) (current_path : str)
    (st : enc_state) :
  should_exclude current_path (exclusions cfg) (isdir n) = true ->
  traverse_and_concatenate cfg n current_path st
  = excluded_at cfg (isdir n) current_path st.
Proof.
  intros H. destruct n as [f|listing|]; simpl in *; unfold visit; simpl;
    rewrite H; reflexivity.
Qed.

(** C3: a path that an exclusion pattern matches is dropped, whatever the
    inclusion patterns are and whatever lies below it.  The exclusion test
    comes first: the traversal only records the path as excluded, and does
    so whatever list of inclusion patterns it is given and, for a
    directory, whatever the directory lists. *)
Theorem exclusion_takes_precedence :
  forall cfg n current_path st,
    should_exclude current_path (exclusions cfg) (isdir n) = true ->
    traverse_and_concatenate cfg n current_path st
    = excluded_at cfg (isdir n) current_path st
    /\ (forall includes',
           traverse_and_concatenate
             {| cwd := cwd cfg; base_folder := base_folder cfg;
                exclusions := exclusions cfg; includes := includes' |}
             n current_path st
           = traverse_and_concatenate cfg n current_path st)
    /\ (forall listing listing',
           n = Dir listing ->
           traverse_and_concatenate cfg (Dir listing') current_path st
           = traverse_and_concatenate cfg n current_path st).
Proof.
  intros cfg n current_path st H. split; [|split].
  - now apply traverse_excluded.
  - intros includes'. now rewrite !traverse_excluded.
  - intros listing listing' ->. now rewrite !traverse_excluded.
Qed.

Lemma exclusion_takes_precedence_witness :
  should_include "a/.git" ["*" : str] true = true
  /\ traverse_and_concatenate
       {| cwd := "/work"; base_folder := "a";
          exclusions := [".git" : str]; includes := ["*" : str] |}
       git_dir "a/.git" empty_state
     = excluded_at
         {| cwd := "/work"; base_folder := "a";
            exclusions := [".git" : str]; includes := ["*" : str] |}
         true "a/.git" empty_state.
Proof.
  split; [reflexivity|].
  apply (exclusion_takes_precedence
           {| cwd := "/work"; base_folder := "a";
              exclusions := [".git" : str]; includes := ["*" : str] |}
           git_dir "a/.git" empty_state).
  reflexivity.
Defined.

Lemma default_pattern_matches_itself (d : str) :
  In d default_venv_patterns -> Fnmatch.fnmatch d d = true.
Proof.
  intros H. simpl in H.
  repeat (destruct H as [H|H]; [subst d; vm_compute; reflexivity|]).
  contradiction.
Qed.

(** ** The text of an entry *)

Lemma read_with_decoded (file_path : str) (f : file) :
  fst (read_with file_path f encodings_to_try) = decoded_text f.
Proof.
  unfold encodings_to_try, decoded_text. simpl.
  destruct (file_text f Utf8); simpl; try reflexivity;
    destruct (file_text f Latin1); simpl; try reflexivity;
    destruct (file_text f Ascii7); simpl; reflexivity.
Qed.

Lemma sink_enc_print (e : list event) (st : enc_state) :
  sink (enc_print e st) = sink st.
Proof. reflexivity. Qed.

Lemma write_file_sink (cwd file_path base_folder : str) (f : file)
    (st : enc_state) :
  sink (write_file_to_output cwd file_path base_folder f st)
  = sink st
    ++ match decoded_text f with
       | Some content =>
           entry_text (header_path cwd file_path base_folder)
             (language_of file_path) content
       | None => []
       end.
Proof.
  unfold write_file_to_output.
  rewrite <- (read_with_decoded file_path f).
  destruct (read_with file_path f encodings_to_try) as [[content|] evs];
    simpl.
  - reflexivity.
  - now rewrite app_nil_r.
Qed.

(** C6: what [write_file_to_output] appends for a file that decodes is the
    header line, a blank line, the opening fence with the language, then
    the decoded text itself, nothing added and nothing removed, then the
    closing fence on a line of its own and a blank line.  A file that does
    not decode appends nothing. *)
Theorem entry_holds_content_verbatim :
  forall cwd file_path base_folder f st,
    sink (write_file_to_output cwd file_path base_folder f st)
    = sink st
      ++ match decoded_text f with
         | Some content =>
             ("### **`" ++ header_path cwd file_path base_folder ++ "`**" ++ nl)
             ++ nl
             ++ ("```" ++ language_of file_path ++ nl)
             ++ content
             ++ (nl ++ "```" ++ nl)
             ++ nl
         | None => []
         end.
Proof.
  intros. rewrite write_file_sink.
  destruct (decoded_text f); [|reflexivity].
  unfold entry_text. now rewrite <- !app_assoc.
Qed.
(** ** The classifier *)

Lemma agrees_from_spec (n : N) (nf : float) :
  forall fuel c0,
    agrees_from fuel (N.of_nat c0) (float_of_nat c0) n nf = true ->
    forall k, k < fuel ->
      PrimFloat.ltb 0x1.999999999999ap-4%float
        (float_of_nat (c0 + k) / nf)%float
      = N.ltb n (10 * N.of_nat (c0 + k)).
Proof.
  induction fuel as [|fuel IH]; intros c0 H k Hk; [lia|].
  simpl in H. apply andb_true_iff in H as [Hhere Hrest].
  destruct k as [|k].
  - rewrite Nat.add_0_r. now apply eqb_prop in Hhere.
  - replace (c0 + S k) with (S c0 + k) by lia.
    apply IH; [|lia].
    now rewrite Nat2N.inj_succ.
Qed.

Lemma agrees_upto_spec :
  forall fuel n0,
    agrees_upto fuel n0 (N.of_nat n0) (float_of_nat n0) = true ->
    forall j c, j < fuel -> c <= n0 + j ->
      too_many_controls c (n0 + j)
      = N.ltb (N.of_nat (n0 + j)) (10 * N.of_nat c).
Proof.
  induction fuel as [|fuel IH]; intros n0 H j c Hj Hc; [lia|].
  simpl in H. apply andb_true_iff in H as [Hhere Hrest].
  destruct j as [|j].
  - rewrite Nat.add_0_r in *.
    unfold too_many_controls.
    apply (agrees_from_spec (N.of_nat n0) (float_of_nat n0) (S n0) 0 Hhere c).
    lia.
  - replace (n0 + S j) with (S n0 + j) in * by lia.
    apply IH; [|lia|assumption].
    now rewrite Nat2N.inj_succ.
Qed.

Lemma agrees_upto_4096 : agrees_upto 4096 1 1%N 1%float = true.
Proof. vm_compute. reflexivity. Qed.

(** The float comparison of the source is the exact comparison, for every
    prefix [read(4096)] can return. *)
Lemma too_many_controls_exact (c n : nat) :
  0 < n <= 4096 -> c <= n ->
  too_many_controls c n = (n <? 10 * c).
Proof.
  intros Hn Hc.
  replace n with (1 + (n - 1)) by lia.
  rewrite (agrees_upto_spec 4096 1 agrees_upto_4096 (n - 1) c) by lia.
  destruct (Nat.ltb_spec (1 + (n - 1)) (10 * c)) as [H|H].
  - apply N.ltb_lt. lia.
  - apply N.ltb_ge. lia.
Qed.

Lemma control_chars_le (chunk : list Byte.byte) :
  control_chars chunk <= length chunk.
Proof. unfold control_chars. apply filter_length_le. Qed.

(** C4: [is_text_file] decides as the policy says.  With a known binary
    extension it answers "not text" whatever the file is (its content is
    not looked at); an unreadable file is not text; otherwise the answer is
    read off the first 4096 bytes: empty is text, a null byte is binary,
    and else binary exactly when ten times the count of control characters
    (below 32, other than tab, newline and carriage return) exceeds the
    length. *)
Theorem is_text_file_policy :
  forall file_path f,
    fst (is_text_file file_path f) = classifier_policy file_path (file_bytes f)
    /\ (mem (lower (snd (Path.splitext file_path))) binary_extensions = true ->
        is_text_file file_path f = (false, []))
    /\ (file_bytes f = None -> fst (is_text_file file_path f) = false).
Proof.
  intros file_path f. unfold is_text_file, classifier_policy.
  destruct (mem _ binary_extensions); [repeat split; reflexivity|].
  split; [|split; [discriminate|]].
  - destruct (file_bytes f) as [bytes|]; [|reflexivity].
    assert (Hlen : length (firstn 4096 bytes) <= 4096)
      by apply firstn_le_length.
    destruct (firstn 4096 bytes) as [|b chunk] eqn:E; [reflexivity|].
    destruct (existsb is_null (b :: chunk)); [reflexivity|].
    rewrite too_many_controls_exact.
    + now destruct (_ <? _).
    + simpl in *. lia.
    + apply control_chars_le.
  - intros ->. reflexivity.
Qed.
Lemma is_text_file_policy_witness :
  is_text_file "logo.PNG" (text_file "plain text") = (false, []).
Proof.
  exact (proj1 (proj2 (is_text_file_policy "logo.PNG" (text_file "plain text")))
           eq_refl).
Defined.

(** ** Paths *)

Lemma split_on_nonempty (sep : ascii) (s : str) :
  exists w ws, split_on sep s = w :: ws.
Proof.
  induction s as [|c s IH]; simpl; [now exists [], []|].
  destruct (Ascii.eqb c sep); [now eexists; eexists|].
  destruct IH as (w & ws & ->). now eexists; eexists.
Qed.

Lemma split_on_app (sep : ascii) (a b : str) :
  split_on sep (a ++ sep :: b) = split_on sep a ++ split_on sep b.
Proof.
  induction a as [|x a IH]; simpl.
  - now rewrite Ascii.eqb_refl.
  - destruct (Ascii.eqb x sep); [now rewrite IH|].
    rewrite IH. destruct (split_on_nonempty sep a) as (w & ws & ->).
    reflexivity.
Qed.

Lemma plain_not_empty (comp : str) : plain comp = true -> comp <> [].
Proof. intros H ->. discriminate. Qed.

Lemma norm_step_plain (initial : nat) (acc : list str) (comp : str) :
  comp <> ".." ->
  Path.norm_step initial acc comp = if plain comp then acc ++ [comp] else acc.
Proof.
  intros H. unfold Path.norm_step, plain.
  apply str_eqb_neq in H. rewrite H.
  destruct (str_eqb comp [] || str_eqb comp "."); reflexivity.
Qed.

Lemma norm_fold_no_dotdot (initial : nat) (comps : list str) :
  forall acc,
    ~ In (".." : str) comps ->
    fold_left (Path.norm_step initial) comps acc = acc ++ filter plain comps.
Proof.
  induction comps as [|comp comps IH]; intros acc H; simpl.
  - now rewrite app_nil_r.
  - rewrite norm_step_plain by (intros ->; apply H; now left).
    rewrite IH by (intros Hin; apply H; now right).
    destruct (plain comp); [|reflexivity].
    now rewrite <- app_assoc.
Qed.

Lemma norm_step_skip (initial : nat) (acc : list str) (comp : str) :
  plain comp = false -> Path.norm_step initial acc comp = acc.
Proof.
  unfold Path.norm_step, plain. intros H.
  apply negb_false_iff in H. now rewrite H.
Qed.

Lemma norm_fold_filter (initial : nat) (comps : list str) :
  forall acc,
    fold_left (Path.norm_step initial) comps acc
    = fold_left (Path.norm_step initial) (filter plain comps) acc.
Proof.
  induction comps as [|comp comps IH]; intros acc; simpl; [reflexivity|].
  destruct (plain comp) eqn:E; simpl.
  - apply IH.
  - rewrite norm_step_skip by assumption. apply IH.
Qed.

Lemma endswith_slash (root : str) :
  endswith "/" root = true -> exists r, root = r ++ ["/"%char].
Proof.
  unfold endswith. simpl. intros H.
  destruct (rev root) as [|x t] eqn:E; [discriminate|].
  rewrite andb_true_r in H. apply Ascii.eqb_eq in H. subst x.
  exists (rev t). rewrite <- (rev_involutive root), E. reflexivity.
Qed.

Lemma initial_slashes_join (root rel : str) :
  Path.isabs rel = false ->
  Path.initial_slashes (Path.join root rel) = Path.initial_slashes root.
Proof.
  unfold Path.isabs, Path.join. intros Habs. rewrite Habs.
  destruct root as [|a [|b [|c root]]].
  - unfold Path.initial_slashes. simpl in *. now rewrite Habs.
  - unfold endswith, Path.initial_slashes. simpl in *.
    rewrite andb_true_r.
    destruct (Ascii.eqb "/" a) eqn:Ea; simpl; rewrite ?Ea; simpl;
      [|reflexivity].
    destruct rel as [|x rel]; simpl in *; rewrite ?Ea; simpl;
      [reflexivity|].
    rewrite andb_true_r in Habs. now rewrite Habs.
  - unfold endswith, Path.initial_slashes. simpl in *.
    rewrite !andb_true_r.
    destruct (Ascii.eqb "/" b) eqn:Eb; destruct (Ascii.eqb "/" a) eqn:Ea;
      simpl; rewrite ?Ea, ?Eb; simpl; try reflexivity.
    destruct rel as [|x rel]; simpl in *; [reflexivity|].
    rewrite andb_true_r in Habs. now rewrite Habs.
  - destruct (endswith "/" (a :: b :: c :: root)); reflexivity.
Qed.

Lemma norm_comps_join (root rel : str) :
  Path.isabs rel = false ->
  ~ In (".." : str) (split_on Path.sep rel) ->
  Path.norm_comps (Path.join root rel)
  = Path.norm_comps root ++ filter plain (split_on Path.sep rel).
Proof.
  intros Habs Hdd. unfold Path.norm_comps.
  rewrite (initial_slashes_join root rel Habs).
  set (i := Path.initial_slashes root).
  unfold Path.join. unfold Path.isabs in Habs. rewrite Habs.
  destruct root as [|a root].
  - simpl. now rewrite norm_fold_no_dotdot.
  - destruct (endswith "/" (a :: root)) eqn:E.
    + apply endswith_slash in E as [r Hr]. rewrite Hr.
      rewrite <- app_assoc. simpl.
      change ("/"%char) with Path.sep.
      rewrite (split_on_app Path.sep r rel), (split_on_app Path.sep r []).
      rewrite !fold_left_app. simpl.
      now rewrite norm_fold_no_dotdot.
    + replace ((a :: root) ++ "/" ++ rel)
        with ((a :: root) ++ Path.sep :: rel) by reflexivity.
      rewrite (split_on_app Path.sep (a :: root) rel), fold_left_app.
      now rewrite norm_fold_no_dotdot.
Qed.

Lemma unsafe_path_false (rel : str) :
  unsafe_path rel = false ->
  Path.isabs rel = false /\ ~ In (".." : str) (split_on Path.sep rel).
Proof.
  unfold unsafe_path. intros H. apply orb_false_iff in H as [Ha Hm].
  split; [assumption|]. intros Hin. apply mem_In in Hin. congruence.
Qed.

Lemma join_lies_under (root rel : str) :
  unsafe_path rel = false -> lies_under root (Path.join root rel).
Proof.
  intros H. apply unsafe_path_false in H as [Habs Hdd].
  split; simpl.
  - now apply initial_slashes_join.
  - exists (filter plain (split_on Path.sep rel)). split; [|split].
    + now apply norm_comps_join.
    + intros Hin. apply filter_In in Hin as [Hin _]. contradiction.
    + intros Hin. apply filter_In in Hin as [_ Hp]. discriminate.
Qed.
(** ** The decoder writes under its root *)

Lemma slice_entry_unsafe (env : dec_env) (input_file output_folder : str)
    (st : dec_state) (m : Re.mtch) :
  unsafe_path (Path.normpath (strip (Re.group m 1))) = true ->
  slice_entry env input_file output_folder st m
  = dec_error
      [Security_warning (Path.normpath (strip (Re.group m 1))) input_file] st.
Proof. intros H. unfold slice_entry. now rewrite H. Qed.

Lemma slice_entry_under (env : dec_env) (input_file root : str)
    (st : dec_state) (m : Re.mtch) :
  writes_under root st ->
  writes_under root (slice_entry env input_file root st m).
Proof.
  intros Hst p c. unfold slice_entry.
  destruct (unsafe_path _) eqn:Hsafe; [apply Hst|].
  destruct (io env (ops st) _); simpl; try apply Hst.
  - rewrite in_app_iff. intros [H|H]; [now apply (Hst p c)|].
    simpl in H. destruct H as [H|[H|[]]]; [discriminate|].
    injection H as <- _. now apply join_lies_under.
  - rewrite in_app_iff. intros [H|H]; [now apply (Hst p c)|].
    simpl in H. destruct H as [H|[]]. discriminate.
  - rewrite in_app_iff. intros [H|H]; [now apply (Hst p c)|].
    simpl in H. destruct H as [H|[]]. discriminate.
Qed.

Lemma fold_slice_entry_under (env : dec_env) (input_file root : str)
    (ms : list Re.mtch) :
  forall st,
    writes_under root st ->
    writes_under root (fold_left (slice_entry env input_file root) ms st).
Proof.
  induction ms as [|m ms IH]; intros st H; simpl; [assumption|].
  apply IH. now apply slice_entry_under.
Qed.

Lemma scan_entries_under (env : dec_env) (input_file root content : str)
    (st : dec_state) :
  writes_under root st ->
  writes_under root (scan_entries env input_file root content st).
Proof.
  intros H. unfold scan_entries.
  pose proof (fold_slice_entry_under env input_file root
                (Re.finditer pattern content) st H) as Hfold.
  destruct (Re.finditer pattern content); assumption.
Qed.

Lemma slice_content_under (env : dec_env) (input_file root content : str)
    (st : dec_state) :
  writes_under root st ->
  writes_under root (slice_content env input_file root content st).
Proof.
  intros H. unfold slice_content.
  destruct (startswith _ _); [|now apply scan_entries_under].
  destruct (skip_prompt content) as [content' e].
  now apply scan_entries_under.
Qed.

Lemma slice_input_under (env : dec_env) (root : str) (st : dec_state)
    (input_file : str) :
  writes_under root st ->
  writes_under root (slice_input env root st input_file).
Proof.
  intros H. unfold slice_input.
  destruct (bundle env input_file) as [read|]; [|exact H].
  destruct (read Utf8); [now apply slice_content_under| |exact H].
  destruct (read Latin1); [now apply slice_content_under|exact H|exact H].
Qed.

Lemma fold_slice_input_under (env : dec_env) (root : str)
    (input_files : list str) :
  forall st,
    writes_under root st ->
    writes_under root (fold_left (slice_input env root) input_files st).
Proof.
  induction input_files as [|f fs IH]; intros st H; simpl; [assumption|].
  apply IH. now apply slice_input_under.
Qed.

Lemma slice_files_under (env : dec_env) (input_files : list str)
    (output_folder : str) (st : dec_state) :
  slice_files env input_files output_folder = Completed st ->
  writes_under output_folder st.
Proof.
  unfold slice_files.
  destruct (out_exists env); [|destruct (out_creatable env)];
    try discriminate; intros [= <-];
    apply fold_slice_input_under; intros p c H; simpl in H;
    intuition discriminate.
Qed.

(** C1: an entry whose path, stripped and normalized, is absolute or has a
    [..] component changes nothing on disk: the operations done so far and
    the count of files stay as they were, the error count goes up by one
    and a security warning is printed; the entries after it are processed
    as usual, from that state.  Hence every file a run of [slice_files]
    writes lies under the output folder. *)
Theorem unsafe_entries_are_rejected :
  forall env output_folder,
    (forall input_file st m,
        unsafe_path (Path.normpath (strip (Re.group m 1))) = true ->
        let st' := slice_entry env input_file output_folder st m in
        ops st' = ops st
        /\ files_created st' = files_created st
        /\ errors_encountered st' = S (errors_encountered st)
        /\ printed st'
           = printed st
             ++ [Security_warning (Path.normpath (strip (Re.group m 1)))
                   input_file])
    /\ (forall input_file st before m after,
           unsafe_path (Path.normpath (strip (Re.group m 1))) = true ->
           fold_left (slice_entry env input_file output_folder)
             (before ++ m :: after) st
           = fold_left (slice_entry env input_file output_folder) after
               (dec_error
                  [Security_warning (Path.normpath (strip (Re.group m 1)))
                     input_file]
                  (fold_left (slice_entry env input_file output_folder)
                     before st)))
    /\ (forall input_files st,
           slice_files env input_files output_folder = Completed st ->
           forall p c, In (WriteFile p c) (ops st) ->
                       lies_under output_folder p).
Proof.
  intros env output_folder. split; [|split].
  - intros input_file st m H st'. subst st'.
    rewrite slice_entry_unsafe by assumption. repeat split.
  - intros input_file st before m after H.
    rewrite fold_left_app. simpl.
    now rewrite slice_entry_unsafe by assumption.
  - intros input_files st H. now apply slice_files_under in H.
Qed.

Lemma unsafe_entries_are_rejected_witness :
  slice_files (always_ok evil_bundle) ["bundle.md" : str] "out"
  = Completed
      {| ops := [Makedirs "out"; WriteFile "out/b.txt" "y"];
         files_created := 1;
         errors_encountered := 1;
         printed := [Slicing ["bundle.md" : str] "out";
                     Processing "bundle.md";
                     Security_warning "../evil.txt" "bundle.md";
                     Creating_file "out/b.txt";
                     Slicing_complete 1 1] |}
  /\ lies_under "out" "out/b.txt".
Proof.
  assert (Hrun : slice_files (always_ok evil_bundle) ["bundle.md" : str] "out"
                 = Completed
                     {| ops := [Makedirs "out"; WriteFile "out/b.txt" "y"];
                        files_created := 1;
                        errors_encountered := 1;
                        printed := [Slicing ["bundle.md" : str] "out";
                                    Processing "bundle.md";
                                    Security_warning "../evil.txt" "bundle.md";
                                    Creating_file "out/b.txt";
                                    Slicing_complete 1 1] |})
    by (vm_compute; reflexivity).
  split; [exact Hrun|].
  apply (proj2 (proj2 (unsafe_entries_are_rejected
                         (always_ok evil_bundle) "out"))
           ["bundle.md" : str] _ Hrun "out/b.txt" "y").
  simpl. right. left. reflexivity.
Defined.
(** ** Quoted paths that name the same file *)

Lemma lstrip_spaces (ws s : str) :
  forallb isspace ws = true -> lstrip (ws ++ s) = lstrip s.
Proof.
  induction ws as [|c ws IH]; simpl; [reflexivity|].
  intros H. apply andb_true_iff in H as [Hc Hws].
  rewrite Hc. now apply IH.
Qed.

Lemma forallb_rev {A : Type} (f : A -> bool) (l : list A) :
  forallb f (rev l) = forallb f l.
Proof.
  induction l as [|x l IH]; simpl; [reflexivity|].
  rewrite forallb_app, IH. simpl. rewrite andb_true_r. apply andb_comm.
Qed.

Lemma rstrip_spaces (s ws : str) :
  forallb isspace ws = true -> rstrip (s ++ ws) = rstrip s.
Proof.
  intros H. unfold rstrip. rewrite rev_app_distr.
  rewrite lstrip_spaces; [reflexivity|now rewrite forallb_rev].
Qed.

Lemma lstrip_all_spaces (ws : str) :
  forallb isspace ws = true -> lstrip ws = [].
Proof.
  intros H. rewrite <- (app_nil_r ws). now rewrite lstrip_spaces.
Qed.

Lemma strip_spaces (ws1 p ws2 : str) :
  forallb isspace ws1 = true -> forallb isspace ws2 = true ->
  strip (ws1 ++ p ++ ws2) = strip p.
Proof.
  intros H1 H2. unfold strip. rewrite lstrip_spaces by assumption.
  induction p as [|c p IH]; simpl.
  - now rewrite lstrip_all_spaces.
  - destruct (isspace c); [exact IH|].
    change (c :: p ++ ws2) with ((c :: p) ++ ws2).
    now apply rstrip_spaces.
Qed.

(** [normpath] reads only the leading slashes and the plain components. *)
Lemma normpath_by_comps (path : str) :
  Path.normpath path
  = let p := repeat Path.sep (Path.initial_slashes path)
             ++ join_with "/" (Path.norm_comps path) in
    match p with
    | [] => "." : str
    | _ => p
    end.
Proof. destruct path; reflexivity. Qed.

Lemma normpath_same (a b : str) :
  Path.initial_slashes a = Path.initial_slashes b ->
  filter plain (split_on Path.sep a) = filter plain (split_on Path.sep b) ->
  Path.normpath a = Path.normpath b.
Proof.
  intros Hi Hc. rewrite !normpath_by_comps. unfold Path.norm_comps.
  rewrite (norm_fold_filter _ (split_on Path.sep a)).
  rewrite (norm_fold_filter _ (split_on Path.sep b)).
  now rewrite Hi, Hc.
Qed.

(** What an entry does when its path is safe and the write succeeds: the
    directory of the path is made and the text is written, at the output
    folder joined with the quoted path stripped and normalized. *)
Lemma slice_entry_writes (env : dec_env) (input_file output_folder : str)
    (st : dec_state) (m : Re.mtch) :
  let rel_path := Path.normpath (strip (Re.group m 1)) in
  let full_output_path := Path.join output_folder rel_path in
  unsafe_path rel_path = false ->
  io env (ops st) full_output_path = IoOk ->
  slice_entry env input_file output_folder st m
  = {| ops := ops st ++ [Makedirs (Path.dirname full_output_path);
                         WriteFile full_output_path (Re.group m 3)];
       files_created := S (files_created st);
       errors_encountered := errors_encountered st;
       printed := printed st
                  ++ [Creating_file (Path.normpath full_output_path)] |}.
Proof.
  intros rel_path full_output_path Hsafe Hio. unfold slice_entry.
  fold rel_path. rewrite Hsafe. fold full_output_path. now rewrite Hio.
Qed.

(** C10: the decoder reads the quoted path stripped and normalized, before
    it validates it and before it writes.  An entry whose quoted path,
    stripped and normalized, is unsafe is rejected with that path in the
    warning; otherwise, when the write succeeds, the file is written at the
    output folder joined with the stripped and normalized path.  Hence two
    quoted paths that differ only in whitespace around them, or, once
    stripped, only in empty and [.] components, normalize to the same path,
    and their entries, from any two states, both write their text to that
    same output file path; under any answers of the operating system they
    touch the same paths and count alike from the same state. *)
Theorem quoted_paths_are_normalized :
  (forall env input_file output_folder st m,
      let rel_path := Path.normpath (strip (Re.group m 1)) in
      let full_output_path := Path.join output_folder rel_path in
      (unsafe_path rel_path = true ->
       slice_entry env input_file output_folder st m
       = dec_error [Security_warning rel_path input_file] st)
      /\ (unsafe_path rel_path = false ->
          io env (ops st) full_output_path = IoOk ->
          ops (slice_entry env input_file output_folder st m)
          = ops st ++ [Makedirs (Path.dirname full_output_path);
                       WriteFile full_output_path (Re.group m 3)]
          /\ files_created (slice_entry env input_file output_folder st m)
             = S (files_created st)))
  /\ (forall ws1 p ws2,
         forallb isspace ws1 = true -> forallb isspace ws2 = true ->
         same_header_path (ws1 ++ p ++ ws2) p)
  /\ (forall env input_file output_folder st1 st2 m1 m2,
         same_header_path (Re.group m1 1) (Re.group m2 1) ->
         let rel_path := Path.normpath (strip (Re.group m1 1)) in
         let full_output_path := Path.join output_folder rel_path in
         unsafe_path rel_path = false ->
         io env (ops st1) full_output_path = IoOk ->
         io env (ops st2) full_output_path = IoOk ->
         ops (slice_entry env input_file output_folder st1 m1)
         = ops st1 ++ [Makedirs (Path.dirname full_output_path);
                       WriteFile full_output_path (Re.group m1 3)]
         /\ ops (slice_entry env input_file output_folder st2 m2)
            = ops st2 ++ [Makedirs (Path.dirname full_output_path);
                          WriteFile full_output_path (Re.group m2 3)])
  /\ (forall env input_file output_folder st m1 m2,
         same_header_path (Re.group m1 1) (Re.group m2 1) ->
         Path.normpath (strip (Re.group m1 1))
         = Path.normpath (strip (Re.group m2 1))
         /\ map target (ops (slice_entry env input_file output_folder st m1))
            = map target (ops (slice_entry env input_file output_folder st m2))
         /\ files_created (slice_entry env input_file output_folder st m1)
            = files_created (slice_entry env input_file output_folder st m2)
         /\ errors_encountered (slice_entry env input_file output_folder st m1)
            = errors_encountered
                (slice_entry env input_file output_folder st m2)).
Proof.
  split; [|split; [|split]].
  - intros env input_file output_folder st m rel_path full_output_path. split.
    + now apply slice_entry_unsafe.
    + intros Hsafe Hio.
      now rewrite (slice_entry_writes env input_file output_folder st m
                     Hsafe Hio).
  - intros ws1 p ws2 H1 H2. unfold same_header_path.
    now rewrite strip_spaces.
  - intros env input_file output_folder st1 st2 m1 m2 [Hi Hc]
      rel_path full_output_path Hsafe Hio1 Hio2.
    assert (Hn : Path.normpath (strip (Re.group m2 1)) = rel_path)
      by (symmetry; now apply normpath_same).
    split.
    + now rewrite (slice_entry_writes env input_file output_folder st1 m1
                     Hsafe Hio1).
    + rewrite (slice_entry_writes env input_file output_folder st2 m2);
        rewrite Hn; trivial.
  - intros env input_file output_folder st m1 m2 [Hi Hc].
    assert (Hn : Path.normpath (strip (Re.group m1 1))
                 = Path.normpath (strip (Re.group m2 1)))
      by now apply normpath_same.
    split; [exact Hn|].
    unfold slice_entry. rewrite Hn.
    destruct (unsafe_path _); [repeat split|].
    destruct (io env (ops st) _); simpl; rewrite ?map_app; repeat split.
Qed.

Lemma quoted_paths_are_normalized_witness :
  let m1 := {| Re.m_groups :=
                 Re.set_group 3 ("one" : str)
                   (Re.set_group 1 ("  ./a//b/./c.txt " : str) Re.no_groups);
               Re.m_len := 0 |} in
  let m2 := {| Re.m_groups :=
                 Re.set_group 3 ("two" : str)
                   (Re.set_group 1 ("a/b/c.txt" : str) Re.no_groups);
               Re.m_len := 0 |} in
  let st2 := slice_entry (always_ok []) "bundle.md" "out" no_ops m1 in
  same_header_path "  ./a//b/./c.txt " "a/b/c.txt"
  /\ ops (slice_entry (always_ok []) "bundle.md" "out" no_ops m1)
     = [Makedirs "out/a/b"; WriteFile "out/a/b/c.txt" "one"]
  /\ ops (slice_entry (always_ok []) "bundle.md" "out" st2 m2)
     = [Makedirs "out/a/b"; WriteFile "out/a/b/c.txt" "one";
        Makedirs "out/a/b"; WriteFile "out/a/b/c.txt" "two"].
Proof.
  intros m1 m2 st2.
  assert (H : same_header_path "  ./a//b/./c.txt " "a/b/c.txt")
    by (split; reflexivity).
  split; [exact H|].
  exact (proj1 (proj2 (proj2 quoted_paths_are_normalized))
           (always_ok []) "bundle.md" "out" no_ops st2 m1 m2 H
           eq_refl eq_refl eq_refl).
Defined.
(** ** The matcher on the text of an entry *)

Lemma isspace_newline : isspace Re.newline = true.
Proof. reflexivity. Qed.

Lemma isspace_backtick : isspace backtick = false.
Proof. reflexivity. Qed.

Lemma isspace_hash : isspace "#" = false.
Proof. reflexivity. Qed.

Lemma isspace_star : isspace "*" = false.
Proof. reflexivity. Qed.

Lemma isspace_blank : isspace " " = true.
Proof. reflexivity. Qed.

Lemma backtick_not_newline : Ascii.eqb backtick Re.newline = false.
Proof. reflexivity. Qed.

Lemma newline_not_backtick : Ascii.eqb Re.newline backtick = false.
Proof. reflexivity. Qed.

Lemma firstn_consumed {A : Type} (a b : list A) :
  firstn (length (a ++ b) - length b) (a ++ b) = a.
Proof.
  rewrite length_app. replace (length a + length b - length b) with (length a) by lia.
  rewrite firstn_app, Nat.sub_diag, firstn_all. simpl. apply app_nil_r.
Qed.

Lemma last_of_app (pv : option ascii) (a b : str) :
  last_of pv (a ++ b) = last_of (last_of pv a) b.
Proof. revert pv; induction a as [|c a IH]; intros pv; simpl; auto. Qed.

(** A greedy repeat over a run that ends where the class ends goes on from
    the end of the run, when the rest of the pattern matches from there. *)
Lemma rep_greedy_run (p : ascii -> bool) (k : Re.cursor -> Re.answer)
    (run tail : str) (a : Re.groups * Re.cursor) :
  forall pv,
    forallb p run = true ->
    match tail with c :: _ => p c = false | [] => True end ->
    k (Re.Cursor (last_of pv run) tail) = Some a ->
    Re.rep_greedy p k pv (run ++ tail) = Some a.
Proof.
  induction run as [|c run IH]; intros pv Hrun Htail Hk; simpl in *.
  - destruct tail as [|c tail]; simpl; [exact Hk|]. now rewrite Htail.
  - apply andb_true_iff in Hrun as [Hc Hrun]. rewrite Hc.
    now rewrite (IH (Some c) Hrun Htail Hk).
Qed.

(** A greedy repeat fails when the rest of the pattern fails wherever the
    repeat can stop. *)
Lemma rep_greedy_fails (p : ascii -> bool) (k : Re.cursor -> Re.answer)
    (Q : str -> Prop) :
  (forall pv s, Q s -> k (Re.Cursor pv s) = None) ->
  (forall c s, Q (c :: s) -> p c = true -> Q s) ->
  forall s pv, Q s -> Re.rep_greedy p k pv s = None.
Proof.
  intros Hk Hstep. induction s as [|c s IH]; intros pv HQ; simpl.
  - now apply Hk.
  - destruct (p c) eqn:Hc; [|now apply Hk].
    rewrite (IH (Some c)) by (now apply (Hstep c)).
    now apply Hk.
Qed.

(** A lazy repeat stops at the first position from which the rest of the
    pattern matches. *)
Lemma rep_lazy_first (p : ascii -> bool) (k : Re.cursor -> Re.answer)
    (tail : str) (a : Re.groups * Re.cursor) :
  forall run pv,
    forallb p run = true ->
    (forall pv' c1 c2 d, run = c1 ++ d :: c2 ->
                         k (Re.Cursor pv' (d :: c2 ++ tail)) = None) ->
    k (Re.Cursor (last_of pv run) tail) = Some a ->
    Re.rep_lazy p k pv (run ++ tail) = Some a.
Proof.
  induction run as [|c run IH]; intros pv Hrun Hbefore Hk.
  - simpl in *. destruct tail; simpl; now rewrite Hk.
  - simpl in Hrun. apply andb_true_iff in Hrun as [Hc Hrun].
    change ((c :: run) ++ tail) with (c :: run ++ tail).
    simpl. rewrite (Hbefore pv [] run c eq_refl), Hc.
    apply IH; [assumption| |exact Hk].
    intros pv' c1 c2 d ->. now apply (Hbefore pv' (c :: c1) c2 d).
Qed.

(** The closing fence. *)
Lemma exec_fence_hit (rest : list Re.regex) (k : Re.cont) (pv : option ascii)
    (tail : str) (g : Re.groups) :
  Re.exec
    (Re.seq (Re.Chr Re.newline :: Re.Chr backtick :: Re.Chr backtick
             :: Re.Chr backtick :: rest))
    k (Re.Cursor pv (Re.newline :: backtick :: backtick :: backtick :: tail)) g
  = Re.exec (Re.seq rest) k (Re.Cursor (Some backtick) tail) g.
Proof. simpl. now rewrite ?Ascii.eqb_refl. Qed.

Lemma exec_fence_miss (rest : list Re.regex) (k : Re.cont) (pv : option ascii)
    (s : str) (g : Re.groups) :
  startswith [Re.newline; backtick; backtick; backtick] s = false ->
  Re.exec
    (Re.seq (Re.Chr Re.newline :: Re.Chr backtick :: Re.Chr backtick
             :: Re.Chr backtick :: rest))
    k (Re.Cursor pv s) g
  = None.
Proof.
  intros H. simpl in *.
  destruct s as [|c1 s]; [reflexivity|].
  rewrite (Ascii.eqb_sym c1). destruct (Ascii.eqb Re.newline c1); [|reflexivity].
  destruct s as [|c2 s]; [reflexivity|].
  rewrite (Ascii.eqb_sym c2). destruct (Ascii.eqb backtick c2); [|reflexivity].
  destruct s as [|c3 s]; [reflexivity|].
  rewrite (Ascii.eqb_sym c3). destruct (Ascii.eqb backtick c3); [|reflexivity].
  destruct s as [|c4 s]; [reflexivity|].
  rewrite (Ascii.eqb_sym c4). destruct (Ascii.eqb backtick c4); [|reflexivity].
  discriminate.
Qed.

(** In fence-free text followed by a fence, no fence starts before the
    end of the text. *)
Lemma no_fence_inside (content tail : str) :
  fence_free content = true ->
  forall c1 c2 d, content = c1 ++ d :: c2 ->
    startswith [Re.newline; backtick; backtick; backtick]
      (d :: c2 ++ Re.newline :: backtick :: backtick :: backtick :: tail)
    = false.
Proof.
  unfold fence_free. intros H c1 c2 d ->.
  apply negb_true_iff in H.
  induction c1 as [|x c1 IH].
  - simpl in H. apply orb_false_iff in H as [H _].
    simpl in *.
    destruct (Ascii.eqb Re.newline d) eqn:E1; [|reflexivity]. simpl in *.
    destruct c2 as [|y1 c2]; simpl; [rewrite ?newline_not_backtick; reflexivity|].
    destruct (Ascii.eqb backtick y1) eqn:E2; [|reflexivity]. simpl in *.
    destruct c2 as [|y2 c2]; simpl; [rewrite ?newline_not_backtick; reflexivity|].
    destruct (Ascii.eqb backtick y2) eqn:E3; [|reflexivity]. simpl in *.
    destruct c2 as [|y3 c2]; simpl; [rewrite ?newline_not_backtick; reflexivity|].
    change backtick with "`"%char in *.
    rewrite E2, E3 in H. exact H.
  - apply IH. simpl in H. now apply orb_false_iff in H as [_ H].
Qed.
Lemma space_or_not_all (s : str) : forallb space_or_not s = true.
Proof.
  induction s as [|c s IH]; simpl; [reflexivity|].
  rewrite IH. unfold space_or_not. now rewrite orb_negb_r.
Qed.

(** The content group and the closing fence: the lazy repeat stops at the
    first fence, which is the one the encoder wrote when the content has
    none. *)
Lemma exec_content (k : Re.cont) (pv : option ascii) (content tail : str)
    (g : Re.groups) (a : Re.groups * Re.cursor) :
  fence_free content = true ->
  k (Re.Cursor (Some backtick) tail) (Re.set_group 3 content g) = Some a ->
  Re.exec
    (Re.seq [Re.Grp 3 (Re.Rep space_or_not false); Re.Chr Re.newline;
             Re.Chr backtick; Re.Chr backtick; Re.Chr backtick])
    k
    (Re.Cursor pv
       (content ++ Re.newline :: backtick :: backtick :: backtick :: tail))
    g
  = Some a.
Proof.
  intros Hfree Hk.
  set (s := content ++ Re.newline :: backtick :: backtick :: backtick :: tail).
  change (Re.rep_lazy space_or_not
            (fun cu' =>
               Re.exec
                 (Re.seq [Re.Chr Re.newline; Re.Chr backtick; Re.Chr backtick;
                          Re.Chr backtick])
                 k cu'
                 (Re.set_group 3
                    (firstn (length s - length (Re.rest cu')) s) g))
            pv s = Some a).
  subst s. apply rep_lazy_first.
  - apply space_or_not_all.
  - intros pv' c1 c2 d Hsplit. apply exec_fence_miss.
    now apply (no_fence_inside content tail Hfree c1 c2 d).
  - rewrite exec_fence_hit. simpl Re.rest.
    rewrite firstn_consumed. exact Hk.
Qed.

Lemma not_space_newline : not_space Re.newline = false.
Proof. reflexivity. Qed.

Lemma isword_newline : isword Re.newline = false.
Proof. reflexivity. Qed.

(** A greedy repeat gives the answer [a] or fails, when the rest of the
    pattern does so wherever the repeat can stop. *)
Lemma rep_greedy_cases (q : ascii -> bool) (k : Re.cursor -> Re.answer)
    (Q : str -> Prop) (a : Re.groups * Re.cursor) :
  (forall pv s, Q s -> k (Re.Cursor pv s) = Some a \/ k (Re.Cursor pv s) = None) ->
  (forall c s, Q (c :: s) -> q c = true -> Q s) ->
  forall s pv, Q s ->
    Re.rep_greedy q k pv s = Some a \/ Re.rep_greedy q k pv s = None.
Proof.
  intros Hk Hstep. induction s as [|c s IH]; intros pv HQ; simpl.
  - now apply Hk.
  - destruct (q c) eqn:Hc; [|now apply Hk].
    destruct (IH (Some c) (Hstep c s HQ Hc)) as [-> | ->]; [now left|].
    now apply Hk.
Qed.

Lemma exec_chr_hit (c : ascii) (k : Re.cont) (pv : option ascii) (s : str)
    (g : Re.groups) :
  Re.exec (Re.Chr c) k (Re.Cursor pv (c :: s)) g = k (Re.Cursor (Some c) s) g.
Proof. simpl. now rewrite Ascii.eqb_refl. Qed.

(** The language tag: whichever branch of [\w*|\S*] takes it, the match goes
    on after the newline that ends the fence line. *)
Lemma exec_language (rest : list Re.regex) (k : Re.cont) (pv : option ascii)
    (lang tail : str) (g : Re.groups) (a : Re.groups * Re.cursor) :
  forallb not_space lang = true ->
  Re.exec (Re.seq rest) k (Re.Cursor (Some Re.newline) tail)
    (Re.set_group 2 lang g) = Some a ->
  Re.exec
    (Re.seq
       (Re.Opt (Re.Cat
                  (Re.Grp 2 (Re.Alt (Re.Rep isword true)
                                    (Re.Rep not_space true)))
                  (Re.Chr Re.newline))
        :: rest))
    k (Re.Cursor pv (lang ++ Re.newline :: tail)) g
  = Some a.
Proof.
  intros Hlang Hk.
  set (s := lang ++ Re.newline :: tail).
  set (kk := fun cu' : Re.cursor =>
               Re.exec (Re.Chr Re.newline) (Re.exec (Re.seq rest) k) cu'
                 (Re.set_group 2
                    (firstn (length s - length (Re.rest cu')) s) g)).
  assert (Hend : forall pv', kk (Re.Cursor pv' (Re.newline :: tail)) = Some a).
  { intros pv'. unfold kk. rewrite exec_chr_hit. simpl Re.rest.
    subst s. rewrite (firstn_consumed lang (Re.newline :: tail)). exact Hk. }
  assert (Hword : Re.rep_greedy isword kk pv s = Some a
                  \/ Re.rep_greedy isword kk pv s = None).
  { apply (rep_greedy_cases isword kk
             (fun s' => exists l, forallb not_space l = true
                                  /\ s' = l ++ Re.newline :: tail)).
    - intros pv' s' (l & Hl & ->). destruct l as [|c l]; [left; apply Hend|].
      right. unfold kk. simpl in *.
      apply andb_true_iff in Hl as [Hc _].
      destruct (Ascii.eqb_spec c Re.newline) as [->|Hne]; [|reflexivity].
      discriminate.
    - intros c s' (l & Hl & Heq) Hc. destruct l as [|c' l].
      + simpl in Heq. injection Heq as -> _. discriminate.
      + simpl in Heq, Hl. injection Heq as -> ->.
        apply andb_true_iff in Hl as [_ Hl]. now exists l.
    - now exists lang. }
  assert (Hany : Re.rep_greedy not_space kk pv s = Some a).
  { subst s. apply rep_greedy_run; [assumption|reflexivity|apply Hend]. }
  change (match
             match Re.rep_greedy isword kk pv s with
             | Some x => Some x
             | None => Re.rep_greedy not_space kk pv s
             end
           with
           | Some x => Some x
           | None => Re.exec (Re.seq rest) k (Re.Cursor pv s) g
           end = Some a).
  destruct Hword as [-> | ->]; [reflexivity|]. now rewrite Hany.
Qed.

(** The end of the header line, the blank line and the opening fence. *)
Lemma exec_blank_line (rest : list Re.regex) (k : Re.cont) (pv : option ascii)
    (tail : str) (g : Re.groups) (a : Re.groups * Re.cursor) :
  Re.exec (Re.seq rest) k (Re.Cursor (Some backtick) tail) g = Some a ->
  Re.exec
    (Re.seq (Re.Rep isspace true :: Re.Eol :: Re.Plus is_newline
             :: Re.Chr backtick :: Re.Chr backtick :: Re.Chr backtick :: rest))
    k
    (Re.Cursor pv
       (Re.newline :: Re.newline :: backtick :: backtick :: backtick :: tail))
    g
  = Some a.
Proof.
  intros Hk. simpl. rewrite ?Ascii.eqb_refl. simpl. now rewrite Hk.
Qed.

Lemma not_backtick_backtick : not_backtick backtick = false.
Proof. reflexivity. Qed.

Lemma exec_cls_hit (q : ascii -> bool) (c : ascii) (k : Re.cont)
    (pv : option ascii) (s : str) (g : Re.groups) :
  q c = true ->
  Re.exec (Re.Cls q) k (Re.Cursor pv (c :: s)) g = k (Re.Cursor (Some c) s) g.
Proof. intros H. simpl. now rewrite H. Qed.

Lemma exec_seq_chr_hit (c : ascii) (rest : list Re.regex) (k : Re.cont)
    (pv : option ascii) (s : str) (g : Re.groups) :
  Re.exec (Re.seq (Re.Chr c :: rest)) k (Re.Cursor pv (c :: s)) g
  = Re.exec (Re.seq rest) k (Re.Cursor (Some c) s) g.
Proof. simpl. now rewrite Ascii.eqb_refl. Qed.

(** The quoted path. *)
Lemma exec_path (rest : list Re.regex) (k : Re.cont) (pv : option ascii)
    (p tail : str) (g : Re.groups) (a : Re.groups * Re.cursor) :
  p <> [] -> forallb not_backtick p = true ->
  Re.exec (Re.seq rest) k (Re.Cursor (Some "*"%char) tail)
    (Re.set_group 1 p g) = Some a ->
  Re.exec
    (Re.seq (Re.Grp 1 (Re.Plus not_backtick) :: Re.Chr backtick
             :: Re.Chr "*" :: Re.Chr "*" :: rest))
    k (Re.Cursor pv (p ++ backtick :: "*"%char :: "*"%char :: tail)) g
  = Some a.
Proof.
  intros Hne Hp Hk. destruct p as [|x p]; [contradiction|].
  simpl in Hp. apply andb_true_iff in Hp as [Hx Hp].
  remember ((x :: p) ++ backtick :: "*"%char :: "*"%char :: tail) as s eqn:Hs.
  change (Re.exec (Re.Cls not_backtick)
            (Re.exec (Re.Rep not_backtick true)
               (fun cu' g' =>
                  Re.exec
                    (Re.seq (Re.Chr backtick :: Re.Chr "*" :: Re.Chr "*" :: rest))
                    k cu'
                    (Re.set_group 1
                       (firstn (length s - length (Re.rest cu')) s) g')))
            (Re.Cursor pv s) g = Some a).
  replace (Re.Cursor pv s)
    with (Re.Cursor pv (x :: p ++ backtick :: "*"%char :: "*"%char :: tail))
    by now rewrite Hs.
  rewrite exec_cls_hit by assumption.
  change (Re.rep_greedy not_backtick
            (fun cu' =>
               Re.exec
                 (Re.seq (Re.Chr backtick :: Re.Chr "*" :: Re.Chr "*" :: rest))
                 k cu'
                 (Re.set_group 1
                    (firstn (length s - length (Re.rest cu')) s) g))
            (Some x) (p ++ backtick :: "*"%char :: "*"%char :: tail)
          = Some a).
  apply rep_greedy_run; [assumption|apply not_backtick_backtick|].
  simpl Re.rest. rewrite Hs, firstn_consumed.
  now rewrite !exec_seq_chr_hit.
Qed.

(** The start of the header line. *)
Lemma exec_header_start (rest : list Re.regex) (k : Re.cont)
    (pv : option ascii) (ws tail : str) (g : Re.groups)
    (a : Re.groups * Re.cursor) :
  line_start pv -> forallb isspace ws = true ->
  Re.exec (Re.seq rest) k (Re.Cursor (Some backtick) tail) g = Some a ->
  Re.exec
    (Re.seq (Re.Bol :: Re.Rep isspace true
             :: Re.Chr "#" :: Re.Chr "#" :: Re.Chr "#"
             :: Re.Rep isspace true
             :: Re.Chr "*" :: Re.Chr "*" :: Re.Chr backtick :: rest))
    k
    (Re.Cursor pv
       (ws ++ "#"%char :: "#"%char :: "#"%char :: " "%char :: "*"%char
           :: "*"%char :: backtick :: tail))
    g
  = Some a.
Proof.
  intros Hpv Hws Hk.
  assert (Hbol :
            Re.exec
              (Re.seq (Re.Bol :: Re.Rep isspace true
                       :: Re.Chr "#" :: Re.Chr "#" :: Re.Chr "#"
                       :: Re.Rep isspace true
                       :: Re.Chr "*" :: Re.Chr "*" :: Re.Chr backtick :: rest))
              k
              (Re.Cursor pv
                 (ws ++ "#"%char :: "#"%char :: "#"%char :: " "%char
                     :: "*"%char :: "*"%char :: backtick :: tail))
              g
            = Re.rep_greedy isspace
                (fun cu' =>
                   Re.exec
                     (Re.seq (Re.Chr "#" :: Re.Chr "#" :: Re.Chr "#"
                              :: Re.Rep isspace true
                              :: Re.Chr "*" :: Re.Chr "*" :: Re.Chr backtick
                              :: rest))
                     k cu' g)
                pv
                (ws ++ "#"%char :: "#"%char :: "#"%char :: " "%char
                    :: "*"%char :: "*"%char :: backtick :: tail)).
  { destruct Hpv as [-> | ->]; reflexivity. }
  rewrite Hbol. apply rep_greedy_run; [assumption|reflexivity|].
  simpl. rewrite ?Ascii.eqb_refl. simpl. now rewrite Hk.
Qed.
(** The match of an entry written by the encoder, from the start of a line,
    with blanks before it and any text after it. *)
Lemma match_entry (pv : option ascii) (ws p lang content tail : str) :
  line_start pv -> forallb isspace ws = true ->
  p <> [] -> forallb not_backtick p = true ->
  forallb not_space lang = true -> fence_free content = true ->
  Re.match_at pattern pv ((ws ++ entry_body p lang content) ++ tail)
  = Some (Re.Match (entry_groups p lang content)
            (length (ws ++ entry_body p lang content))).
Proof.
  intros Hpv Hws Hne Hp Hlang Hfree.
  unfold Re.match_at.
  assert (Hexec :
            Re.exec pattern (fun cu g => Some (g, cu))
              (Re.Cursor pv ((ws ++ entry_body p lang content) ++ tail))
              Re.no_groups
            = Some (entry_groups p lang content,
                    Re.Cursor (Some backtick) tail)).
  { unfold pattern, entry_body.
    rewrite <- app_assoc. simpl app.
    apply exec_header_start; [assumption|assumption|].
    rewrite <- app_assoc. simpl app.
    apply exec_path; [assumption|assumption|].
    rewrite <- app_assoc. simpl app.
    apply exec_blank_line.
    apply exec_language; [assumption|].
    rewrite <- app_assoc. simpl app.
    apply exec_content; [assumption|].
    reflexivity. }
  rewrite Hexec. simpl Re.rest.
  rewrite (length_app (ws ++ entry_body p lang content) tail).
  now replace (length (ws ++ entry_body p lang content) + length tail
               - length tail)
    with (length (ws ++ entry_body p lang content)) by lia.
Qed.

(** No match starts where no header can start. *)
Lemma match_at_no_header (pv : option ascii) (s : str) :
  no_header_ahead s -> Re.match_at pattern pv s = None.
Proof.
  intros H. unfold Re.match_at.
  assert (Hexec : Re.exec pattern (fun cu g => Some (g, cu))
                    (Re.Cursor pv s) Re.no_groups = None);
    [|now rewrite Hexec].
  unfold pattern.
  set (rest := Re.seq (skipn 2
                 [ Re.Bol; Re.Rep isspace true;
                   Re.Chr "#"; Re.Chr "#"; Re.Chr "#";
                   Re.Rep isspace true;
                   Re.Chr "*"; Re.Chr "*"; Re.Chr backtick;
                   Re.Grp 1 (Re.Plus not_backtick);
                   Re.Chr backtick; Re.Chr "*"; Re.Chr "*";
                   Re.Rep isspace true; Re.Eol;
                   Re.Plus is_newline;
                   Re.Chr backtick; Re.Chr backtick; Re.Chr backtick;
                   Re.Opt (Re.Cat
                             (Re.Grp 2 (Re.Alt (Re.Rep isword true)
                                               (Re.Rep not_space true)))
                             (Re.Chr Re.newline));
                   Re.Grp 3 (Re.Rep space_or_not false);
                   Re.Chr Re.newline;
                   Re.Chr backtick; Re.Chr backtick; Re.Chr backtick ])).
  assert (Hrep :
            Re.rep_greedy isspace
              (fun cu' => Re.exec rest (fun cu g => Some (g, cu)) cu'
                            Re.no_groups)
              pv s = None).
  { apply (rep_greedy_fails isspace _ no_header_ahead); [| |exact H].
    - intros pv' s' (ws & t & -> & Hws & Ht). subst rest.
      destruct ws as [|c ws]; simpl app.
      + destruct t as [|c t]; [reflexivity|]. destruct Ht as [_ Hc].
        simpl. destruct (Ascii.eqb_spec c "#"); [contradiction|reflexivity].
      + simpl in Hws. apply andb_true_iff in Hws as [Hc _].
        simpl. destruct (Ascii.eqb_spec c "#") as [->|]; [|reflexivity].
        discriminate.
    - intros c s' (ws & t & Heq & Hws & Ht) Hc. destruct ws as [|c' ws].
      + simpl in Heq. subst t. destruct Ht as [Hns _]. congruence.
      + simpl in Heq, Hws. injection Heq as -> ->.
        apply andb_true_iff in Hws as [_ Hws]. now exists ws, t. }
  destruct pv as [c|]; simpl.
  - destruct (Ascii.eqb c Re.newline); [exact Hrep|reflexivity].
  - exact Hrep.
Qed.

Lemma blank_no_header (ws : str) :
  forallb isspace ws = true -> no_header_ahead ws.
Proof. intros H. exists ws, []. now rewrite app_nil_r. Qed.

(** ** [finditer] on a bundle *)

Lemma finditer_skip (r : Re.regex) (a b : str) :
  forall pv,
    Re.finditer_from r (length a) pv (a ++ b)
    = Re.finditer_from r 0 (last_of pv a) b.
Proof.
  induction a as [|c a IH]; intros pv; [reflexivity|].
  simpl. apply IH.
Qed.

Lemma finditer_match (r : Re.regex) (pv : option ascii) (x b : str)
    (m : Re.mtch) :
  x <> [] ->
  Re.match_at r pv (x ++ b) = Some m -> Re.m_len m = length x ->
  Re.finditer_from r 0 pv (x ++ b)
  = m :: Re.finditer_from r 0 (last_of pv x) b.
Proof.
  intros Hx Hm Hlen. destruct x as [|c x]; [contradiction|].
  simpl app in *. simpl Re.finditer_from. rewrite Hm, Hlen.
  replace (length (c :: x) - 1) with (length x) by (simpl; lia).
  f_equal. apply finditer_skip.
Qed.

Lemma finditer_no_match (r : Re.regex) (pv : option ascii) (c : ascii)
    (s : str) :
  Re.match_at r pv (c :: s) = None ->
  Re.finditer_from r 0 pv (c :: s) = Re.finditer_from r 0 (Some c) s.
Proof. intros H. simpl. now rewrite H. Qed.

Lemma finditer_blank (ws : str) :
  forallb isspace ws = true ->
  forall pv, Re.finditer_from pattern 0 pv ws = [].
Proof.
  induction ws as [|c ws IH]; intros H pv.
  - simpl. now rewrite match_at_no_header by (now apply blank_no_header).
  - rewrite finditer_no_match
      by (now apply match_at_no_header, blank_no_header).
    simpl in H. apply andb_true_iff in H as [_ H]. now apply IH.
Qed.
Lemma entry_text_body (p l c : str) :
  entry_text p l c = entry_body p l c ++ [Re.newline; Re.newline].
Proof.
  unfold entry_text, entry_body, nl. simpl.
  repeat (rewrite <- ?app_assoc; simpl). reflexivity.
Qed.

Lemma bundle_text_cons (e : bundle_entry) (es : list bundle_entry) :
  bundle_text (e :: es)
  = entry_text (e_path e) (e_language e) (e_content e) ++ bundle_text es.
Proof. reflexivity. Qed.

Lemma entry_body_nonempty (ws p l c : str) : ws ++ entry_body p l c <> [].
Proof. destruct ws; discriminate. Qed.

Lemma match_at_mid_line (c : ascii) (s : str) :
  c <> Re.newline -> Re.match_at pattern (Some c) s = None.
Proof.
  intros H. unfold Re.match_at, pattern. simpl.
  destruct (Ascii.eqb_spec c Re.newline); [contradiction|reflexivity].
Qed.

(** The matches of a bundle of readable entries are its entries, in order:
    from the start of a line, with blanks before the first header. *)
Lemma finditer_bundle (es : list bundle_entry) :
  Forall readable es ->
  forall ws pv,
    line_start pv -> forallb isspace ws = true ->
    map caps (Re.finditer_from pattern 0 pv (ws ++ bundle_text es))
    = map (fun e => (e_path e, e_content e)) es.
Proof.
  induction 1 as [|e es (Hne & Hp & Hl & Hc) Hes IH]; intros ws pv Hpv Hws.
  - unfold bundle_text. simpl. rewrite app_nil_r.
    now rewrite finditer_blank.
  - rewrite bundle_text_cons, entry_text_body, <- app_assoc, app_assoc.
    rewrite (finditer_match pattern pv _ _ _ (entry_body_nonempty _ _ _ _)
               (match_entry pv ws _ _ _ _ Hpv Hws Hne Hp Hl Hc) eq_refl).
    rewrite !map_cons. f_equal.
    destruct (last_of pv (ws ++ entry_body (e_path e) (e_language e)
                                  (e_content e))) as [c|] eqn:Elast.
    + destruct (Ascii.eqb_spec c Re.newline) as [->|Hc'].
      * apply (IH [Re.newline; Re.newline]); [now right|reflexivity].
      * change ([Re.newline; Re.newline] ++ bundle_text es)
          with (Re.newline :: [Re.newline] ++ bundle_text es).
        rewrite finditer_no_match by (now apply match_at_mid_line).
        apply (IH [Re.newline]); [now right|reflexivity].
    + apply (IH [Re.newline; Re.newline]); [now left|reflexivity].
Qed.

(** The decoder reads only the first and the third group of a match. *)
Lemma slice_entry_caps (env : dec_env) (input_file output_folder : str)
    (st : dec_state) (m1 m2 : Re.mtch) :
  caps m1 = caps m2 ->
  slice_entry env input_file output_folder st m1
  = slice_entry env input_file output_folder st m2.
Proof.
  unfold caps. intros [= H1 H3]. unfold slice_entry. now rewrite H1, H3.
Qed.

Lemma fold_slice_entry_caps (env : dec_env) (input_file output_folder : str)
    (ms1 : list Re.mtch) :
  forall ms2 st,
    map caps ms1 = map caps ms2 ->
    fold_left (slice_entry env input_file output_folder) ms1 st
    = fold_left (slice_entry env input_file output_folder) ms2 st.
Proof.
  induction ms1 as [|m1 ms1 IH]; intros [|m2 ms2] st H;
    try discriminate; [reflexivity|].
  rewrite !map_cons in H.
  assert (Hm : caps m1 = caps m2) by congruence.
  assert (Hms : map caps ms1 = map caps ms2) by congruence.
  simpl. rewrite (slice_entry_caps env input_file output_folder st m1 m2 Hm).
  now apply IH.
Qed.

Lemma fold_entry_matches (env : dec_env) (input_file output_folder : str)
    (es : list bundle_entry) :
  (forall done p, io env done p = IoOk) ->
  Forall (fun e => plain_header (e_path e)) es ->
  forall st,
    ops (fold_left (slice_entry env input_file output_folder)
           (map entry_match es) st)
    = ops st ++ flat_map (expected_ops output_folder) es.
Proof.
  intros Hio. induction 1 as [|e es (_ & _ & Hnorm & Hsafe) Hes IH];
    intros st; simpl.
  - now rewrite app_nil_r.
  - rewrite IH. unfold slice_entry at 1.
    change (Re.group (entry_match e) 1) with (e_path e).
    change (Re.group (entry_match e) 3) with (e_content e).
    rewrite Hnorm, Hsafe, Hio. simpl ops.
    now rewrite <- app_assoc.
Qed.

(** Scanning a bundle of entries that are readable and have plain paths
    writes each of them. *)
Lemma scan_bundle (env : dec_env) (input_file output_folder : str)
    (es : list bundle_entry) (ws : str) (st : dec_state) :
  (forall done p, io env done p = IoOk) ->
  Forall readable es ->
  Forall (fun e => plain_header (e_path e)) es ->
  forallb isspace ws = true ->
  ops (scan_entries env input_file output_folder (ws ++ bundle_text es) st)
  = ops st ++ flat_map (expected_ops output_folder) es.
Proof.
  intros Hio Hread Hplain Hws. unfold scan_entries, Re.finditer.
  pose proof (finditer_bundle es Hread ws None (or_introl eq_refl) Hws) as Hm.
  assert (Hmap : map caps (Re.finditer_from pattern 0 None
                             (ws ++ bundle_text es))
                 = map caps (map entry_match es)).
  { rewrite Hm, map_map. reflexivity. }
  rewrite (fold_slice_entry_caps env input_file output_folder _ _ st Hmap).
  destruct (Re.finditer_from pattern 0 None (ws ++ bundle_text es));
    simpl ops; now apply fold_entry_matches.
Qed.
(** ** Searching a text that goes on *)

Lemma startswith_length (p a : str) :
  startswith p a = true -> length p <= length a.
Proof.
  revert a; induction p as [|x p IH]; intros [|y a] H; simpl in *;
    try discriminate; try lia.
  apply andb_true_iff in H as [_ H]. apply IH in H. lia.
Qed.

Lemma startswith_app_short (p a b : str) :
  length p <= length a -> startswith p (a ++ b) = startswith p a.
Proof.
  revert a; induction p as [|x p IH]; intros [|y a] H; simpl in *;
    try reflexivity; try lia.
  rewrite IH by lia. reflexivity.
Qed.

Lemma startswith_app (p a b : str) :
  startswith p a = true -> startswith p (a ++ b) = true.
Proof.
  intros H. rewrite startswith_app_short; [assumption|].
  now apply startswith_length.
Qed.

Lemma find_bound (p : str) :
  forall a i, find p a = Some i -> i + length p <= length a.
Proof.
  induction a as [|x a IH]; intros i H; simpl in H.
  - destruct (startswith p []) eqn:E; [|discriminate].
    injection H as <-. now apply startswith_length in E.
  - destruct (startswith p (x :: a)) eqn:E.
    + injection H as <-. now apply startswith_length in E.
    + destruct (find p a) as [j|] eqn:Ej; [|discriminate].
      injection H as <-. specialize (IH j eq_refl). simpl. lia.
Qed.

Lemma find_app (p b : str) :
  forall a i, find p a = Some i -> find p (a ++ b) = Some i.
Proof.
  induction a as [|x a IH]; intros i H.
  - simpl in H. destruct (startswith p []) eqn:E; [|discriminate].
    injection H as <-. destruct p; [|discriminate]. now destruct b.
  - pose proof (find_bound p (x :: a) i H) as Hb.
    simpl in H. simpl app. simpl find.
    destruct (startswith p (x :: a)) eqn:E.
    + change (x :: a ++ b) with ((x :: a) ++ b).
      now rewrite startswith_app.
    + destruct (find p a) as [j|] eqn:Ej; [|discriminate].
      injection H as <-.
      change (x :: a ++ b) with ((x :: a) ++ b).
      rewrite startswith_app_short, E by (simpl in *; lia).
      now rewrite (IH j eq_refl).
Qed.

Lemma find_from_app (p a b : str) (start i : nat) :
  find_from p a start = Some i -> find_from p (a ++ b) start = Some i.
Proof.
  unfold find_from. intros H.
  destruct (Nat.ltb_spec (length a) start) as [Hlt|Hge]; [discriminate|].
  destruct (Nat.ltb_spec (length (a ++ b)) start) as [Hlt'|_].
  - rewrite length_app in Hlt'. lia.
  - rewrite skipn_app.
    destruct (find p (skipn start a)) as [j|] eqn:Ej; [|discriminate].
    now rewrite (find_app p _ _ j Ej).
Qed.

Lemma lstrip_app (a b : str) :
  lstrip a <> [] -> lstrip (a ++ b) = lstrip a ++ b.
Proof.
  induction a as [|c a IH]; intros H; simpl in *; [contradiction|].
  destruct (isspace c); [now apply IH|reflexivity].
Qed.

(** ** The instruction prompt *)

Lemma prompt_starts_with_marker (rest : str) :
  startswith prompt_marker (lstrip (AI_INSTRUCTION_PROMPT ++ rest)) = true.
Proof.
  rewrite lstrip_app by (vm_compute; discriminate).
  apply startswith_app. vm_compute. reflexivity.
Qed.

Lemma skip_prompt_drops_it (rest : str) :
  skip_prompt (AI_INSTRUCTION_PROMPT ++ rest)
  = (nl ++ nl ++ rest, Skipped_prompt).
Proof.
  unfold skip_prompt.
  rewrite (find_app prompt_marker rest AI_INSTRUCTION_PROMPT 1)
    by (vm_compute; reflexivity).
  rewrite (find_from_app (nl ++ nl) AI_INSTRUCTION_PROMPT rest 1 699)
    by (vm_compute; reflexivity).
  rewrite skipn_app.
  replace (skipn (699 + 2) AI_INSTRUCTION_PROMPT) with (nl ++ nl)
    by (vm_compute; reflexivity).
  replace (699 + 2 - length AI_INSTRUCTION_PROMPT) with 0
    by (vm_compute; reflexivity).
  now rewrite <- app_assoc.
Qed.

Lemma slice_content_prompt (env : dec_env) (input_file output_folder : str)
    (rest : str) (st : dec_state) :
  slice_content env input_file output_folder (AI_INSTRUCTION_PROMPT ++ rest) st
  = scan_entries env input_file output_folder (nl ++ nl ++ rest)
      (dec_print [Skipped_prompt] st).
Proof.
  unfold slice_content.
  now rewrite prompt_starts_with_marker, skip_prompt_drops_it.
Qed.

Lemma prompt_lines_are_quoted (line : str) :
  In line (split_on Re.newline AI_INSTRUCTION_PROMPT) -> line <> [] ->
  exists quoted, line = ">"%char :: quoted.
Proof.
  intros Hin Hne. vm_compute in Hin.
  repeat (destruct Hin as [Hin|Hin];
          [subst line; try contradiction; eexists; reflexivity|]).
  contradiction.
Qed.

(** C9: a bundle that begins with the instruction prompt is scanned from
    the blank line that ends the prompt on: what is decoded is what the
    text after the prompt holds.  And wherever a line of the prompt stands
    (when the end of the prompt was not found and the whole text is
    scanned), no match starts at it, nor at blanks before it: it is not
    read as the header of an entry. *)
Theorem prompt_is_skipped :
  (forall env input_file output_folder rest st,
      slice_content env input_file output_folder
        (AI_INSTRUCTION_PROMPT ++ rest) st
      = scan_entries env input_file output_folder (nl ++ nl ++ rest)
          (dec_print [Skipped_prompt] st))
  /\ (forall line,
         In line (split_on Re.newline AI_INSTRUCTION_PROMPT) -> line <> [] ->
         forall pv ws tail,
           forallb isspace ws = true ->
           Re.match_at pattern pv (ws ++ line ++ tail) = None).
Proof.
  split.
  - intros. apply slice_content_prompt.
  - intros line Hin Hne pv ws tail Hws.
    destruct (prompt_lines_are_quoted line Hin Hne) as [quoted ->].
    apply match_at_no_header.
    exists ws, ((">"%char :: quoted) ++ tail).
    repeat split; [assumption|discriminate].
Qed.
Lemma quoted_line_in_prompt :
  In (">" : str) (split_on Re.newline AI_INSTRUCTION_PROMPT).
Proof. vm_compute. do 3 right. left. reflexivity. Qed.

Lemma prompt_is_skipped_witness :
  Re.match_at pattern None
    (nl ++ (">" : str) ++ entry_text "x.txt" "text" "one")
  = None.
Proof.
  assert (Hne : (">" : str) <> []) by discriminate.
  exact (proj2 prompt_is_skipped ">" quoted_line_in_prompt Hne None nl
           (entry_text "x.txt" "text" "one") eq_refl).
Defined.

(** ** The order of names *)

Lemma code_inj (x y : ascii) : code x = code y -> x = y.
Proof.
  unfold code. intros H.
  rewrite <- (ascii_nat_embedding x), <- (ascii_nat_embedding y).
  now rewrite H.
Qed.

Lemma str_leb_total (a : str) :
  forall b, str_leb a b = false -> str_leb b a = true.
Proof.
  induction a as [|x a IH]; intros [|y b] H; simpl in *;
    try discriminate; try reflexivity.
  destruct (Nat.ltb_spec (code x) (code y)); [discriminate|].
  destruct (Nat.ltb_spec (code y) (code x)); [reflexivity|].
  now apply IH.
Qed.

Lemma str_leb_antisym (a : str) :
  forall b, str_leb a b = true -> str_leb b a = true -> a = b.
Proof.
  induction a as [|x a IH]; intros [|y b] H1 H2; simpl in *;
    try discriminate; try reflexivity.
  destruct (Nat.ltb_spec (code x) (code y));
    destruct (Nat.ltb_spec (code y) (code x));
    try discriminate; try lia.
  f_equal; [apply code_inj; lia|now apply IH].
Qed.

Lemma str_leb_trans (a : str) :
  forall b c, str_leb a b = true -> str_leb b c = true -> str_leb a c = true.
Proof.
  induction a as [|x a IH]; intros [|y b] [|z c] H1 H2; simpl in *;
    try discriminate; try reflexivity.
  destruct (Nat.ltb_spec (code x) (code y));
    destruct (Nat.ltb_spec (code y) (code x));
    destruct (Nat.ltb_spec (code y) (code z));
    destruct (Nat.ltb_spec (code z) (code y));
    destruct (Nat.ltb_spec (code x) (code z));
    destruct (Nat.ltb_spec (code z) (code x));
    try discriminate; try reflexivity; try lia.
  now apply (IH b c).
Qed.

(** Two insertions of distinct names commute. *)
Lemma insert_by_name_comm {A : Type} (x y : str * A) :
  fst x <> fst y ->
  forall l,
    insert_by_name x (insert_by_name y l)
    = insert_by_name y (insert_by_name x l).
Proof.
  intros Hne.
  assert (Hcases : (str_leb (fst x) (fst y) = true
                    /\ str_leb (fst y) (fst x) = false)
                   \/ (str_leb (fst y) (fst x) = true
                       /\ str_leb (fst x) (fst y) = false)).
  { destruct (str_leb (fst x) (fst y)) eqn:Exy;
      destruct (str_leb (fst y) (fst x)) eqn:Eyx; auto.
    - exfalso. apply Hne. now apply str_leb_antisym.
    - apply str_leb_total in Exy. congruence. }
  induction l as [|h l IH]; simpl.
  - destruct Hcases as [[-> ->]|[-> ->]]; reflexivity.
  - destruct (str_leb (fst y) (fst h)) eqn:Eyh;
      destruct (str_leb (fst x) (fst h)) eqn:Exh; simpl;
      rewrite ?Eyh, ?Exh.
    + destruct Hcases as [[-> ->]|[-> ->]]; reflexivity.
    + destruct Hcases as [[Hxy Hyx]|[Hyx Hxy]]; rewrite Hxy, ?Hyx.
      * rewrite (str_leb_trans _ _ _ Hxy Eyh) in Exh. discriminate.
      * reflexivity.
    + destruct Hcases as [[Hxy Hyx]|[Hyx Hxy]]; rewrite Hyx, ?Hxy.
      * reflexivity.
      * rewrite (str_leb_trans _ _ _ Hyx Exh) in Eyh. discriminate.
    + now rewrite IH.
Qed.

(** Sorting does not depend on the order in which distinct names come. *)
Lemma sorted_perm {A : Type} (l l' : list (str * A)) :
  Permutation l l' -> NoDup (map fst l) -> sorted l = sorted l'.
Proof.
  induction 1 as [|x l l' Hp IH|x y l|l l' l'' Hp1 IH1 Hp2 IH2];
    intros Hnd; simpl.
  - reflexivity.
  - inversion Hnd; subst. now rewrite IH.
  - apply insert_by_name_comm.
    inversion Hnd as [|? ? Hin _]; subst. intros Heq. apply Hin. now left.
  - rewrite IH1 by assumption. apply IH2.
    apply (Permutation_NoDup (Permutation_map fst Hp1) Hnd).
Qed.

Lemma insert_same_items (e e' : str * (str -> enc_state -> enc_state))
    (l l' : list (str * (str -> enc_state -> enc_state))) :
  same_items e e' -> Forall2 same_items l l' ->
  Forall2 same_items (insert_by_name e l) (insert_by_name e' l').
Proof.
  intros He. induction 1 as [|h h' l l' Hh Hl IH]; simpl.
  - constructor; [assumption|constructor].
  - pose proof He as [Hname _]. pose proof Hh as [Hhname _].
    rewrite <- Hname, <- Hhname.
    destruct (str_leb (fst e) (fst h)).
    + constructor; [assumption|]. now constructor.
    + constructor; [assumption|]. apply IH.
Qed.

Lemma sorted_same_items (l l' : list (str * (str -> enc_state -> enc_state))) :
  Forall2 same_items l l' -> Forall2 same_items (sorted l) (sorted l').
Proof.
  induction 1 as [|h h' l l' Hh Hl IH]; simpl; [constructor|].
  now apply insert_same_items.
Qed.

Lemma visit_children_same (current_path : str)
    (l l' : list (str * (str -> enc_state -> enc_state))) :
  Forall2 same_items l l' ->
  forall st, visit_children current_path l st = visit_children current_path l' st.
Proof.
  intros H. unfold visit_children.
  apply sorted_same_items in H.
  induction H as [|h h' s s' [Hname Hact] Hs IH]; intros st; simpl;
    [reflexivity|].
  rewrite Hname, Hact. apply IH.
Qed.
(** ** Two runs over the same tree *)

Lemma node_ind_deep (P : node -> Prop) :
  (forall f, P (File f)) -> P Other -> P (Dir None) ->
  (forall l, Forall (fun e => P (snd e)) l -> P (Dir (Some l))) ->
  forall n, P n.
Proof.
  intros Hfile Hother Hnone Hdir.
  fix IH 1. intros [f|[l|]|]; [apply Hfile| |apply Hnone|apply Hother].
  apply Hdir. induction l as [|[name child] l IHl]; constructor.
  - apply IH.
  - exact IHl.
Qed.

Lemma traverse_dir (cfg : config) (listing : option (list (str * node)))
    (current_path : str) (st : enc_state) :
  traverse_and_concatenate cfg (Dir listing) current_path st
  = visit cfg
      (At_dir
         (option_map
            (map (fun e => (fst e, traverse_and_concatenate cfg (snd e))))
            listing))
      current_path st.
Proof.
  simpl. do 2 f_equal. destruct listing as [l|]; [|reflexivity].
  simpl. f_equal. induction l as [|[name child] l IH]; [reflexivity|].
  simpl. now rewrite IH.
Qed.

Lemma shuffle_dir (pi : list (str * node) -> list (str * node))
    (l : list (str * node)) :
  shuffle pi (Dir (Some l))
  = Dir (Some (pi (map (fun e => (fst e, shuffle pi (snd e))) l))).
Proof.
  simpl. do 3 f_equal. induction l as [|[name child] l IH]; [reflexivity|].
  simpl. now rewrite IH.
Qed.

Lemma distinct_names_dir (l : list (str * node)) :
  distinct_names (Dir (Some l))
  -> NoDup (map fst l) /\ Forall (fun e => distinct_names (snd e)) l.
Proof.
  simpl. intros [Hnd Hall]. split; [exact Hnd|].
  clear Hnd. induction l as [|[name child] l IH]; constructor.
  - now destruct Hall.
  - apply IH. now destruct Hall.
Qed.

Lemma existsb_same_set {A : Type} (f : A -> bool) (l1 l2 : list A) :
  (forall x, In x l1 <-> In x l2) -> existsb f l1 = existsb f l2.
Proof.
  intros H. destruct (existsb f l1) eqn:E1; destruct (existsb f l2) eqn:E2;
    try reflexivity.
  - apply existsb_exists in E1 as (x & Hx & Hf).
    assert (existsb f l2 = true)
      by (apply existsb_exists; exists x; split; [now apply H|assumption]).
    congruence.
  - apply existsb_exists in E2 as (x & Hx & Hf).
    assert (existsb f l1 = true)
      by (apply existsb_exists; exists x; split; [now apply H|assumption]).
    congruence.
Qed.

Lemma should_exclude_same_set (item_path : str) (l1 l2 : list str)
    (is_dir : bool) :
  (forall x, In x l1 <-> In x l2) ->
  should_exclude item_path l1 is_dir = should_exclude item_path l2 is_dir.
Proof. intros H. unfold should_exclude. now apply existsb_same_set. Qed.

(** [visit] does the same under two configurations that agree, on two
    views that list children doing the same. *)
Lemma visit_same (c1 c2 : config)
    (v1 v2 : view (str -> enc_state -> enc_state)) (current_path : str)
    (st : enc_state) :
  same_config c1 c2 ->
  match v1, v2 with
  | At_dir (Some l1), At_dir (Some l2) =>
      forall st, visit_children current_path l1 st
                 = visit_children current_path l2 st
  | At_dir None, At_dir None => True
  | At_file f1, At_file f2 => f1 = f2
  | At_other, At_other => True
  | _, _ => False
  end ->
  visit c1 v1 current_path st = visit c2 v2 current_path st.
Proof.
  intros (Hcwd & Hbase & Hinc & Hexc) Hv. unfold visit, display_path.
  rewrite Hcwd, Hbase, Hinc.
  assert (Hdir : view_is_dir v1 = view_is_dir v2).
  { destruct v1 as [[l1|]|f1|], v2 as [[l2|]|f2|]; simpl in *;
      try contradiction; reflexivity. }
  rewrite Hdir.
  rewrite (should_exclude_same_set current_path _ _ (view_is_dir v2) Hexc).
  destruct (should_exclude current_path (exclusions c2) (view_is_dir v2));
    [reflexivity|].
  destruct v1 as [[l1|]|f1|], v2 as [[l2|]|f2|]; simpl in *;
    try contradiction; try reflexivity.
  - destruct (match includes c2 with [] => false | _ :: _ => true end
              && negb (should_include current_path (includes c2) true));
      apply Hv.
  - now subst f2.
Qed.

Lemma traverse_shuffled (pi : list (str * node) -> list (str * node)) :
  (forall l, Permutation (pi l) l) ->
  forall n,
    distinct_names n ->
    forall c1 c2 current_path st,
      same_config c1 c2 ->
      traverse_and_concatenate c1 (shuffle pi n) current_path st
      = traverse_and_concatenate c2 n current_path st.
Proof.
  intros Hpi. induction n as [f| | |l IH] using node_ind_deep;
    intros Hdn c1 c2 current_path st Hcfg.
  - simpl. now apply visit_same.
  - simpl. now apply visit_same.
  - simpl. now apply visit_same.
  - apply distinct_names_dir in Hdn as [Hnd Hall].
    rewrite shuffle_dir, !traverse_dir. apply visit_same; [assumption|].
    simpl. intros st'. unfold visit_children.
    set (shuffled := map (fun e => (fst e, shuffle pi (snd e))) l).
    assert (Hperm :
              Permutation
                (map (fun e => (fst e, traverse_and_concatenate c1 (snd e)))
                   (pi shuffled))
                (map (fun e => (fst e, traverse_and_concatenate c1 (snd e)))
                   shuffled))
      by apply Permutation_map, Hpi.
    assert (Hkeys :
              NoDup (map fst
                       (map (fun e =>
                               (fst e, traverse_and_concatenate c1 (snd e)))
                          (pi shuffled)))).
    { apply (Permutation_NoDup
               (l := map fst
                       (map (fun e =>
                               (fst e, traverse_and_concatenate c1 (snd e)))
                          shuffled))).
      - apply Permutation_map, Permutation_sym, Hperm.
      - unfold shuffled. rewrite !map_map. simpl. exact Hnd. }
    rewrite (sorted_perm _ _ Hperm Hkeys).
    apply (visit_children_same current_path). unfold shuffled.
    rewrite map_map. simpl.
    clear Hnd Hperm Hkeys shuffled.
    induction l as [|[name child] l IHl]; simpl; [constructor|].
    inversion IH as [|? ? Hchild IH']; subst.
    inversion Hall as [|? ? Hdchild Hall']; subst.
    constructor.
    + split; [reflexivity|]. intros p st0. simpl in *.
      now apply Hchild.
    + now apply IHl.
Qed.

Lemma isfile_shuffle (pi : list (str * node) -> list (str * node))
    (n : node) :
  isfile (shuffle pi n) = isfile n.
Proof. destruct n as [f|[l|]|]; reflexivity. Qed.

Lemma concatenate_path_rerun (env : enc_env) (order : list str -> list str)
    (pi : list (str * node) -> list (str * node))
    (eff1 eff2 includes : list str) (acc : enc_state * list str)
    (path_arg : str) :
  (forall l, Permutation (pi l) l) ->
  (forall p n, lookup env p = Some n -> distinct_names n) ->
  (forall x, In x eff1 <-> In x eff2) ->
  concatenate_path (rerun env order pi) eff1 includes acc path_arg
  = concatenate_path env eff2 includes acc path_arg.
Proof.
  intros Hpi Hdn Heff. unfold concatenate_path. destruct acc as [st nf].
  simpl lookup.
  destruct (lookup env path_arg) as [n0|]; simpl; [|reflexivity].
  destruct (lookup env (Path.normpath path_arg)) as [n|] eqn:En; simpl.
  - rewrite isfile_shuffle. f_equal.
    apply traverse_shuffled; [assumption|now apply (Hdn _ _ En)|].
    repeat split; try reflexivity; apply Heff.
  - f_equal. apply visit_same; [|exact I].
    repeat split; try reflexivity; apply Heff.
Qed.

Lemma fold_left_same {A B : Type} (f g : A -> B -> A) (l : list B) :
  (forall a b, f a b = g a b) ->
  forall a, fold_left f l a = fold_left g l a.
Proof.
  intros H. induction l as [|b l IH]; intros a; simpl; [reflexivity|].
  now rewrite H, IH.
Qed.

(** C5: the outcome of a run (the text of the bundle, the sets of paths and
    what is printed) depends neither on the order in which directories
    list their entries nor on the order in which the set of exclusions is
    iterated: a second run over the same filesystem and configuration,
    with other such orders, has the same outcome. *)
Theorem encoding_is_deterministic :
  forall env order pi output_name paths force exclusions includes add_prompt,
    lists_the_set (set_order env) -> lists_the_set order ->
    (forall l, Permutation (pi l) l) ->
    (forall p n, lookup env p = Some n -> distinct_names n) ->
    concatenate_files_and_folders (rerun env order pi) output_name paths
      force exclusions includes add_prompt
    = concatenate_files_and_folders env output_name paths force exclusions
        includes add_prompt.
Proof.
  intros env order pi output_name paths force exclusions includes add_prompt
    Hset1 Hset2 Hpi Hdn.
  unfold concatenate_files_and_folders. simpl output_exists.
  simpl output_opens. simpl set_order.
  destruct (output_exists env && negb force); [reflexivity|].
  destruct (output_opens env); simpl; [|reflexivity].
  rewrite (fold_left_same
             (concatenate_path (rerun env order pi)
                (order (exclusions ++ default_venv_patterns)) includes)
             (concatenate_path env
                (set_order env (exclusions ++ default_venv_patterns))
                includes)).
  - reflexivity.
  - intros acc path_arg. apply concatenate_path_rerun; try assumption.
    intros x. rewrite (Hset1 _ x), (Hset2 _ x). reflexivity.
Qed.

Lemma two_files_distinct :
  forall p n, lookup two_files_env p = Some n -> distinct_names n.
Proof.
  intros p n H. unfold two_files_env in H. cbn [lookup] in H.
  destruct (str_eqb p "a"); [|discriminate H].
  injection H as <-. simpl. repeat split.
  constructor; [intros [H|[]]; discriminate|].
  constructor; [intros []|constructor].
Qed.

Lemma rev_lists_the_set : lists_the_set (@rev str).
Proof. intros l x. symmetry. apply in_rev. Qed.

Lemma encoding_is_deterministic_witness :
  concatenate_files_and_folders
    (rerun two_files_env (@rev str) (@rev (str * node)))
    "out.md" ["a" : str] false ["*.log" : str] [] false
  = concatenate_files_and_folders two_files_env "out.md" ["a" : str] false
      ["*.log" : str] [] false.
Proof.
  exact (encoding_is_deterministic two_files_env (@rev str)
           (@rev (str * node)) "out.md" ["a" : str] false ["*.log" : str] []
           false (fun l x => iff_refl _) rev_lists_the_set
           (fun l => Permutation_sym (Permutation_rev l))
           two_files_distinct).
Defined.
(** ** Sets of paths and sorted listings *)

Lemma in_set_add (p x : str) (l : list str) :
  In p (set_add x l) -> p = x \/ In p l.
Proof.
  unfold set_add. destruct (mem x l); [now right|].
  rewrite in_app_iff. simpl. intuition.
Qed.

Lemma processed_write_file (cwd file_path base_folder : str) (f : file)
    (st : enc_state) :
  processed_files (write_file_to_output cwd file_path base_folder f st)
  = processed_files st.
Proof.
  unfold write_file_to_output.
  destruct (read_with file_path f encodings_to_try) as [[content|] evs];
    reflexivity.
Qed.

Lemma insert_by_name_perm {A : Type} (e : str * A) (l : list (str * A)) :
  Permutation (insert_by_name e l) (e :: l).
Proof.
  induction l as [|h l IH]; simpl; [reflexivity|].
  destruct (str_leb (fst e) (fst h)); [reflexivity|].
  rewrite IH. apply perm_swap.
Qed.

Lemma sorted_permutation {A : Type} (l : list (str * A)) :
  Permutation (sorted l) l.
Proof.
  induction l as [|h l IH]; simpl; [reflexivity|].
  rewrite insert_by_name_perm. now constructor.
Qed.

Lemma not_excluded_not_default (cfg : config) (current_path : str)
    (is_dir : bool) :
  (forall d, In d default_venv_patterns -> In d (exclusions cfg)) ->
  should_exclude current_path (exclusions cfg) is_dir = false ->
  ~ In (Path.basename current_path) default_venv_patterns.
Proof.
  intros Hdef Hex Hin.
  assert (Htrue : should_exclude current_path (exclusions cfg) is_dir = true);
    [|congruence].
  unfold should_exclude. apply existsb_exists.
  exists (Path.basename current_path). split; [now apply Hdef|].
  rewrite (default_pattern_matches_itself _ Hin). now rewrite orb_true_r.
Qed.

Lemma plain_env_lists_the_set : lists_the_set (set_order plain_env).
Proof. intros l x. simpl. tauto. Qed.

(** ** The entries of a bundle *)

Lemma write_files_sink (cwd : str) (files : list source_file) :
  forall st,
    sink (write_files cwd files st)
    = sink st ++ bundle_text (flat_map (entry_of cwd) files).
Proof.
  unfold write_files.
  induction files as [|sf files IH]; intros st; simpl.
  - now rewrite app_nil_r.
  - rewrite IH, write_file_sink. unfold entry_of, bundle_text.
    destruct (decoded_text (src_file sf)); simpl.
    + now rewrite <- app_assoc.
    + now rewrite app_nil_r.
Qed.

Lemma dict_get_value (P : str -> Prop) (d : list (str * str))
    (key default : str) :
  Forall (fun kv => P (snd kv)) d -> P default -> P (dict_get d key default).
Proof.
  intros Hd Hdef. induction Hd as [|[k v] d Hv Hd IH]; simpl; [assumption|].
  destruct (str_eqb k key); assumption.
Qed.

Lemma language_has_no_space (file_path : str) :
  forallb not_space (language_of file_path) = true.
Proof.
  unfold language_of. apply dict_get_value; [|reflexivity].
  unfold CODE_FENCE_LOOKUP. repeat constructor.
Qed.

(** A text without carriage return is read back as it is. *)
Lemma universal_newlines_cr_free (s : str) :
  cr_free s = true -> universal_newlines s = s.
Proof.
  unfold cr_free. induction s as [|c s IH]; intros H; [reflexivity|].
  cbn [forallb] in H. apply andb_true_iff in H as [Hc H].
  apply negb_true_iff in Hc. cbn [universal_newlines]. rewrite Hc.
  now rewrite IH.
Qed.

Lemma cr_free_app (a b : str) :
  cr_free (a ++ b) = cr_free a && cr_free b.
Proof. apply forallb_app. Qed.

Lemma not_space_cr_free (s : str) :
  forallb not_space s = true -> cr_free s = true.
Proof.
  unfold cr_free. induction s as [|c s IH]; intros H; [reflexivity|].
  cbn [forallb] in *. apply andb_true_iff in H as [Hc H].
  rewrite (IH H), andb_true_r.
  destruct (Ascii.eqb_spec c cr) as [->|_]; [discriminate|reflexivity].
Qed.

Lemma cr_free_entry_text (rel_path language content : str) :
  cr_free rel_path = true -> cr_free language = true ->
  cr_free content = true ->
  cr_free (entry_text rel_path language content) = true.
Proof.
  intros Hp Hl Hc. unfold entry_text.
  rewrite !cr_free_app, Hp, Hl, Hc. reflexivity.
Qed.

(** A bundle whose paths and texts hold no carriage return is read back as
    it was written, with or without the prompt before it. *)
Lemma bundle_read_back (add_prompt : bool) (es : list bundle_entry) :
  Forall (fun e => cr_free (e_path e) = true
                   /\ forallb not_space (e_language e) = true
                   /\ cr_free (e_content e) = true) es ->
  universal_newlines
    ((if add_prompt then AI_INSTRUCTION_PROMPT else []) ++ bundle_text es)
  = (if add_prompt then AI_INSTRUCTION_PROMPT else []) ++ bundle_text es.
Proof.
  intros H. apply universal_newlines_cr_free. rewrite cr_free_app.
  assert (Hes : cr_free (bundle_text es) = true).
  { induction H as [|e es (Hp & Hl & Hc) _ IH]; [reflexivity|].
    rewrite bundle_text_cons, cr_free_app, IH, andb_true_r.
    apply cr_free_entry_text; trivial. now apply not_space_cr_free. }
  rewrite Hes. now destruct add_prompt.
Qed.

Lemma round_trips_entries (cwd : str) (files : list source_file) :
  Forall (round_trips cwd) files ->
  Forall readable (flat_map (entry_of cwd) files)
  /\ Forall (fun e => plain_header (e_path e)) (flat_map (entry_of cwd) files)
  /\ Forall (fun e => cr_free (e_path e) = true
                      /\ forallb not_space (e_language e) = true
                      /\ cr_free (e_content e) = true)
       (flat_map (entry_of cwd) files).
Proof.
  induction 1 as [|sf files (content & Hdec & Hfree & Hcr & Hplain & Hpcr)
                    Hfiles (IH1 & IH2 & IH3)];
    simpl; [repeat split; constructor|].
  unfold entry_of at 1 3 5. rewrite Hdec. simpl.
  repeat split; constructor; try assumption.
  - destruct Hplain as (Hne & Hbt & _ & _).
    repeat split; simpl; try assumption.
    apply language_has_no_space.
  - repeat split; simpl; try assumption. apply language_has_no_space.
Qed.

Lemma bundle_has_no_prompt (es : list bundle_entry) :
  startswith prompt_marker (lstrip (bundle_text es)) = false.
Proof. destruct es as [|e es]; reflexivity. Qed.

(** ** The traversal writes the files it selects *)

Lemma bundle_text_app (es es' : list bundle_entry) :
  bundle_text (es ++ es') = bundle_text es ++ bundle_text es'.
Proof. unfold bundle_text. now rewrite map_app, concat_app. Qed.

Lemma insert_related {A B : Type} (R : str * A -> str * B -> Prop)
    (e : str * A) (e' : str * B) (l : list (str * A)) (l' : list (str * B)) :
  (forall a b, R a b -> fst a = fst b) ->
  R e e' -> Forall2 R l l' ->
  Forall2 R (insert_by_name e l) (insert_by_name e' l').
Proof.
  intros Hkey He. induction 1 as [|h h' l l' Hh Hl IH]; simpl.
  - constructor; [assumption|constructor].
  - rewrite <- (Hkey _ _ He), <- (Hkey _ _ Hh).
    destruct (str_leb (fst e) (fst h)).
    + constructor; [assumption|]. now constructor.
    + constructor; [assumption|]. apply IH.
Qed.

Lemma sorted_related {A B : Type} (R : str * A -> str * B -> Prop)
    (l : list (str * A)) (l' : list (str * B)) :
  (forall a b, R a b -> fst a = fst b) ->
  Forall2 R l l' -> Forall2 R (sorted l) (sorted l').
Proof.
  intros Hkey. induction 1 as [|h h' l l' Hh Hl IH]; simpl; [constructor|].
  now apply insert_related.
Qed.

Lemma visit_children_selects (cwd current_path : str)
    (items : list (str * (str -> enc_state -> enc_state)))
    (sel : list (str * (str -> list source_file))) :
  Forall2 (writes_selection cwd) items sel ->
  forall st,
    sink (visit_children current_path items st)
    = sink st
      ++ bundle_text (flat_map (entry_of cwd) (select_children current_path sel)).
Proof.
  intros H. unfold visit_children, select_children.
  apply (sorted_related (writes_selection cwd)) in H;
    [|now intros a b [Hk _]].
  induction H as [|a b s s' [Hname Hact] Hs IH]; intros st; simpl.
  - now rewrite app_nil_r.
  - rewrite IH, Hact, Hname, flat_map_app, bundle_text_app.
    now rewrite <- app_assoc.
Qed.

Lemma visit_selects (cfg : config)
    (v : view (str -> enc_state -> enc_state))
    (sv : view (str -> list source_file)) (current_path : str)
    (st : enc_state) :
  match v, sv with
  | At_dir (Some items), At_dir (Some sel) =>
      Forall2 (writes_selection (cwd cfg)) items sel
  | At_dir None, At_dir None => True
  | At_file f, At_file f' => f = f'
  | At_other, At_other => True
  | _, _ => False
  end ->
  sink (visit cfg v current_path st)
  = sink st
    ++ bundle_text (flat_map (entry_of (cwd cfg)) (select cfg sv current_path)).
Proof.
  intros Hv. unfold visit, select.
  assert (Hdir : view_is_dir v = view_is_dir sv).
  { destruct v as [[l|]|f|], sv as [[l'|]|f'|]; simpl in *;
      try contradiction; reflexivity. }
  rewrite <- Hdir.
  destruct (should_exclude current_path (exclusions cfg) (view_is_dir v));
    [simpl; now rewrite app_nil_r|].
  destruct (match includes cfg with [] => false | _ :: _ => true end
            && negb (should_include current_path (includes cfg)
                       (view_is_dir v)));
    destruct v as [[l|]|f|], sv as [[l'|]|f'|]; simpl in Hv;
    try contradiction; simpl; rewrite ?app_nil_r; try reflexivity.
  - now apply visit_children_selects.
  - now rewrite (visit_children_selects (cwd cfg) current_path l l' Hv).
  - subst f'. destruct (is_text_file current_path f) as [[|] evs]; simpl.
    + rewrite write_file_sink. unfold entry_of, bundle_text. simpl.
      destruct (decoded_text f); simpl; now rewrite ?app_nil_r.
    + now rewrite app_nil_r.
Qed.

Lemma selected_dir (cfg : config) (listing : option (list (str * node)))
    (current_path : str) :
  selected cfg (Dir listing) current_path
  = select cfg
      (At_dir (option_map (map (fun e => (fst e, selected cfg (snd e))))
                 listing))
      current_path.
Proof.
  simpl. do 2 f_equal. destruct listing as [l|]; [|reflexivity].
  simpl. f_equal. induction l as [|[name child] l IH]; [reflexivity|].
  simpl. now rewrite IH.
Qed.

(** The traversal is the selection followed by the writing: what it appends
    to the bundle are the entries of the files selected, in order. *)
Lemma traverse_selects (cfg : config) :
  forall n current_path st,
    sink (traverse_and_concatenate cfg n current_path st)
    = sink st
      ++ bundle_text
           (flat_map (entry_of (cwd cfg)) (selected cfg n current_path)).
Proof.
  induction n as [f| | |l IH] using node_ind_deep; intros current_path st.
  - simpl. now apply visit_selects.
  - simpl. now apply visit_selects.
  - simpl. now apply visit_selects.
  - rewrite traverse_dir, selected_dir. apply visit_selects. simpl.
    induction IH as [|[name child] l Hchild Hl IHl]; simpl; constructor.
    + split; [reflexivity|]. intros p st'. apply Hchild.
    + exact IHl.
Qed.

Lemma concatenate_path_selects (env : enc_env) (eff includes : list str)
    (st : enc_state) (not_found : list str) (path_arg : str) :
  sink (fst (concatenate_path env eff includes (st, not_found) path_arg))
  = sink st
    ++ bundle_text
         (flat_map (entry_of (working_dir env))
            (selected_files env eff includes [path_arg])).
Proof.
  unfold concatenate_path, selected_files. simpl flat_map.
  rewrite app_nil_r.
  destruct (lookup env path_arg) as [n0|].
  - cbn [fst]. apply traverse_selects.
  - simpl. now rewrite app_nil_r.
Qed.

Lemma selected_files_cons (env : enc_env) (eff includes : list str)
    (path_arg : str) (paths : list str) :
  selected_files env eff includes (path_arg :: paths)
  = selected_files env eff includes [path_arg]
    ++ selected_files env eff includes paths.
Proof. unfold selected_files. simpl. now rewrite app_nil_r. Qed.

Lemma concatenate_paths_select (env : enc_env) (eff includes : list str)
    (paths : list str) :
  forall acc,
    sink (fst (fold_left (concatenate_path env eff includes) paths acc))
    = sink (fst acc)
      ++ bundle_text
           (flat_map (entry_of (working_dir env))
              (selected_files env eff includes paths)).
Proof.
  induction paths as [|path_arg paths IH]; intros [st not_found].
  - simpl. now rewrite app_nil_r.
  - cbn [fold_left]. rewrite IH, selected_files_cons.
    rewrite concatenate_path_selects, flat_map_app, bundle_text_app.
    cbn [fst]. now rewrite <- app_assoc.
Qed.

(** The bundle of a run: the prompt when asked for, then the entries of the
    files selected. *)
Lemma concatenate_sink (env : enc_env) (output_name : str) (paths : list str)
    (force : bool) (exclusions includes : list str) (add_prompt : bool)
    (enc : enc_state) :
  concatenate_files_and_folders env output_name paths force exclusions
    includes add_prompt = Completed enc ->
  sink enc
  = (if add_prompt then AI_INSTRUCTION_PROMPT else [])
    ++ bundle_text
         (flat_map (entry_of (working_dir env))
            (selected_files env
               (set_order env (exclusions ++ default_venv_patterns))
               includes paths)).
Proof.
  unfold concatenate_files_and_folders.
  destruct (output_exists env && negb force);
    [destruct (mem _ _); discriminate|].
  destruct (negb (output_opens env)); [discriminate|].
  match goal with
  | |- context [fold_left ?f paths (?s, [])] =>
      pose proof (concatenate_paths_select env
                    (set_order env (exclusions ++ default_venv_patterns))
                    includes paths (s, [])) as Hsink;
      destruct (fold_left f paths (s, [])) as [st nf]
  end.
  intros [= <-]. simpl in *. rewrite Hsink.
  destruct add_prompt, (output_exists env && force); reflexivity.
Qed.

(** Decoding a bundle of entries that are read back as they are. *)
Lemma decode_bundle (env : dec_env) (input_file output_folder : str)
    (es : list bundle_entry) (add_prompt : bool) (st : dec_state) :
  (forall done p, io env done p = IoOk) ->
  Forall readable es ->
  Forall (fun e => plain_header (e_path e)) es ->
  ops (slice_content env input_file output_folder
         ((if add_prompt then AI_INSTRUCTION_PROMPT else []) ++ bundle_text es)
         st)
  = ops st ++ flat_map (expected_ops output_folder) es.
Proof.
  intros Hio Hread Hplain. destruct add_prompt.
  - rewrite slice_content_prompt, app_assoc. now rewrite scan_bundle.
  - rewrite app_nil_l. unfold slice_content. rewrite bundle_has_no_prompt.
    now apply (scan_bundle env input_file output_folder _ [] st).
Qed.

(** ** Encoding a tree, then decoding the bundle *)

Lemma ops_dec_print (e : list event) (st : dec_state) :
  ops (dec_print e st) = ops st.
Proof. reflexivity. Qed.

(** C2 (amended): when a run of the encoder completes, and every file it
    selects decodes to a text with no carriage return and no line starting
    with three backticks, and has a header path that is not empty, has no
    backtick and no carriage return, is left as it is by stripping and
    normalizing and is neither absolute nor has a [..] component, then
    decoding the bundle, read back in text mode, into an existing folder
    where every write succeeds writes, for each selected file in order and
    nothing else, its decoded text to the output folder joined with its
    header path. *)
Theorem text_round_trip :
  forall env output_name paths force exclusions includes add_prompt enc
         denv input_file output_folder,
    concatenate_files_and_folders env output_name paths force exclusions
      includes add_prompt = Completed enc ->
    Forall (round_trips (working_dir env))
      (selected_files env
         (set_order env (exclusions ++ default_venv_patterns))
         includes paths) ->
    reads (sink enc) denv input_file ->
    exists dec,
      slice_files denv [input_file] output_folder = Completed dec
      /\ ops dec
         = flat_map (expected_ops output_folder)
             (flat_map (entry_of (working_dir env))
                (selected_files env
                   (set_order env (exclusions ++ default_venv_patterns))
                   includes paths)).
Proof.
  intros env output_name paths force exclusions includes add_prompt enc
    denv input_file output_folder Hrun Hfiles (Hout & (read & Hb & Hr) & Hio).
  destruct (round_trips_entries _ _ Hfiles) as (Hread & Hplain & Hcr).
  unfold slice_files. rewrite Hout. eexists. split; [reflexivity|].
  rewrite ops_dec_print. cbn [fold_left]. unfold slice_input.
  rewrite Hb, Hr, (concatenate_sink _ _ _ _ _ _ _ _ Hrun).
  rewrite (bundle_read_back add_prompt _ Hcr).
  now rewrite decode_bundle.
Qed.

Lemma project_files_round_trip :
  Forall (round_trips (working_dir project_env))
    (selected_files project_env
       (set_order project_env ([] ++ default_venv_patterns)) [] ["a" : str]).
Proof.
  vm_compute selected_files. constructor; [|constructor].
  exists ("print(1)" : str). repeat split; try reflexivity.
  vm_compute. discriminate.
Qed.

Lemma text_round_trip_witness :
  exists dec,
    slice_files
      (always_ok (entry_text "a/x.py" "python" "print(1)"))
      ["bundle.md" : str] "out"
    = Completed dec
    /\ ops dec = [Makedirs "out/a"; WriteFile "out/a/x.py" "print(1)"].
Proof.
  assert (Hrun : concatenate_files_and_folders project_env "bundle.md"
                   ["a" : str] false [] [] false
                 = Completed
                     {| sink := entry_text "a/x.py" "python" "print(1)";
                        processed_files := ["a/x.py" : str];
                        skipped_files := [];
                        excluded_items := ["a/.git" : str];
                        enc_printed :=
                          [Entering "."; Excluding ".git" true;
                           Adding "a/x.py";
                           Concatenation_complete "bundle.md" 0 1 0 1] |})
    by (vm_compute; reflexivity).
  assert (Hreads : reads (entry_text "a/x.py" "python" "print(1)")
                     (always_ok (entry_text "a/x.py" "python" "print(1)"))
                     "bundle.md").
  { split; [reflexivity|]. split; [|reflexivity].
    eexists. split; reflexivity. }
  exact (text_round_trip project_env "bundle.md" ["a" : str] false [] [] false
           _ (always_ok (entry_text "a/x.py" "python" "print(1)"))
           "bundle.md" "out" Hrun project_files_round_trip Hreads).
Defined.

(** C2, as stated, fails: a text file that holds a line starting with three
    backticks is classified as text and bundled, and is decoded to the text
    before that line only. *)
Lemma fenced_text_does_not_round_trip :
  exists enc dec,
    concatenate_files_and_folders notes_env "out.md" ["a" : str] false [] []
      false = Completed enc
    /\ processed_files enc = ["a/m.md" : str]
    /\ slice_files (always_ok (universal_newlines (sink enc)))
         ["out.md" : str] "fresh"
       = Completed dec
    /\ ops dec = [Makedirs "fresh/a"; WriteFile "fresh/a/m.md" "hi"]
    /\ ("hi" : str) <> fenced_text.
Proof.
  eexists. eexists. split; [vm_compute; reflexivity|].
  split; [reflexivity|].
  split; [vm_compute; reflexivity|].
  split; [reflexivity|]. discriminate.
Qed.

(** The other conditions of the round trip are needed as well: a name that
    ends with a blank is decoded without it, a carriage return in a name is
    read back as a newline, and a file bundled from the parent directory
    has a header path that the decoder rejects. *)
Lemma blank_name_is_stripped :
  ops (slice_content (always_ok []) "bundle.md" "out"
         (universal_newlines
            (sink (write_files "/work" [blank_name] empty_state)))
         no_ops)
  = [Makedirs "out/a"; WriteFile "out/a/x.txt" "one"].
Proof. vm_compute. reflexivity. Qed.

Lemma carriage_return_is_read_as_newline :
  ops (slice_content (always_ok []) "bundle.md" "out"
         (universal_newlines
            (sink (write_files "/work" [cr_name] empty_state)))
         no_ops)
  = [Makedirs "out/a"; WriteFile ("out/a/x" ++ nl ++ "y.txt") "one"]
  /\ ("a/x" ++ nl ++ "y.txt" : str) <> src_path cr_name.
Proof. split; [vm_compute; reflexivity|discriminate]. Qed.

Lemma parent_base_is_rejected :
  let st := slice_content (always_ok []) "bundle.md" "out"
              (universal_newlines
                 (sink (write_files "/work/sub" [from_parent] empty_state)))
              no_ops in
  ops st = [] /\ errors_encountered st = 1.
Proof. vm_compute. split; reflexivity. Qed.
(** ** The counters of the decoder *)

Lemma filter_is_write_app (a b : list fs_op) :
  length (filter is_write (a ++ b))
  = length (filter is_write a) + length (filter is_write b).
Proof. now rewrite filter_app, length_app. Qed.

(** What one entry adds to the operations and to the counters. *)
Lemma slice_entry_counts (env : dec_env) (input_file output_folder : str)
    (st : dec_state) (m : Re.mtch) :
  let st' := slice_entry env input_file output_folder st m in
  files_created st' + errors_encountered st'
  = S (files_created st + errors_encountered st)
  /\ length (filter is_write (ops st')) + files_created st
     = length (filter is_write (ops st)) + files_created st'.
Proof.
  unfold slice_entry.
  destruct (unsafe_path _); [simpl; lia|].
  destruct (io env _ _); simpl; rewrite ?filter_is_write_app; simpl; lia.
Qed.

Lemma fold_slice_entry_counts (env : dec_env) (input_file output_folder : str)
    (ms : list Re.mtch) :
  forall st,
    let st' := fold_left (slice_entry env input_file output_folder) ms st in
    files_created st' + errors_encountered st'
    = files_created st + errors_encountered st + length ms
    /\ length (filter is_write (ops st')) + files_created st
       = length (filter is_write (ops st)) + files_created st'.
Proof.
  induction ms as [|m ms IH]; intros st; simpl; [lia|].
  destruct (IH (slice_entry env input_file output_folder st m)) as [H1 H2].
  destruct (slice_entry_counts env input_file output_folder st m) as [H3 H4].
  simpl in *. lia.
Qed.

Lemma scan_entries_writes (env : dec_env) (input_file output_folder : str)
    (content : str) (st : dec_state) :
  let st' := scan_entries env input_file output_folder content st in
  length (filter is_write (ops st')) + files_created st
  = length (filter is_write (ops st)) + files_created st'.
Proof.
  unfold scan_entries.
  pose proof (fold_slice_entry_counts env input_file output_folder
                (Re.finditer pattern content) st) as [_ H].
  destruct (Re.finditer pattern content); simpl in *; exact H.
Qed.

Lemma slice_content_writes (env : dec_env) (input_file output_folder : str)
    (content : str) (st : dec_state) :
  let st' := slice_content env input_file output_folder content st in
  length (filter is_write (ops st')) + files_created st
  = length (filter is_write (ops st)) + files_created st'.
Proof.
  unfold slice_content.
  destruct (startswith prompt_marker (lstrip content)).
  - destruct (skip_prompt content) as [content' e].
    apply (scan_entries_writes env input_file output_folder content'
             (dec_print [e] st)).
  - apply scan_entries_writes.
Qed.

Lemma slice_input_writes (env : dec_env) (output_folder : str)
    (st : dec_state) (input_file : str) :
  let st' := slice_input env output_folder st input_file in
  length (filter is_write (ops st')) + files_created st
  = length (filter is_write (ops st)) + files_created st'.
Proof.
  unfold slice_input.
  destruct (bundle env input_file) as [read|]; [|reflexivity].
  destruct (read Utf8) as [content| |]; [| |reflexivity].
  - apply (slice_content_writes env input_file output_folder content
             (dec_print [Processing input_file] st)).
  - destruct (read Latin1) as [content| |]; try reflexivity.
    apply (slice_content_writes env input_file output_folder content
             (dec_print [Warning_not_utf8 input_file]
                (dec_print [Processing input_file] st))).
Qed.

Lemma fold_slice_input_writes (env : dec_env) (output_folder : str)
    (input_files : list str) :
  forall st,
    let st' := fold_left (slice_input env output_folder) input_files st in
    length (filter is_write (ops st')) + files_created st
    = length (filter is_write (ops st)) + files_created st'.
Proof.
  induction input_files as [|f fs IH]; intros st; simpl; [reflexivity|].
  pose proof (IH (slice_input env output_folder st f)) as H1.
  pose proof (slice_input_writes env output_folder st f) as H2.
  simpl in *. lia.
Qed.

(** X1: when [slice_files] runs to its end, the number of files it reports
    as created is the number of files it wrote. *)
Theorem files_created_counts_writes :
  forall env input_files output_folder st,
    slice_files env input_files output_folder = Completed st ->
    files_created st = length (filter is_write (ops st)).
Proof.
  intros env input_files output_folder st. unfold slice_files.
  destruct (out_exists env).
  - intros [= <-]. simpl.
    pose proof (fold_slice_input_writes env output_folder input_files
                  {| ops := []; files_created := 0; errors_encountered := 0;
                     printed := [Slicing input_files output_folder] |}) as H.
    simpl in H. lia.
  - destruct (out_creatable env); [|discriminate].
    intros [= <-]. simpl.
    match goal with
    | |- context [fold_left _ _ ?s] =>
        pose proof (fold_slice_input_writes env output_folder input_files s)
          as H
    end.
    simpl in H. lia.
Qed.

Lemma files_created_counts_writes_witness :
  exists st,
    slice_files (always_ok evil_bundle) ["in.md" : str] "out" = Completed st
    /\ files_created st = 1
    /\ length (filter is_write (ops st)) = 1.
Proof.
  eexists. split; [reflexivity|]. split; [reflexivity|].
  symmetry.
  exact (files_created_counts_writes (always_ok evil_bundle) ["in.md" : str]
           "out" _ eq_refl).
Defined.

(** X2: every match of the pattern is accounted for once: scanning a text
    raises the files created and the errors, together, by the number of
    entries found in it. *)
Theorem every_match_is_counted :
  forall env input_file output_folder content st,
    let st' := scan_entries env input_file output_folder content st in
    files_created st' + errors_encountered st'
    = files_created st + errors_encountered st
      + length (Re.finditer pattern content).
Proof.
  intros env input_file output_folder content st. unfold scan_entries.
  pose proof (fold_slice_entry_counts env input_file output_folder
                (Re.finditer pattern content) st) as [H _].
  destruct (Re.finditer pattern content); simpl in *; exact H.
Qed.
(** ** What the decoder keeps true *)

(** A property of the state that printing, counting an error and writing
    an entry keep is kept by the whole run. *)
Lemma slice_inputs_keep (P : dec_state -> Prop) (env : dec_env)
    (output_folder : str) :
  (forall e st, P st -> P (dec_print e st)) ->
  (forall e st, P st -> P (dec_error e st)) ->
  (forall input_file st m,
      P st -> P (slice_entry env input_file output_folder st m)) ->
  forall input_files st,
    P st -> P (fold_left (slice_input env output_folder) input_files st).
Proof.
  intros Hprint Herror Hentry.
  assert (Hscan : forall input_file content st,
             P st -> P (scan_entries env input_file output_folder content st)).
  { intros input_file content st H. unfold scan_entries.
    assert (Hfold : forall ms st0, P st0 ->
               P (fold_left (slice_entry env input_file output_folder) ms st0)).
    { induction ms as [|m ms IH]; intros st0 H0; simpl; [exact H0|].
      now apply IH, Hentry. }
    destruct (Re.finditer pattern content) as [|m ms] eqn:E.
    - now apply Hprint, Hfold.
    - now apply Hfold. }
  assert (Hcontent : forall input_file content st,
             P st -> P (slice_content env input_file output_folder content st)).
  { intros input_file content st H. unfold slice_content.
    destruct (startswith prompt_marker (lstrip content)).
    - destruct (skip_prompt content) as [content' e].
      now apply Hscan, Hprint.
    - now apply Hscan. }
  induction input_files as [|f fs IH]; intros st H; simpl; [exact H|].
  apply IH. unfold slice_input.
  destruct (bundle env f) as [read|]; [|now apply Herror].
  destruct (read Utf8) as [content| |].
  - now apply Hcontent, Hprint.
  - destruct (read Latin1) as [content| |].
    + now apply Hcontent, Hprint, Hprint.
    + now apply Herror, Hprint, Hprint.
    + now apply Herror, Hprint, Hprint.
  - now apply Herror, Hprint.
Qed.

Lemma paired_app (a b : list fs_op) :
  paired a -> paired b -> paired (a ++ b).
Proof.
  intros Ha Hb. induction Ha; simpl; [exact Hb| |]; now constructor.
Qed.

Lemma paired_write (l : list fs_op) (p c : str) :
  paired l -> In (WriteFile p c) l ->
  exists l1 l2, l = l1 ++ Makedirs (Path.dirname p) :: WriteFile p c :: l2.
Proof.
  induction 1 as [|d l Hl IH|p' c' l Hl IH]; intros Hin.
  - destruct Hin.
  - destruct Hin as [Hin|Hin]; [discriminate|].
    destruct (IH Hin) as (l1 & l2 & ->).
    now exists (Makedirs d :: l1), l2.
  - destruct Hin as [Hin|[Hin|Hin]]; [discriminate| |].
    + injection Hin as -> ->. now exists [], l.
    + destruct (IH Hin) as (l1 & l2 & ->).
      now exists (Makedirs (Path.dirname p') :: WriteFile p' c' :: l1), l2.
Qed.

Lemma slice_entry_paired (env : dec_env) (input_file output_folder : str)
    (st : dec_state) (m : Re.mtch) :
  paired (ops st) ->
  paired (ops (slice_entry env input_file output_folder st m)).
Proof.
  intros H. unfold slice_entry.
  destruct (unsafe_path _); [exact H|].
  destruct (io env _ _); simpl; try exact H; apply paired_app; trivial.
  - apply paired_file. constructor.
  - apply paired_dir. constructor.
  - apply paired_dir. constructor.
Qed.

(** X3: [slice_files] writes no file without having made the directory of
    its path just before: in the operations of a run, each file written
    comes right after [os.makedirs] of its parent. *)
Theorem parent_directory_is_made_first :
  forall env input_files output_folder st p c,
    slice_files env input_files output_folder = Completed st ->
    In (WriteFile p c) (ops st) ->
    exists l1 l2,
      ops st = l1 ++ Makedirs (Path.dirname p) :: WriteFile p c :: l2.
Proof.
  intros env input_files output_folder st p c Hrun Hin.
  apply paired_write; [|exact Hin]. clear Hin.
  assert (Hkeep : forall st0, paired (ops st0) ->
             paired (ops (fold_left (slice_input env output_folder)
                            input_files st0))).
  { apply (slice_inputs_keep (fun s => paired (ops s))); try (intros; assumption).
    intros. now apply slice_entry_paired. }
  unfold slice_files in Hrun. destruct (out_exists env).
  - injection Hrun as <-. apply Hkeep. constructor.
  - destruct (out_creatable env); [|discriminate].
    injection Hrun as <-. apply Hkeep. simpl. repeat constructor.
Qed.

Lemma parent_directory_is_made_first_witness :
  exists st l1 l2,
    slice_files (always_ok evil_bundle) ["in.md" : str] "out" = Completed st
    /\ ops st = l1 ++ Makedirs "out" :: WriteFile "out/b.txt" "y" :: l2.
Proof.
  destruct (parent_directory_is_made_first (always_ok evil_bundle)
              ["in.md" : str] "out" _ "out/b.txt" "y" eq_refl)
    as (l1 & l2 & H).
  - simpl. right. left. reflexivity.
  - eexists. exists l1, l2. split; [reflexivity|exact H].
Defined.
(** ** Texts that hold no entry *)

(** When the rest of the pattern fails wherever a text of some kind
    starts, and the kind is closed under dropping characters in front, a
    regular expression put before it fails there too. *)
Lemma exec_dead (Q : str -> Prop) :
  (forall c s, Q (c :: s) -> Q s) ->
  forall r k,
    (forall pv s g, Q s -> k (Re.Cursor pv s) g = None) ->
    forall pv s g, Q s -> Re.exec r k (Re.Cursor pv s) g = None.
Proof.
  intros Hdrop. induction r as [|c|p| | |p greedy|r1 IH1 r2 IH2|r1 IH1 r2 IH2
                                |r IH|n r IH];
    intros k Hk pv s g HQ; simpl.
  - now apply Hk.
  - destruct s as [|x s]; [reflexivity|].
    destruct (Ascii.eqb x c); [|reflexivity]. apply Hk. now apply (Hdrop x).
  - destruct s as [|x s]; [reflexivity|].
    destruct (p x); [|reflexivity]. apply Hk. now apply (Hdrop x).
  - destruct pv as [c|]; [destruct (Ascii.eqb c Re.newline)|];
      try reflexivity; now apply Hk.
  - destruct s as [|c s]; [now apply Hk|].
    destruct (Ascii.eqb c Re.newline); [now apply Hk|reflexivity].
  - destruct greedy.
    + apply (rep_greedy_fails p _ Q); trivial.
      * intros pv' s' H'. now apply Hk.
      * intros c s' H' _. now apply (Hdrop c).
    + revert pv HQ. induction s as [|c s IHs]; intros pv HQ; simpl.
      * now rewrite Hk.
      * rewrite Hk by exact HQ. destruct (p c); [|reflexivity].
        apply IHs. now apply (Hdrop c).
  - apply IH1; [|exact HQ]. intros pv' s' g' H'. now apply IH2.
  - rewrite IH1 by assumption. now apply IH2.
  - rewrite IH by assumption. now apply Hk.
  - apply IH; [|exact HQ]. intros pv' s' g' H'. now apply Hk.
Qed.

Lemma exec_seq_dead (Q : str -> Prop) (r0 : Re.regex) :
  (forall c s, Q (c :: s) -> Q s) ->
  (forall k pv s g, Q s -> Re.exec r0 k (Re.Cursor pv s) g = None) ->
  forall before after k pv s g,
    Q s ->
    Re.exec (Re.seq (before ++ r0 :: after)) k (Re.Cursor pv s) g = None.
Proof.
  intros Hdrop H0. induction before as [|r before IH];
    intros after k pv s g HQ.
  - simpl. now apply H0.
  - simpl. apply (exec_dead Q Hdrop); [|exact HQ].
    intros pv' s' g' H'. now apply IH.
Qed.

Lemma no_backtick_tail (c : ascii) (s : str) :
  forallb not_backtick (c :: s) = true -> forallb not_backtick s = true.
Proof. simpl. intros H. now apply andb_true_iff in H as [_ H]. Qed.

Lemma no_backtick_skipn (n : nat) (s : str) :
  forallb not_backtick s = true -> forallb not_backtick (skipn n s) = true.
Proof.
  revert s. induction n as [|n IH]; intros [|c s] H; simpl; trivial.
  apply IH. now apply (no_backtick_tail c).
Qed.

(** The pattern asks for a backtick. *)
Lemma match_at_no_backtick (pv : option ascii) (s : str) :
  forallb not_backtick s = true -> Re.match_at pattern pv s = None.
Proof.
  intros H. unfold Re.match_at.
  assert (Hexec : Re.exec pattern (fun cu g => Some (g, cu))
                    (Re.Cursor pv s) Re.no_groups = None);
    [|now rewrite Hexec].
  unfold pattern.
  apply (exec_seq_dead (fun s => forallb not_backtick s = true)
           (Re.Chr backtick) no_backtick_tail)
    with (before := [Re.Bol; Re.Rep isspace true; Re.Chr "#"; Re.Chr "#";
                     Re.Chr "#"; Re.Rep isspace true; Re.Chr "*"; Re.Chr "*"]);
    [|exact H].
  intros k pv' s' g H'. simpl. destruct s' as [|x s']; [reflexivity|].
  simpl in H'. apply andb_true_iff in H' as [Hx _].
  unfold not_backtick in Hx. apply negb_true_iff in Hx. now rewrite Hx.
Qed.

Lemma finditer_no_backtick (s : str) :
  forallb not_backtick s = true ->
  forall pv, Re.finditer_from pattern 0 pv s = [].
Proof.
  induction s as [|c s IH]; intros H pv.
  - simpl. now rewrite match_at_no_backtick.
  - rewrite finditer_no_match by (now apply match_at_no_backtick).
    apply IH. now apply (no_backtick_tail c).
Qed.

Lemma dec_print_twice (a b : list event) (st : dec_state) :
  dec_print b (dec_print a st) = dec_print (a ++ b) st.
Proof. unfold dec_print. simpl. now rewrite app_assoc. Qed.

(** X4: a text without a backtick holds no entry.  Whether or not it starts
    with the instruction prompt, [slice_files] does nothing with it but
    warn that no file section was found: no operation, no file counted, no
    error counted. *)
Theorem no_backtick_no_entry :
  forall env input_file output_folder content st,
    forallb not_backtick content = true ->
    exists before,
      slice_content env input_file output_folder content st
      = dec_print (before ++ [Warning_no_sections input_file]) st.
Proof.
  intros env input_file output_folder content st H.
  assert (Hscan : forall text st0,
             forallb not_backtick text = true ->
             scan_entries env input_file output_folder text st0
             = dec_print [Warning_no_sections input_file] st0).
  { intros text st0 Htext. unfold scan_entries, Re.finditer.
    now rewrite finditer_no_backtick. }
  unfold slice_content.
  destruct (startswith prompt_marker (lstrip content)).
  - destruct (skip_prompt content) as [content' e] eqn:Eskip.
    exists [e]. rewrite Hscan; [apply dec_print_twice|].
    unfold skip_prompt in Eskip.
    destruct (find prompt_marker content) as [start|].
    + destruct (find_from (nl ++ nl) content start) as [i|];
        injection Eskip as <- <-; [now apply no_backtick_skipn|exact H].
    + now injection Eskip as <- <-.
  - exists []. now apply Hscan.
Qed.

Lemma no_backtick_no_entry_witness :
  exists before,
    slice_content (always_ok "plain words") "in.md" "out" "plain words" no_ops
    = dec_print (before ++ [Warning_no_sections "in.md"]) no_ops.
Proof.
  apply (no_backtick_no_entry (always_ok "plain words") "in.md" "out"
           "plain words" no_ops).
  reflexivity.
Defined.
(** ** Decoding a bundle of readable entries *)

Lemma fold_decoded_entries (env : dec_env) (input_file output_folder : str)
    (es : list bundle_entry) :
  (forall done p, io env done p = IoOk) ->
  forall st,
    let st' := fold_left (slice_entry env input_file output_folder)
                 (map entry_match es) st in
    ops st' = ops st ++ flat_map (decoded_ops output_folder) es
    /\ files_created st' = files_created st + length (filter safe_entry es)
    /\ errors_encountered st'
       = errors_encountered st
         + length (filter (fun e => negb (safe_entry e)) es).
Proof.
  intros Hio. induction es as [|e es IH]; intros st; simpl.
  - rewrite app_nil_r. repeat split; lia.
  - destruct (IH (slice_entry env input_file output_folder st (entry_match e)))
      as (Hops & Hfiles & Herrors).
    simpl in Hops, Hfiles, Herrors. rewrite Hops, Hfiles, Herrors. clear IH.
    unfold slice_entry, decoded_ops, safe_entry.
    change (Re.group (entry_match e) 1) with (e_path e).
    change (Re.group (entry_match e) 3) with (e_content e).
    destruct (unsafe_path (Path.normpath (strip (e_path e)))); simpl.
    + repeat split; lia.
    + rewrite Hio. simpl. rewrite <- app_assoc. simpl. repeat split; lia.
Qed.

(** X5: a bundle of readable entries is decoded entry by entry, in order:
    an entry whose path is safe once stripped and normalized is written
    under the output folder at that path, with its text; an entry whose
    path is unsafe is passed over and counted as an error.  The counts of
    the run are the numbers of the two kinds. *)
Theorem bundle_is_decoded_entry_by_entry :
  forall env input_file output_folder es st,
    (forall done p, io env done p = IoOk) ->
    Forall readable es ->
    let st' := slice_content env input_file output_folder (bundle_text es) st in
    ops st' = ops st ++ flat_map (decoded_ops output_folder) es
    /\ files_created st' = files_created st + length (filter safe_entry es)
    /\ errors_encountered st'
       = errors_encountered st
         + length (filter (fun e => negb (safe_entry e)) es).
Proof.
  intros env input_file output_folder es st Hio Hread.
  unfold slice_content. rewrite bundle_has_no_prompt.
  unfold scan_entries, Re.finditer.
  pose proof (finditer_bundle es Hread [] None (or_introl eq_refl) eq_refl)
    as Hm.
  rewrite app_nil_l in Hm.
  assert (Hmap : map caps (Re.finditer_from pattern 0 None (bundle_text es))
                 = map caps (map entry_match es)).
  { rewrite Hm, map_map. reflexivity. }
  rewrite (fold_slice_entry_caps env input_file output_folder _ _ st Hmap).
  destruct (Re.finditer_from pattern 0 None (bundle_text es));
    now apply fold_decoded_entries.
Qed.

Lemma evil_bundle_is_readable :
  Forall readable
    [ {| e_path := "../evil.txt"; e_language := "text"; e_content := "x" |};
      {| e_path := "b.txt"; e_language := "text"; e_content := "y" |} ].
Proof. repeat constructor; discriminate. Qed.

Lemma bundle_is_decoded_entry_by_entry_witness :
  let st := slice_content (always_ok evil_bundle) "in.md" "out" evil_bundle
              no_ops in
  ops st = [Makedirs "out"; WriteFile "out/b.txt" "y"]
  /\ files_created st = 1 /\ errors_encountered st = 1.
Proof.
  exact (bundle_is_decoded_entry_by_entry (always_ok evil_bundle) "in.md" "out"
           _ no_ops (fun _ _ => eq_refl) evil_bundle_is_readable).
Defined.

(** X6: the language tag of a fence plays no part in decoding: two bundles
    of readable entries with the same paths and the same texts, whatever
    their tags, leave the decoder in the same state, under any answers of
    the operating system. *)
Theorem language_tag_is_ignored :
  forall env input_file output_folder es es' st,
    Forall readable es -> Forall readable es' ->
    map (fun e => (e_path e, e_content e)) es
    = map (fun e => (e_path e, e_content e)) es' ->
    slice_content env input_file output_folder (bundle_text es) st
    = slice_content env input_file output_folder (bundle_text es') st.
Proof.
  intros env input_file output_folder es es' st Hread Hread' Hsame.
  unfold slice_content. rewrite !bundle_has_no_prompt.
  unfold scan_entries, Re.finditer.
  pose proof (finditer_bundle es Hread [] None (or_introl eq_refl) eq_refl)
    as Hm.
  pose proof (finditer_bundle es' Hread' [] None (or_introl eq_refl) eq_refl)
    as Hm'.
  rewrite app_nil_l in Hm, Hm'. rewrite Hsame, <- Hm' in Hm.
  rewrite (fold_slice_entry_caps env input_file output_folder _ _ st Hm).
  destruct (Re.finditer_from pattern 0 None (bundle_text es)) as [|m ms];
    destruct (Re.finditer_from pattern 0 None (bundle_text es')) as [|m' ms'];
    try discriminate; reflexivity.
Qed.

Lemma language_tag_is_ignored_witness :
  slice_content (always_ok []) "in.md" "out"
    (entry_text "a.py" "python" "x = 1") no_ops
  = slice_content (always_ok []) "in.md" "out"
      (entry_text "a.py" "" "x = 1") no_ops.
Proof.
  assert (H1 : Forall readable
                 [ {| e_path := "a.py"; e_language := "python";
                      e_content := "x = 1" |} ])
    by (repeat constructor; discriminate).
  assert (H2 : Forall readable
                 [ {| e_path := "a.py"; e_language := "";
                      e_content := "x = 1" |} ])
    by (repeat constructor; discriminate).
  exact (language_tag_is_ignored (always_ok []) "in.md" "out" _ _ no_ops
           H1 H2 eq_refl).
Defined.
(** ** What a traversal keeps true *)

Section Keeps.

Variable R : enc_state -> enc_state -> Prop.
Variable C : config -> Prop.

Hypothesis R_refl : forall st, R st st.
Hypothesis R_trans : forall a b c, R a b -> R b c -> R a c.
Hypothesis R_print : forall e st, R st (enc_print e st).
Hypothesis R_leaf :
  forall cfg v current_path st,
    C cfg -> (forall items, v <> At_dir (Some items)) ->
    R st (visit cfg v current_path st).

Lemma visit_children_keep (current_path : str)
    (items : list (str * (str -> enc_state -> enc_state))) :
  Forall (fun item => forall p st, R st (snd item p st)) items ->
  forall st, R st (visit_children current_path items st).
Proof.
  intros Hitems. unfold visit_children.
  apply (Permutation_Forall (Permutation_sym (sorted_permutation items)))
    in Hitems.
  induction Hitems as [|item rest Hitem _ IH]; intros st; simpl.
  - apply R_refl.
  - eapply R_trans; [apply Hitem|apply IH].
Qed.

(** A relation between the state before and the state after that holds of
    every step of a traversal holds of the traversal. *)
Lemma traverse_keeps (cfg : config) :
  C cfg ->
  forall n current_path st,
    R st (traverse_and_concatenate cfg n current_path st).
Proof.
  intros HC. induction n as [f| | |l IH] using node_ind_deep;
    intros current_path st.
  - simpl. apply R_leaf; [exact HC|discriminate].
  - simpl. apply R_leaf; [exact HC|discriminate].
  - simpl. apply R_leaf; [exact HC|discriminate].
  - rewrite traverse_dir. simpl option_map.
    set (items := map (fun e => (fst e, traverse_and_concatenate cfg (snd e))) l).
    assert (Hitems : Forall (fun item => forall p st, R st (snd item p st))
                       items).
    { unfold items. apply Forall_map.
      apply (Forall_impl _ (P := fun e => forall current_path st,
                 R st (traverse_and_concatenate cfg (snd e) current_path st)));
        [|exact IH].
      intros e He. exact He. }
    destruct (should_exclude current_path (exclusions cfg) true) eqn:Hex.
    + replace (visit cfg (At_dir (Some items)) current_path st)
        with (visit cfg (At_dir None) current_path st)
        by (unfold visit; simpl view_is_dir; now rewrite Hex).
      apply R_leaf; [exact HC|discriminate].
    + unfold visit. simpl view_is_dir. rewrite Hex.
      destruct (match includes cfg with [] => false | _ :: _ => true end
                && negb (should_include current_path (includes cfg) true)).
      * now apply visit_children_keep.
      * eapply R_trans; [apply R_print|]. now apply visit_children_keep.
Qed.

End Keeps.

(** The same for a whole run, from the state before anything is done. *)
Lemma concatenate_keeps (R : enc_state -> enc_state -> Prop)
    (env : enc_env) (user_excl user_incl : list str) :
  (forall st, R st st) ->
  (forall a b c, R a b -> R b c -> R a c) ->
  (forall e st, R st (enc_print e st)) ->
  (forall text st, R st (enc_write text st)) ->
  (forall cfg v current_path st,
      (exclusions cfg
       = set_order env (user_excl ++ default_venv_patterns)
       /\ includes cfg = user_incl) ->
      (forall items, v <> At_dir (Some items)) ->
      R st (visit cfg v current_path st)) ->
  forall output_name paths force add_prompt st,
    concatenate_files_and_folders env output_name paths force user_excl
      user_incl add_prompt = Completed st ->
    R empty_state st.
Proof.
  intros Hrefl Htrans Hprint Hwrite Hleaf output_name paths force add_prompt
    st. unfold concatenate_files_and_folders.
  destruct (output_exists env && negb force);
    [destruct (mem _ _); discriminate|].
  destruct (negb (output_opens env)); [discriminate|].
  set (eff := set_order env (user_excl ++ default_venv_patterns)).
  assert (Hfold : forall acc,
             R (fst acc)
               (fst (fold_left (concatenate_path env eff user_incl) paths acc))).
  { induction paths as [|path_arg paths IH]; intros acc; simpl;
      [apply Hrefl|].
    eapply Htrans; [|apply IH].
    destruct acc as [st0 not_found]. unfold concatenate_path.
    destruct (lookup env path_arg); simpl; [|apply Hprint].
    apply (traverse_keeps R
             (fun cfg => exclusions cfg = eff
                         /\ includes cfg = user_incl));
      auto. }
  match goal with
  | |- context [fold_left _ paths (?s, [])] =>
      specialize (Hfold (s, [])); set (st0 := s) in *
  end.
  destruct (fold_left (concatenate_path env eff user_incl) paths (st0, []))
    as [st1 not_found].
  intros [= <-]. simpl in Hfold.
  eapply Htrans; [|apply Hprint]. eapply Htrans; [|exact Hfold].
  unfold st0. change {| sink := []; processed_files := [];
                        skipped_files := []; excluded_items := [];
                        enc_printed := [] |} with empty_state.
  destruct add_prompt.
  - eapply Htrans; [|apply Hwrite].
    destruct (output_exists env && force).
    + eapply Htrans; apply Hprint.
    + apply Hprint.
  - destruct (output_exists env && force); [apply Hprint|apply Hrefl].
Qed.
(** ** The files of a bundle pass the filters *)

Lemma is_text_file_not_binary (file_path : str) (f : file) :
  fst (is_text_file file_path f) = true ->
  mem (lower (snd (Path.splitext file_path))) binary_extensions = false.
Proof.
  unfold is_text_file.
  destruct (mem (lower (snd (Path.splitext file_path))) binary_extensions);
    [discriminate|reflexivity].
Qed.

Lemma visit_leaf_processed (cfg : config)
    (v : view (str -> enc_state -> enc_state)) (current_path p : str)
    (st : enc_state) :
  (forall items, v <> At_dir (Some items)) ->
  In p (processed_files (visit cfg v current_path st)) ->
  In p (processed_files st)
  \/ (p = current_path
      /\ should_exclude p (exclusions cfg) false = false
      /\ should_include p (includes cfg) false = true
      /\ mem (lower (snd (Path.splitext p))) binary_extensions = false).
Proof.
  intros Hleaf. unfold visit.
  destruct (should_exclude current_path (exclusions cfg) (view_is_dir v))
    eqn:Hex; [now left|].
  destruct (match includes cfg with [] => false | _ :: _ => true end
            && negb (should_include current_path (includes cfg)
                       (view_is_dir v))) eqn:Hinc.
  - destruct v as [[items|]|f|]; try (now left). now destruct (Hleaf items).
  - destruct v as [[items|]|f|]; try (now left);
      [now destruct (Hleaf items)|].
    destruct (is_text_file current_path f) as [[|] evs] eqn:Htext;
      [|now left].
    rewrite processed_write_file. simpl.
    intros Hin. apply in_set_add in Hin as [->|Hin]; [|now left].
    right. simpl in Hex, Hinc. repeat split; trivial.
    + destruct (includes cfg) as [|i is_]; [reflexivity|].
      simpl in Hinc. now apply negb_false_iff in Hinc.
    + apply (is_text_file_not_binary current_path f). now rewrite Htext.
Qed.

(** X7: every file a run adds to the bundle passes the filters itself: no
    pattern of the effective exclusion list (the user's and the defaults)
    matches its path or its base name, some include pattern does when there
    are any, and its extension is not one of the binary extensions.  A file
    does not pass for lying in a directory that matches an include
    pattern. *)
Theorem bundled_files_pass_the_filters :
  forall env output_name paths force user_excl user_incl add_prompt st p,
    concatenate_files_and_folders env output_name paths force user_excl
      user_incl add_prompt = Completed st ->
    In p (processed_files st) ->
    should_exclude p (set_order env (user_excl ++ default_venv_patterns)) false
    = false
    /\ should_include p user_incl false = true
    /\ mem (lower (snd (Path.splitext p))) binary_extensions = false.
Proof.
  intros env output_name paths force user_excl user_incl add_prompt st p Hrun.
  set (eff := set_order env (user_excl ++ default_venv_patterns)).
  set (ok := fun q : str =>
               should_exclude q eff false = false
               /\ should_include q user_incl false = true
               /\ mem (lower (snd (Path.splitext q))) binary_extensions
                  = false).
  assert (H : forall q, In q (processed_files st) ->
                        In q (processed_files empty_state) \/ ok q).
  { apply (concatenate_keeps
             (fun a b => forall q, In q (processed_files b) ->
                                   In q (processed_files a) \/ ok q)
             env user_excl user_incl)
      with (output_name := output_name) (paths := paths) (force := force)
           (add_prompt := add_prompt); trivial.
    - intros a q Hq. now left.
    - intros a b c Hab Hbc q Hq.
      destruct (Hbc q Hq) as [Hb|Hok]; [now apply Hab|now right].
    - intros e a q Hq. now left.
    - intros text a q Hq. now left.
    - intros cfg v current_path a [Hexc Hinc] Hleaf q Hq.
      destruct (visit_leaf_processed cfg v current_path q a Hleaf Hq)
        as [Ha|(-> & H1 & H2 & H3)]; [now left|].
      right. unfold ok, eff. now rewrite <- Hexc, <- Hinc. }
  intros Hp. destruct (H p Hp) as [[]|Hok]. exact Hok.
Qed.

Lemma bundled_files_pass_the_filters_witness :
  should_exclude "a/x.py" default_venv_patterns false = false
  /\ should_include "a/x.py" [] false = true
  /\ mem (lower (snd (Path.splitext "a/x.py"))) binary_extensions = false.
Proof.
  refine (bundled_files_pass_the_filters project_env "out.md" ["a" : str]
            false [] [] false _ "a/x.py" eq_refl _).
  simpl. left. reflexivity.
Defined.
(** ** A traversal only adds *)

Lemma extends_refl (st : enc_state) : extends st st.
Proof.
  repeat split; try apply incl_refl; exists []; now rewrite app_nil_r.
Qed.

Lemma extends_trans (a b c : enc_state) :
  extends a b -> extends b c -> extends a c.
Proof.
  intros ([t1 H1] & [e1 H2] & H3 & H4 & H5) ([t2 H6] & [e2 H7] & H8 & H9 & H10).
  repeat split.
  - exists (t1 ++ t2). now rewrite H6, H1, app_assoc.
  - exists (e1 ++ e2). now rewrite H7, H2, app_assoc.
  - now apply (incl_tran H3).
  - now apply (incl_tran H4).
  - now apply (incl_tran H5).
Qed.

Lemma extends_print (e : list event) (st : enc_state) :
  extends st (enc_print e st).
Proof.
  repeat split; try apply incl_refl; simpl;
    [exists []; now rewrite app_nil_r|now exists e].
Qed.

Lemma extends_write (text : str) (st : enc_state) :
  extends st (enc_write text st).
Proof.
  repeat split; try apply incl_refl; simpl;
    [now exists text|exists []; now rewrite app_nil_r].
Qed.

Lemma incl_set_add (x : str) (l : list str) : incl l (set_add x l).
Proof.
  unfold set_add. destruct (mem x l); [apply incl_refl|].
  now apply incl_appl, incl_refl.
Qed.

Lemma extends_write_file (cwd file_path base_folder : str) (f : file)
    (st : enc_state) :
  extends st (write_file_to_output cwd file_path base_folder f st).
Proof.
  unfold write_file_to_output.
  destruct (read_with file_path f encodings_to_try) as [[content|] evs].
  - eapply extends_trans; [apply extends_print|apply extends_write].
  - eapply extends_trans; apply extends_print.
Qed.

Lemma extends_leaf (cfg : config)
    (v : view (str -> enc_state -> enc_state)) (current_path : str)
    (st : enc_state) :
  (forall items, v <> At_dir (Some items)) ->
  extends st (visit cfg v current_path st).
Proof.
  intros Hleaf. unfold visit.
  destruct (should_exclude current_path (exclusions cfg) (view_is_dir v)).
  { repeat split; simpl; try apply incl_refl;
      [exists []; now rewrite app_nil_r|eexists; reflexivity
      |apply incl_set_add]. }
  destruct (match includes cfg with [] => false | _ :: _ => true end
            && negb (should_include current_path (includes cfg)
                       (view_is_dir v))).
  - destruct v as [[items|]|f|]; try apply extends_refl;
      [now destruct (Hleaf items)|apply extends_print].
  - destruct v as [[items|]|f|]; try apply extends_refl.
    + now destruct (Hleaf items).
    + eapply extends_trans; apply extends_print.
    + destruct (is_text_file current_path f) as [[|] evs].
      * eapply extends_trans; [|apply extends_write_file].
        repeat split; simpl; try apply incl_refl;
          [exists []; now rewrite app_nil_r
          |exists (evs ++ [Adding (display_path cfg current_path)]);
           now rewrite app_assoc
          |apply incl_set_add].
      * repeat split; simpl; try apply incl_refl;
          [exists []; now rewrite app_nil_r
          |exists (evs ++ [Skipping_non_text (display_path cfg current_path)]);
           now rewrite app_assoc
          |apply incl_set_add].
Qed.

(** X8: [traverse_and_concatenate] only adds: whatever it finds at a path,
    the output after it starts with the output before it, the messages go
    on from those printed before, and no path leaves the sets of processed,
    skipped and excluded items. *)
Theorem traversal_only_adds :
  forall cfg n current_path st,
    extends st (traverse_and_concatenate cfg n current_path st).
Proof.
  intros cfg. apply (traverse_keeps extends (fun _ => True)); trivial.
  - apply extends_refl.
  - apply extends_trans.
  - apply extends_print.
  - intros cfg' v current_path st _. apply extends_leaf.
Qed.

(** ** The count of excluded items *)

Lemma should_exclude_dir (item_path : str) (exclusions : list str)
    (is_dir : bool) :
  should_exclude item_path exclusions is_dir = true ->
  should_exclude item_path exclusions true = true.
Proof.
  unfold should_exclude. rewrite !existsb_exists.
  intros (pat & Hin & H). exists pat. split; [exact Hin|].
  destruct is_dir; [exact H|].
  simpl in H. rewrite orb_false_r in H. now rewrite H.
Qed.

Lemma should_exclude_any_kind (item_path : str) (exclusions : list str)
    (a b : bool) :
  forallb (fun pat => negb (endswith "/" pat)) exclusions = true ->
  should_exclude item_path exclusions a = should_exclude item_path exclusions b.
Proof.
  unfold should_exclude. induction exclusions as [|pat pats IH]; intros H;
    [reflexivity|].
  cbn [forallb] in H. apply andb_true_iff in H as [Hpat H].
  apply negb_true_iff in Hpat.
  cbn [existsb]. rewrite (IH H), Hpat, !andb_false_r. reflexivity.
Qed.

Lemma visit_leaf_excluded (cfg : config)
    (v : view (str -> enc_state -> enc_state)) (current_path p : str)
    (st : enc_state) :
  (forall items, v <> At_dir (Some items)) ->
  In p (excluded_items (visit cfg v current_path st)) ->
  In p (excluded_items st)
  \/ should_exclude p (exclusions cfg) true = true.
Proof.
  intros Hleaf. unfold visit.
  destruct (should_exclude current_path (exclusions cfg) (view_is_dir v))
    eqn:Hex.
  { simpl. intros Hin. apply in_set_add in Hin as [->|Hin]; [|now left].
    right. now apply (should_exclude_dir _ _ (view_is_dir v)). }
  destruct (match includes cfg with [] => false | _ :: _ => true end
            && negb (should_include current_path (includes cfg)
                       (view_is_dir v))).
  - destruct v as [[items|]|f|]; try (now left). now destruct (Hleaf items).
  - destruct v as [[items|]|f|]; try (now left);
      [now destruct (Hleaf items)|].
    destruct (is_text_file current_path f) as [[|] evs]; [|now left].
    unfold write_file_to_output.
    destruct (read_with current_path f encodings_to_try) as [[content|] ?];
      now left.
Qed.

(** X9: the count of excluded items in the summary.  When no exclusion
    pattern of the user ends with a slash, every path the run recorded as
    excluded is counted, whatever [os.path.isdir] answers when the summary
    is made: the count is the number of paths recorded. *)
Theorem excluded_count_is_exact :
  forall env output_name paths force user_excl user_incl add_prompt st isdir,
    lists_the_set (set_order env) ->
    forallb (fun pat => negb (endswith "/" pat)) user_excl = true ->
    concatenate_files_and_folders env output_name paths force user_excl
      user_incl add_prompt = Completed st ->
    explicitly_excluded_count isdir
      (set_order env (user_excl ++ default_venv_patterns)) (excluded_items st)
    = length (excluded_items st).
Proof.
  intros env output_name paths force user_excl user_incl add_prompt st isdir
    Hset Hslash Hrun.
  set (eff := set_order env (user_excl ++ default_venv_patterns)).
  assert (Heff : forallb (fun pat => negb (endswith "/" pat)) eff = true).
  { apply forallb_forall. intros pat Hpat. unfold eff in Hpat.
    apply (proj1 (Hset _ _)) in Hpat.
    apply in_app_iff in Hpat as [Hpat|Hpat].
    - revert pat Hpat. now apply forallb_forall.
    - revert pat Hpat. now apply forallb_forall. }
  assert (H : forall q, In q (excluded_items st) ->
                        In q (excluded_items empty_state)
                        \/ should_exclude q eff true = true).
  { apply (concatenate_keeps
             (fun a b => forall q, In q (excluded_items b) ->
                                   In q (excluded_items a)
                                   \/ should_exclude q eff true = true)
             env user_excl user_incl)
      with (output_name := output_name) (paths := paths) (force := force)
           (add_prompt := add_prompt); trivial.
    - intros a q Hq. now left.
    - intros a b c Hab Hbc q Hq.
      destruct (Hbc q Hq) as [Hb|Hok]; [now apply Hab|now right].
    - intros e a q Hq. now left.
    - intros text a q Hq. now left.
    - intros cfg v current_path a [Hexc _] Hleaf q Hq.
      destruct (visit_leaf_excluded cfg v current_path q a Hleaf Hq)
        as [Ha|Hq']; [now left|].
      right. unfold eff. now rewrite <- Hexc. }
  unfold explicitly_excluded_count. f_equal.
  apply forallb_filter_id. apply forallb_forall. intros q Hq.
  destruct (H q Hq) as [[]|Hq'].
  now rewrite (should_exclude_any_kind q eff (isdir q) true Heff).
Qed.

Lemma excluded_count_is_exact_witness :
  explicitly_excluded_count (fun _ => false) default_venv_patterns
    ["a/.git" : str] = 1.
Proof.
  exact (excluded_count_is_exact project_env "out.md" ["a" : str] false [] []
           false _ (fun _ => false) (fun l x => iff_refl _) eq_refl eq_refl).
Defined.
(** ** Patterns with and without wildcards *)

Lemma startswith_prefix (p s : str) :
  startswith p s = true -> exists r, s = p ++ r.
Proof.
  revert s. induction p as [|x p IH]; intros s H; simpl in *.
  - now exists s.
  - destruct s as [|y s]; [discriminate|].
    apply andb_true_iff in H as [Hxy H]. apply Ascii.eqb_eq in Hxy. subst y.
    destruct (IH s H) as [r ->]. now exists r.
Qed.

Lemma endswith_suffix (p s : str) :
  endswith p s = true -> exists r, s = r ++ p.
Proof.
  unfold endswith. intros H. apply startswith_prefix in H as [r Hr].
  exists (rev r). rewrite <- (rev_involutive s), Hr, rev_app_distr.
  now rewrite rev_involutive.
Qed.

Lemma startswith_self (p r : str) : startswith p (p ++ r) = true.
Proof.
  induction p as [|x p IH]; simpl; [reflexivity|].
  now rewrite Ascii.eqb_refl, IH.
Qed.

Lemma endswith_self (p r : str) : endswith p (r ++ p) = true.
Proof. unfold endswith. rewrite rev_app_distr. apply startswith_self. Qed.

(** A star takes any text in front of what the rest of the pattern
    matches. *)
Lemma matches_star (toks : list Fnmatch.token) (a s : str) :
  Fnmatch.matches toks s = true ->
  Fnmatch.matches (Fnmatch.Star :: toks) (a ++ s) = true.
Proof.
  intros H. induction a as [|c a IH].
  - simpl. destruct s; now rewrite H.
  - simpl in *. rewrite IH. apply orb_true_r.
Qed.

Lemma translate_literal (pat : str) :
  literal pat = true -> Fnmatch.translate pat = map Fnmatch.Lit pat.
Proof.
  unfold Fnmatch.translate. induction pat as [|c pat IH]; intros H;
    [reflexivity|].
  simpl in H. apply andb_true_iff in H as [Hc H].
  apply negb_true_iff, orb_false_iff in Hc as [Hc H3].
  apply orb_false_iff in Hc as [H1 H2].
  simpl. rewrite H1, H2, H3. now rewrite IH.
Qed.

Lemma matches_literal (pat name : str) :
  Fnmatch.matches (map Fnmatch.Lit pat) name = str_eqb name pat.
Proof.
  revert name. induction pat as [|c pat IH]; intros [|x name]; simpl;
    try reflexivity.
  now rewrite IH.
Qed.

Lemma fnmatch_literal (name pat : str) :
  literal pat = true -> Fnmatch.fnmatch name pat = str_eqb name pat.
Proof.
  intros H. unfold Fnmatch.fnmatch.
  now rewrite translate_literal, matches_literal.
Qed.

Lemma rfind_char_none (c : ascii) (s : str) :
  rfind_char c s = None -> existsb (Ascii.eqb c) s = false.
Proof.
  induction s as [|x s IH]; simpl; [reflexivity|].
  destruct (rfind_char c s); [discriminate|].
  rewrite (Ascii.eqb_sym c x). destruct (Ascii.eqb x c); [discriminate|].
  intros _. now apply IH.
Qed.

Lemma rfind_char_after (c : ascii) (s : str) :
  forall i, rfind_char c s = Some i ->
            existsb (Ascii.eqb c) (skipn (S i) s) = false.
Proof.
  induction s as [|x s IH]; intros i; simpl; [discriminate|].
  destruct (rfind_char c s) as [j|] eqn:E.
  - intros [= <-]. now apply IH.
  - destruct (Ascii.eqb x c); [|discriminate].
    intros [= <-]. now apply rfind_char_none.
Qed.

(** A base name holds no separator. *)
Lemma basename_sep_free (p : str) :
  existsb (Ascii.eqb Path.sep) (Path.basename p) = false.
Proof.
  unfold Path.basename, after_last.
  destruct (rfind_char Path.sep p) as [i|] eqn:E.
  - now apply rfind_char_after.
  - now apply rfind_char_none.
Qed.

Lemma sep_free_app (a b : str) :
  existsb (Ascii.eqb Path.sep) (a ++ Path.sep :: b) = true.
Proof.
  rewrite existsb_app. cbn [existsb]. rewrite Ascii.eqb_refl.
  apply orb_true_r.
Qed.

(** X10: a pattern without wildcard characters excludes by name only: the
    paths that are the pattern, the paths whose base name is the pattern,
    and, for a directory, the path that is the pattern less its final
    slash. *)
Theorem literal_pattern_excludes_by_name :
  forall pat item_path is_dir,
    literal pat = true ->
    should_exclude item_path [pat] is_dir = true
    <-> item_path = pat \/ Path.basename item_path = pat
        \/ (is_dir = true /\ item_path ++ "/" = pat).
Proof.
  intros pat item_path is_dir H. unfold should_exclude. cbn [existsb].
  rewrite orb_false_r, !fnmatch_literal by exact H.
  rewrite !orb_true_iff, !andb_true_iff, !str_eqb_eq. split.
  - intros [[H1|H2]|[[Hd _] H3]]; auto.
  - intros [H1|[H2|[Hd H3]]]; auto.
    right. repeat split; trivial. rewrite <- H3. apply endswith_self.
Qed.

Lemma literal_pattern_excludes_by_name_witness :
  should_exclude "a/build" ["build" : str] true = true.
Proof.
  apply (literal_pattern_excludes_by_name "build" "a/build" true eq_refl).
  right. left. reflexivity.
Defined.

(** X11: a pattern without wildcard characters that ends with a slash is
    tied to the whole path: it excludes the path that is the pattern, and
    the directory whose path is the pattern less the slash; it excludes no
    directory for its name alone, further down the tree. *)
Theorem trailing_slash_pattern_is_anchored :
  forall d item_path is_dir,
    literal (d ++ "/") = true ->
    should_exclude item_path [d ++ "/"] is_dir = true
    <-> item_path = d ++ "/" \/ (is_dir = true /\ item_path = d).
Proof.
  intros d item_path is_dir H.
  rewrite (literal_pattern_excludes_by_name _ item_path is_dir H). split.
  - intros [H1|[H2|[Hd H3]]]; [now left| |].
    + pose proof (basename_sep_free item_path) as Hfree.
      rewrite H2 in Hfree.
      change (d ++ "/") with (d ++ Path.sep :: []) in Hfree.
      now rewrite sep_free_app in Hfree.
    + right. split; [exact Hd|]. now apply app_inv_tail in H3.
  - intros [H1|[Hd H2]]; [now left|]. right. right. now subst.
Qed.

Lemma trailing_slash_pattern_is_anchored_witness :
  should_exclude "build" ["build/" : str] true = true
  /\ should_exclude "a/build" ["build/" : str] true <> true.
Proof.
  split.
  - apply (trailing_slash_pattern_is_anchored "build" "build" true eq_refl).
    right. now split.
  - intros H.
    apply (trailing_slash_pattern_is_anchored "build" "a/build" true eq_refl)
      in H.
    destruct H as [H|[_ H]]; discriminate.
Defined.

(** X12: the default patterns with wildcards.  Whatever the user excludes,
    a path that ends with [.pyc], and a path that ends with
    [/site-packages], is excluded: the traversal only records it, and
    writes nothing for it or below it. *)
Theorem wildcard_defaults_prune :
  forall env user_excl user_incl base n current_path st,
    lists_the_set (set_order env) ->
    endswith ".pyc" current_path = true
    \/ endswith "/site-packages" current_path = true ->
    let cfg := {| cwd := working_dir env;
                  base_folder := base;
                  exclusions :=
                    set_order env (user_excl ++ default_venv_patterns);
                  includes := user_incl |} in
    traverse_and_concatenate cfg n current_path st
    = excluded_at cfg (isdir n) current_path st.
Proof.
  intros env user_excl user_incl base n current_path st Hset Hend cfg.
  apply traverse_excluded. unfold should_exclude. apply existsb_exists.
  destruct Hend as [Hend|Hend]; apply endswith_suffix in Hend as [a ->].
  - exists ("*.pyc" : str). split.
    + apply Hset, in_or_app. right. simpl. tauto.
    + apply orb_true_iff. left. apply orb_true_iff. left.
      unfold Fnmatch.fnmatch.
      change (Fnmatch.translate "*.pyc")
        with (Fnmatch.Star :: map Fnmatch.Lit (".pyc" : str)).
      apply matches_star. now rewrite matches_literal.
  - exists ("**/site-packages" : str). split.
    + apply Hset, in_or_app. right. simpl. tauto.
    + apply orb_true_iff. left. apply orb_true_iff. left.
      unfold Fnmatch.fnmatch.
      change (Fnmatch.translate "**/site-packages")
        with (Fnmatch.Star :: Fnmatch.Star
              :: map Fnmatch.Lit ("/site-packages" : str)).
      apply matches_star. apply (matches_star _ []).
      now rewrite matches_literal.
Qed.

Lemma wildcard_defaults_prune_witness :
  sink (traverse_and_concatenate
          {| cwd := "/work"; base_folder := "a";
             exclusions := default_venv_patterns; includes := [] |}
          (File (text_file "cache")) "a/m.pyc" empty_state) = [].
Proof.
  exact (f_equal sink
           (wildcard_defaults_prune plain_env [] [] "a"
              (File (text_file "cache")) "a/m.pyc" empty_state
              plain_env_lists_the_set (or_introl eq_refl))).
Defined.
(** ** Include patterns do not prune directories *)

Lemma produced_eq (a b : enc_state) :
  produced a = produced b ->
  sink a = sink b /\ processed_files a = processed_files b
  /\ skipped_files a = skipped_files b /\ excluded_items a = excluded_items b.
Proof. unfold produced. intros [= H1 H2 H3 H4]. auto. Qed.

Lemma produced_print (e : list event) (st : enc_state) :
  produced (enc_print e st) = produced st.
Proof. reflexivity. Qed.

Lemma produced_write_file (cwd file_path base_folder : str) (f : file)
    (a b : enc_state) :
  produced a = produced b ->
  produced (write_file_to_output cwd file_path base_folder f a)
  = produced (write_file_to_output cwd file_path base_folder f b).
Proof.
  intros H. apply produced_eq in H as (H1 & H2 & H3 & H4).
  unfold write_file_to_output.
  destruct (read_with file_path f encodings_to_try) as [[content|] evs];
    unfold produced; simpl; now rewrite H1, H2, H3, H4.
Qed.

Lemma produced_children (current_path : str)
    (items : list (str * (str -> enc_state -> enc_state))) :
  Forall
    (fun item =>
       forall p a b, produced a = produced b ->
                     produced (snd item p a) = produced (snd item p b))
    items ->
  forall a b,
    produced a = produced b ->
    produced (visit_children current_path items a)
    = produced (visit_children current_path items b).
Proof.
  intros Hitems. unfold visit_children.
  apply (Permutation_Forall (Permutation_sym (sorted_permutation items)))
    in Hitems.
  induction Hitems as [|item rest Hitem _ IH]; intros a b Hab; simpl;
    [exact Hab|].
  now apply IH, Hitem.
Qed.

Lemma produced_visit (cfg : config)
    (v : view (str -> enc_state -> enc_state)) (current_path : str)
    (a b : enc_state) :
  match v with
  | At_dir (Some items) =>
      Forall
        (fun item =>
           forall p a b, produced a = produced b ->
                         produced (snd item p a) = produced (snd item p b))
        items
  | _ => True
  end ->
  produced a = produced b ->
  produced (visit cfg v current_path a) = produced (visit cfg v current_path b).
Proof.
  intros Hv Hab. pose proof (produced_eq a b Hab) as (H1 & H2 & H3 & H4).
  unfold visit.
  destruct (should_exclude current_path (exclusions cfg) (view_is_dir v)).
  { unfold produced. simpl. now rewrite H1, H2, H3, H4. }
  destruct (match includes cfg with [] => false | _ :: _ => true end
            && negb (should_include current_path (includes cfg)
                       (view_is_dir v))).
  - destruct v as [[items|]|f|]; trivial. now apply produced_children.
  - destruct v as [[items|]|f|]; trivial.
    + now apply produced_children.
    + destruct (is_text_file current_path f) as [[|] evs].
      * apply produced_write_file. unfold produced. simpl.
        now rewrite H1, H2, H3, H4.
      * unfold produced. simpl. now rewrite H1, H2, H3, H4.
Qed.

(** What a traversal produces does not depend on the messages printed
    before it. *)
Lemma produced_traverse (cfg : config) :
  forall n current_path a b,
    produced a = produced b ->
    produced (traverse_and_concatenate cfg n current_path a)
    = produced (traverse_and_concatenate cfg n current_path b).
Proof.
  induction n as [f| | |l IH] using node_ind_deep; intros current_path a b Hab.
  - simpl. now apply produced_visit.
  - simpl. now apply produced_visit.
  - simpl. now apply produced_visit.
  - rewrite !traverse_dir. apply produced_visit; [|exact Hab]. simpl.
    apply Forall_map.
    apply (Forall_impl _ (P := fun e => forall current_path a b,
               produced a = produced b ->
               produced (traverse_and_concatenate cfg (snd e) current_path a)
               = produced (traverse_and_concatenate cfg (snd e) current_path b)));
      [|exact IH].
    intros e He. exact He.
Qed.

Lemma insert_by_name_map {A B : Type} (g : A -> B) (e : str * A)
    (l : list (str * A)) :
  insert_by_name (fst e, g (snd e)) (map (fun x => (fst x, g (snd x))) l)
  = map (fun x => (fst x, g (snd x))) (insert_by_name e l).
Proof.
  induction l as [|h l IH]; simpl; [reflexivity|].
  destruct (str_leb (fst e) (fst h)); simpl; [reflexivity|].
  now rewrite IH.
Qed.

Lemma sorted_map {A B : Type} (g : A -> B) (l : list (str * A)) :
  sorted (map (fun x => (fst x, g (snd x))) l)
  = map (fun x => (fst x, g (snd x))) (sorted l).
Proof.
  induction l as [|h l IH]; simpl; [reflexivity|].
  now rewrite IH, insert_by_name_map.
Qed.

Lemma visit_children_walk (cfg : config) (current_path : str)
    (l : list (str * node)) (st : enc_state) :
  visit_children current_path
    (map (fun e => (fst e, traverse_and_concatenate cfg (snd e))) l) st
  = walk cfg current_path l st.
Proof.
  unfold visit_children, walk. rewrite sorted_map.
  generalize (sorted l) st. clear l st.
  induction l as [|e l IH]; intros st; simpl; [reflexivity|]. apply IH.
Qed.

Lemma produced_walk (cfg : config) (current_path : str)
    (l : list (str * node)) (a b : enc_state) :
  produced a = produced b ->
  produced (walk cfg current_path l a) = produced (walk cfg current_path l b).
Proof.
  unfold walk. generalize (sorted l). clear l. intros l. revert a b.
  induction l as [|e l IH]; intros a b Hab; simpl; [exact Hab|].
  now apply IH, produced_traverse.
Qed.

(** X13: include patterns do not prune directories.  A directory that no
    exclusion pattern matches is walked whether or not it matches an
    include pattern: what the traversal produces for it (the output and the
    sets of processed, skipped and excluded paths) is what the traversals
    of its entries, taken in sorted order, produce one after the other. *)
Theorem unmatched_directories_are_walked :
  forall cfg l current_path st,
    should_exclude current_path (exclusions cfg) true = false ->
    produced (traverse_and_concatenate cfg (Dir (Some l)) current_path st)
    = produced (walk cfg current_path l st).
Proof.
  intros cfg l current_path st Hex. rewrite traverse_dir. simpl option_map.
  unfold visit. simpl view_is_dir. rewrite Hex.
  destruct (match includes cfg with [] => false | _ :: _ => true end
            && negb (should_include current_path (includes cfg) true)).
  - now rewrite visit_children_walk.
  - rewrite visit_children_walk. now apply produced_walk.
Qed.

Lemma unmatched_directories_are_walked_witness :
  sink (traverse_and_concatenate
          {| cwd := "/work"; base_folder := "a"; exclusions := [];
             includes := ["*.py" : str] |}
          (Dir (Some [("x.py" : str, File (text_file "print(1)"))]))
          "a" empty_state)
  = entry_text "a/x.py" "python" "print(1)".
Proof.
  pose proof (unmatched_directories_are_walked
                {| cwd := "/work"; base_folder := "a"; exclusions := [];
                   includes := ["*.py" : str] |}
                [("x.py" : str, File (text_file "print(1)"))]
                "a" empty_state eq_refl) as H.
  apply produced_eq in H as (H & _). rewrite H. reflexivity.
Defined.
(** ** The header path of a file found in a walk *)

Lemma split_on_sep_free (s : str) :
  sep_free s = true -> split_on Path.sep s = [s].
Proof.
  unfold sep_free. induction s as [|c s IH]; intros H; [reflexivity|].
  cbn [existsb] in H. apply negb_true_iff, orb_false_iff in H as [Hc H].
  cbn [split_on]. rewrite (Ascii.eqb_sym c), Hc.
  rewrite IH by (now apply negb_true_iff). reflexivity.
Qed.

Lemma split_on_all_sep_free (s : str) :
  Forall (fun w => sep_free w = true) (split_on Path.sep s).
Proof.
  induction s as [|c s IH]; cbn [split_on]; [now repeat constructor|].
  destruct (Ascii.eqb c Path.sep) eqn:E; [now constructor|].
  destruct (split_on Path.sep s) as [|w ws]; [repeat constructor|].
  - unfold sep_free. cbn [existsb]. now rewrite (Ascii.eqb_sym Path.sep), E.
  - inversion IH as [|? ? Hw Hws]; subst. constructor; [|exact Hws].
    unfold sep_free in *. cbn [existsb].
    now rewrite (Ascii.eqb_sym Path.sep), E.
Qed.

Lemma component_parts (name : str) :
  component name = true ->
  plain name = true /\ name <> ".." /\ sep_free name = true.
Proof.
  unfold component. intros H. apply andb_true_iff in H as [H H3].
  apply andb_true_iff in H as [H1 H2].
  apply negb_true_iff, str_eqb_neq in H2. auto.
Qed.

Lemma component_not_abs (name : str) :
  component name = true -> Path.isabs name = false.
Proof.
  intros H. apply component_parts in H as (_ & _ & H).
  destruct name as [|c name]; [reflexivity|].
  unfold sep_free in H. cbn [existsb] in H.
  apply negb_true_iff, orb_false_iff in H as [H _].
  unfold Path.isabs. cbn [startswith list_ascii_of_string].
  unfold Path.sep in H. now rewrite H.
Qed.

Lemma join_abs (a b : str) :
  (if Path.isabs b then b else Path.join a b) = Path.join a b.
Proof. unfold Path.isabs, Path.join. now destruct (startswith "/" b). Qed.

Lemma join_glue (a b : str) :
  Path.join a b = if startswith "/" b then b else glue a ++ b.
Proof.
  unfold Path.join, glue. destruct (startswith "/" b); [reflexivity|].
  destruct a as [|x a]; [reflexivity|].
  destruct (endswith "/" (x :: a)); [reflexivity|].
  now rewrite <- app_assoc.
Qed.

Lemma endswith_app_nonempty (a b : str) :
  b <> [] -> endswith "/" (a ++ b) = endswith "/" b.
Proof.
  intros Hb. unfold endswith. rewrite rev_app_distr.
  change (rev "/") with ["/"%char].
  destruct (rev b) as [|c r] eqn:E.
  - apply (f_equal (@rev ascii)) in E. rewrite rev_involutive in E.
    now destruct Hb.
  - reflexivity.
Qed.

Lemma startswith_app_nonempty (a b : str) :
  a <> [] -> startswith "/" (a ++ b) = startswith "/" a.
Proof. destruct a as [|c a]; [now intros []|reflexivity]. Qed.

Lemma glue_app (a b : str) : b <> [] -> glue (a ++ b) = a ++ glue b.
Proof.
  intros Hb. unfold glue.
  rewrite (endswith_app_nonempty a b Hb).
  destruct b as [|y b]; [now destruct Hb|].
  destruct (a ++ y :: b) eqn:E; [now destruct a|]. rewrite <- E.
  destruct (endswith "/" (y :: b)); [reflexivity|].
  now rewrite <- app_assoc.
Qed.

Lemma glue_glue (a : str) : glue (glue a) = glue a.
Proof.
  unfold glue at 2. destruct a as [|x a]; [reflexivity|].
  destruct (endswith "/" (x :: a)) eqn:E.
  - unfold glue. now rewrite E.
  - rewrite glue_app by discriminate. unfold glue at 2. now rewrite E.
Qed.

Lemma join_assoc (a b n : str) :
  Path.isabs n = false ->
  Path.join a (Path.join b n) = Path.join (Path.join a b) n.
Proof.
  unfold Path.isabs. intros Hn. rewrite !join_glue, Hn.
  destruct (startswith "/" b) eqn:Eb.
  - replace (startswith "/" (glue b ++ n)) with true; [reflexivity|].
    symmetry. destruct b as [|y b]; [discriminate|].
    rewrite startswith_app_nonempty; [|unfold glue; destruct (endswith "/" (y :: b)); discriminate].
    unfold glue. destruct (endswith "/" (y :: b)); exact Eb.
  - destruct b as [|y b].
    + change (glue [] ++ n) with n. rewrite Hn, app_nil_r.
      now rewrite glue_glue.
    + replace (startswith "/" (glue (y :: b) ++ n)) with false.
      * rewrite (glue_app _ (y :: b)) by discriminate.
        now rewrite <- app_assoc.
      * symmetry.
        rewrite startswith_app_nonempty; [|unfold glue; destruct (endswith "/" (y :: b)); discriminate].
        unfold glue. destruct (endswith "/" (y :: b)); exact Eb.
Qed.

Lemma join_walk (a base : str) (names : list str) :
  forallb component names = true ->
  Path.join a (fold_left Path.join names base)
  = fold_left Path.join names (Path.join a base).
Proof.
  revert base. induction names as [|n names IH]; intros base H;
    [reflexivity|].
  cbn [forallb] in H. apply andb_true_iff in H as [Hn H].
  cbn [fold_left]. rewrite (IH _ H).
  now rewrite join_assoc by (now apply component_not_abs).
Qed.

(** Going down by names adds them to the components of a path. *)
Lemma resolved_walk (names : list str) :
  forallb component names = true ->
  forall base,
    Path.initial_slashes (fold_left Path.join names base)
    = Path.initial_slashes base
    /\ Path.norm_comps (fold_left Path.join names base)
       = Path.norm_comps base ++ names.
Proof.
  induction names as [|n names IH]; intros H base.
  - simpl. now rewrite app_nil_r.
  - cbn [forallb] in H. apply andb_true_iff in H as [Hn H].
    cbn [fold_left]. destruct (IH H (Path.join base n)) as [Hi Hc].
    pose proof (component_parts n Hn) as (Hplain & Hdd & Hfree).
    pose proof (component_not_abs n Hn) as Habs.
    rewrite Hi, Hc. split.
    + now apply initial_slashes_join.
    + rewrite norm_comps_join; trivial.
      * rewrite (split_on_sep_free n Hfree). cbn [filter]. rewrite Hplain.
        now rewrite <- app_assoc.
      * rewrite (split_on_sep_free n Hfree). intros [Hin|[]].
        now apply Hdd.
Qed.

Lemma norm_step_keeps (P : str -> Prop) (initial : nat) (acc : list str)
    (comp : str) :
  Forall P acc -> (comp <> [] -> P comp) ->
  Forall P (Path.norm_step initial acc comp).
Proof.
  intros Hacc Hcomp. unfold Path.norm_step.
  destruct (str_eqb comp []) eqn:E; [exact Hacc|]. cbn [orb].
  apply str_eqb_neq in E.
  destruct (str_eqb comp "."); [exact Hacc|].
  destruct (_ || _).
  - apply Forall_app. split; [exact Hacc|]. constructor; auto.
  - clear Hcomp. induction Hacc as [|x l Hx Hl IH]; [constructor|].
    simpl. destruct l; [constructor|]. constructor; assumption.
Qed.

(** The components [normpath] keeps are not empty and hold no separator. *)
Lemma norm_comps_names (path : str) :
  Forall (fun c => c <> [] /\ sep_free c = true) (Path.norm_comps path).
Proof.
  unfold Path.norm_comps.
  assert (H : forall comps acc,
             Forall (fun w => sep_free w = true) comps ->
             Forall (fun c => c <> [] /\ sep_free c = true) acc ->
             Forall (fun c => c <> [] /\ sep_free c = true)
               (fold_left (Path.norm_step (Path.initial_slashes path))
                  comps acc)).
  { induction comps as [|comp comps IH]; intros acc Hcomps Hacc; simpl;
      [exact Hacc|].
    inversion Hcomps as [|? ? Hc Hcs]; subst.
    apply IH; [exact Hcs|]. apply norm_step_keeps; [exact Hacc|]. auto. }
  apply H; [apply split_on_all_sep_free|constructor].
Qed.

Lemma split_on_join_with (comps : list str) :
  comps <> [] ->
  Forall (fun c => sep_free c = true) comps ->
  split_on Path.sep (join_with "/" comps) = comps.
Proof.
  intros Hne H. induction H as [|w ws Hw Hws IH]; [now destruct Hne|].
  destruct ws as [|w' ws].
  - simpl. now apply split_on_sep_free.
  - change (join_with "/" (w :: w' :: ws))
      with (w ++ Path.sep :: join_with "/" (w' :: ws)).
    rewrite split_on_app, IH by discriminate.
    now rewrite split_on_sep_free.
Qed.

Lemma split_on_slashes (k : nat) (s : str) :
  filter Path.nonempty (split_on Path.sep (repeat Path.sep k ++ s))
  = filter Path.nonempty (split_on Path.sep s).
Proof.
  induction k as [|k IH]; [reflexivity|].
  change (repeat Path.sep (S k) ++ s)
    with (([] : str) ++ Path.sep :: (repeat Path.sep k ++ s)).
  rewrite split_on_app, filter_app, IH. reflexivity.
Qed.

Lemma filter_nonempty_names (comps : list str) :
  Forall (fun c => c <> [] /\ sep_free c = true) comps ->
  filter Path.nonempty comps = comps.
Proof.
  induction 1 as [|c comps [Hc _] _ IH]; [reflexivity|].
  cbn [filter]. unfold Path.nonempty at 1.
  apply str_eqb_neq in Hc. rewrite Hc. simpl. now rewrite IH.
Qed.

(** The components of a normalized absolute path are those [normpath]
    kept. *)
Lemma split_normpath (path : str) :
  Path.isabs path = true ->
  filter Path.nonempty (split_on Path.sep (Path.normpath path))
  = Path.norm_comps path.
Proof.
  intros Habs. rewrite normpath_by_comps.
  assert (Hk : exists k, Path.initial_slashes path = S k).
  { unfold Path.initial_slashes. unfold Path.isabs in Habs. rewrite Habs.
    destruct (_ && _); eauto. }
  destruct Hk as [k Hk]. rewrite Hk. cbn zeta.
  change (repeat Path.sep (S k) ++ join_with "/" (Path.norm_comps path))
    with (Path.sep :: (repeat Path.sep k
                       ++ join_with "/" (Path.norm_comps path))).
  cbv iota.
  change (Path.sep :: (repeat Path.sep k
                       ++ join_with "/" (Path.norm_comps path)))
    with (repeat Path.sep (S k) ++ join_with "/" (Path.norm_comps path)).
  rewrite split_on_slashes.
  pose proof (norm_comps_names path) as Hnames.
  destruct (Path.norm_comps path) as [|c comps] eqn:E; [reflexivity|].
  rewrite split_on_join_with; [|discriminate|].
  - now apply filter_nonempty_names.
  - apply (Forall_impl _ (P := fun c => c <> [] /\ sep_free c = true));
      [|exact Hnames].
    now intros ? [_ ?].
Qed.

Lemma commonprefix_len_app (a b : list str) :
  Path.commonprefix_len a (a ++ b) = length a.
Proof.
  induction a as [|x a IH]; simpl; [now destruct b|].
  now rewrite str_eqb_refl, IH.
Qed.

Lemma join_is_abs (cwd base : str) :
  Path.isabs cwd = true -> Path.isabs (Path.join cwd base) = true.
Proof.
  unfold Path.isabs, Path.join. intros H.
  destruct (startswith "/" base) eqn:E; [exact E|].
  destruct cwd as [|c cwd]; [discriminate|].
  destruct (endswith "/" (c :: cwd)); exact H.
Qed.

(** The path of a file found by going down from [start] by names,
    relative to [start]: the names. *)
Lemma relpath_walk (cwd start : str) (names : list str) :
  Path.isabs cwd = true -> names <> [] ->
  forallb component names = true ->
  Path.relpath cwd (fold_left Path.join names start) start
  = join_with "/" names.
Proof.
  intros Hcwd Hne Hnames. unfold Path.relpath, Path.abspath.
  rewrite !join_abs, (join_walk cwd start names Hnames).
  pose proof (join_is_abs cwd start Hcwd) as Habs.
  destruct (resolved_walk names Hnames (Path.join cwd start)) as [Hi Hc].
  assert (Habs' : Path.isabs (fold_left Path.join names (Path.join cwd start))
                  = true).
  { unfold Path.isabs in *. unfold Path.initial_slashes in Hi.
    rewrite Habs in Hi.
    destruct (startswith "/" (fold_left _ _ _)); [reflexivity|].
    now destruct (_ && _). }
  rewrite (split_normpath _ Habs), (split_normpath _ Habs'), Hc.
  rewrite commonprefix_len_app, Nat.sub_diag. cbn [repeat app].
  rewrite skipn_app, Nat.sub_diag, skipn_all. cbn [skipn app].
  destruct names; [now destruct Hne|reflexivity].
Qed.

Lemma normpath_names (names : list str) :
  names <> [] -> forallb component names = true ->
  Path.normpath (join_with "/" names) = join_with "/" names
  /\ Path.isabs (join_with "/" names) = false.
Proof.
  intros Hne Hnames.
  assert (Habs : Path.isabs (join_with "/" names) = false).
  { destruct names as [|n names]; [now destruct Hne|].
    cbn [forallb] in Hnames. apply andb_true_iff in Hnames as [Hn _].
    pose proof (component_not_abs n Hn) as Hnabs.
    pose proof (component_parts n Hn) as (Hplain & _ & _).
    apply plain_not_empty in Hplain.
    unfold Path.isabs in *.
    destruct names; [exact Hnabs|].
    change (join_with "/" (n :: s :: names))
      with (n ++ "/" ++ join_with "/" (s :: names)).
    now rewrite (startswith_app_nonempty n _ Hplain). }
  split; [|exact Habs].
  assert (Hfree : Forall (fun c => sep_free c = true) names).
  { apply Forall_forall. intros n Hn.
    rewrite forallb_forall in Hnames.
    now apply component_parts, Hnames. }
  assert (Hplain : filter plain names = names /\ ~ In (".." : str) names).
  { clear Hne Habs Hfree. induction names as [|n names IH]; [auto|].
    cbn [forallb] in Hnames. apply andb_true_iff in Hnames as [Hn H].
    destruct (IH H) as [IH1 IH2].
    apply component_parts in Hn as (Hp & Hdd & _).
    cbn [filter]. rewrite Hp, IH1. split; [reflexivity|].
    intros [Hin|Hin]; [now apply Hdd|contradiction]. }
  destruct Hplain as [Hplain Hdd].
  rewrite normpath_by_comps. unfold Path.norm_comps, Path.initial_slashes.
  unfold Path.isabs in Habs. rewrite Habs.
  rewrite (split_on_join_with names Hne Hfree).
  rewrite norm_fold_no_dotdot by exact Hdd. rewrite Hplain.
  cbn [repeat app].
  destruct (join_with "/" names) eqn:E; [|reflexivity].
  destruct names as [|n [|n' names]]; [now destruct Hne| |].
  - simpl in E. subst n. discriminate.
  - change (join_with "/" (n :: n' :: names))
      with (n ++ "/" ++ join_with "/" (n' :: names)) in E.
    now destruct n.
Qed.

Lemma sep_free_endswith (b : str) :
  existsb (Ascii.eqb Path.sep) b = false -> endswith "/" b = false.
Proof.
  intros H. destruct (endswith "/" b) eqn:E; [|reflexivity].
  apply endswith_suffix in E as [r ->].
  change (r ++ "/") with (r ++ Path.sep :: []) in H.
  now rewrite sep_free_app in H.
Qed.

(** A base name joined to names below it. *)
Lemma join_base_names (base_folder_name : str) (names : list str) :
  names <> [] -> forallb component names = true ->
  base_folder_name <> [] ->
  existsb (Ascii.eqb Path.sep) base_folder_name = false ->
  Path.join base_folder_name (join_with "/" names)
  = base_folder_name ++ "/" ++ join_with "/" names.
Proof.
  intros Hne Hnames Hb Hfree.
  destruct (normpath_names names Hne Hnames) as [_ Habs].
  unfold Path.join. unfold Path.isabs in Habs. rewrite Habs.
  rewrite (sep_free_endswith _ Hfree).
  destruct base_folder_name; [now destruct Hb|reflexivity].
Qed.

(** X14: the header of a file found in a walk.  For a file reached from
    the base folder by going down through names, the header path is the
    base name of the base folder, then the names, joined by slashes; when
    the base folder has no name of its own (it is [.] or the root), the
    header path is the names alone. *)
Theorem header_path_of_walked_file :
  forall cwd base names,
    Path.isabs cwd = true -> names <> [] ->
    forallb component names = true ->
    header_path cwd (fold_left Path.join names base) base
    = let base_folder_name := Path.basename (Path.normpath base) in
      if Path.nonempty base_folder_name
         && negb (str_eqb base_folder_name ".")
      then base_folder_name ++ "/" ++ join_with "/" names
      else join_with "/" names.
Proof.
  intros cwd base names Hcwd Hne Hnames. unfold header_path.
  rewrite (relpath_walk cwd base names Hcwd Hne Hnames). cbn zeta.
  destruct (Path.nonempty (Path.basename (Path.normpath base))
            && negb (str_eqb (Path.basename (Path.normpath base)) "."))
    eqn:E.
  - apply andb_true_iff in E as [E _].
    apply negb_true_iff, str_eqb_neq in E.
    apply join_base_names; trivial. apply basename_sep_free.
  - now destruct (normpath_names names Hne Hnames).
Qed.

Lemma header_path_of_walked_file_witness :
  header_path "/work" "src/pkg/mod/a.py" "src/pkg" = "pkg/mod/a.py".
Proof.
  exact (header_path_of_walked_file "/work" "src/pkg"
           ["mod" : str; "a.py" : str] eq_refl
           ltac:(discriminate) eq_refl).
Defined.
(** ** The directories the decoder makes *)

Lemma cut_at_last_sep (p : str) :
  (rfind_char Path.sep p = None /\ sep_free p = true)
  \/ exists h t, p = h ++ Path.sep :: t /\ sep_free t = true
                 /\ rfind_char Path.sep p = Some (length h).
Proof.
  induction p as [|x p IH]; [now left|].
  cbn [rfind_char]. destruct IH as [[Hnone Hfree]|(h & t & -> & Hfree & Hsome)].
  - rewrite Hnone. destruct (Ascii.eqb x Path.sep) eqn:E.
    + right. apply Ascii.eqb_eq in E. subst x. now exists [], p.
    + left. split; [reflexivity|]. unfold sep_free in *. cbn [existsb].
      now rewrite (Ascii.eqb_sym Path.sep), E.
  - right. rewrite Hsome. now exists (x :: h), t.
Qed.

Lemma firstn_length_app {A : Type} (a b : list A) (x : A) :
  firstn (S (length a)) (a ++ x :: b) = a ++ [x]
  /\ skipn (S (length a)) (a ++ x :: b) = b.
Proof.
  induction a as [|y a [IH1 IH2]]; [now split|].
  split; simpl in *; [now rewrite IH1|exact IH2].
Qed.

(** A path is its head, up to the last separator, and its base name. *)
Lemma head_and_basename (p : str) :
  let head := firstn (after_last Path.sep p) p in
  p = head ++ Path.basename p
  /\ sep_free (Path.basename p) = true
  /\ (head = [] \/ exists h, head = h ++ [Path.sep]).
Proof.
  unfold Path.basename, after_last.
  destruct (cut_at_last_sep p) as [[Hnone Hfree]|(h & t & -> & Hfree & Hsome)].
  - rewrite Hnone. simpl. auto.
  - rewrite Hsome.
    destruct (firstn_length_app h t Path.sep) as [H1 H2].
    rewrite H1, H2. repeat split; trivial.
    + now rewrite <- app_assoc.
    + right. now exists h.
Qed.

Lemma filter_plain_split_slash (h : str) :
  filter plain (split_on Path.sep (h ++ [Path.sep]))
  = filter plain (split_on Path.sep h).
Proof.
  rewrite (split_on_app Path.sep h []), filter_app. simpl.
  apply app_nil_r.
Qed.

Lemma filter_plain_split_slashes (s : str) (m : nat) :
  filter plain (split_on Path.sep (s ++ repeat Path.sep m))
  = filter plain (split_on Path.sep s).
Proof.
  revert s. induction m as [|m IH]; intros s; simpl.
  - now rewrite app_nil_r.
  - change (s ++ Path.sep :: repeat Path.sep m)
      with (s ++ [Path.sep] ++ repeat Path.sep m).
    rewrite app_assoc, IH. apply filter_plain_split_slash.
Qed.

Lemma rstrip_char_spec (c : ascii) (s : str) :
  exists m, s = rstrip_char c s ++ repeat c m.
Proof.
  unfold rstrip_char.
  set (go := fix go (r : str) : str :=
               match r with
               | [] => []
               | x :: r' => if Ascii.eqb x c then go r' else r
               end).
  assert (H : forall r, exists m, r = repeat c m ++ go r).
  { induction r as [|x r [m IH]]; [now exists 0|].
    simpl. destruct (Ascii.eqb x c) eqn:E.
    - apply Ascii.eqb_eq in E. subst x. exists (S m). simpl. now rewrite <- IH.
    - now exists 0. }
  destruct (H (rev s)) as [m Hm]. exists m.
  rewrite <- (rev_involutive s) at 1. rewrite Hm at 1.
  rewrite rev_app_distr. f_equal.
  clear. induction m as [|m IH]; [reflexivity|].
  simpl. rewrite IH. clear. induction m as [|m IH]; [reflexivity|].
  simpl. now rewrite <- IH.
Qed.

Lemma initial_slashes_lead (s : str) :
  Path.initial_slashes s
  = match lead s with
    | 0 => 0
    | 2 => 2
    | _ => 1
    end.
Proof.
  unfold Path.initial_slashes, Path.sep.
  destruct s as [|a [|b [|c s]]]; cbn [startswith list_ascii_of_string lead];
    unfold Path.sep;
    repeat match goal with
           | |- context [Ascii.eqb "/"%char ?x] =>
               destruct (Ascii.eqb "/"%char x)
           end; reflexivity.
Qed.

Lemma lead_all (s : str) :
  forallb (Ascii.eqb Path.sep) s = true -> forall t, lead (s ++ t) = length s + lead t.
Proof.
  induction s as [|c s IH]; intros H t; [reflexivity|].
  cbn [forallb] in H. apply andb_true_iff in H as [Hc H].
  cbn [app lead length]. now rewrite Hc, IH.
Qed.

Lemma lead_app (s t : str) :
  forallb (Ascii.eqb Path.sep) s = false -> lead (s ++ t) = lead s.
Proof.
  induction s as [|c s IH]; intros H; [discriminate|].
  cbn [forallb] in H. cbn [app lead].
  destruct (Ascii.eqb Path.sep c); [|reflexivity].
  now rewrite IH.
Qed.

Lemma lead_sep_free (t : str) : sep_free t = true -> lead t = 0.
Proof.
  unfold sep_free. destruct t as [|c t]; [reflexivity|].
  cbn [existsb lead]. intros H.
  apply negb_true_iff, orb_false_iff in H as [H _]. now rewrite H.
Qed.

Lemma forallb_app_false {A : Type} (f : A -> bool) (a b : list A) :
  forallb f (a ++ b) = false -> forallb f b = true -> forallb f a = false.
Proof.
  rewrite forallb_app. intros H Hb. rewrite Hb, andb_true_r in H. exact H.
Qed.

Lemma forallb_repeat (c : ascii) (m : nat) :
  forallb (Ascii.eqb c) (repeat c m) = true.
Proof.
  induction m as [|m IH]; [reflexivity|].
  simpl. now rewrite Ascii.eqb_refl.
Qed.

(** [os.path.dirname] read lexically: the directory of a path keeps its
    leading slashes, and the path is its directory followed by its base
    name. *)
Lemma resolved_dirname (p : str) :
  Path.initial_slashes (Path.dirname p) = Path.initial_slashes p
  /\ Path.norm_comps p
     = Path.norm_step (Path.initial_slashes p)
         (Path.norm_comps (Path.dirname p)) (Path.basename p).
Proof.
  destruct (head_and_basename p) as (Hp & Hfree & Hhead).
  set (head := firstn (after_last Path.sep p) p) in *.
  assert (Hdir : exists m, head = Path.dirname p ++ repeat Path.sep m
                           /\ lead (Path.dirname p ++ Path.basename p)
                              = lead (Path.dirname p)
                           /\ lead p = lead (Path.dirname p)).
  { unfold Path.dirname. fold head.
    destruct (negb (str_eqb head []) && negb (forallb (Ascii.eqb Path.sep) head))
      eqn:E.
    - destruct (rstrip_char_spec Path.sep head) as [m Hm]. exists m.
      split; [exact Hm|].
      apply andb_true_iff in E as [_ E]. apply negb_true_iff in E.
      assert (Hns : forallb (Ascii.eqb Path.sep) (rstrip_char Path.sep head)
                    = false).
      { rewrite Hm in E. apply (forallb_app_false _ _ _ E).
        apply forallb_repeat. }
      split; [now apply lead_app|].
      rewrite Hp, Hm at 1. rewrite <- app_assoc. now apply lead_app.
    - exists 0. rewrite app_nil_r. split; [reflexivity|].
      assert (Hall : forallb (Ascii.eqb Path.sep) head = true).
      { destruct head; [reflexivity|]. simpl in E.
        now apply negb_false_iff in E. }
      assert (Hl : lead (head ++ Path.basename p) = lead head).
      { rewrite (lead_all head Hall), (lead_sep_free _ Hfree).
        rewrite <- (app_nil_r head) at 2.
        now rewrite (lead_all head Hall []). }
      split; [exact Hl|]. now rewrite Hp at 1. }
  destruct Hdir as (m & Hm & _ & Hlead).
  assert (Hi : Path.initial_slashes (Path.dirname p) = Path.initial_slashes p)
    by (now rewrite !initial_slashes_lead, Hlead).
  split; [exact Hi|].
  unfold Path.norm_comps. rewrite Hi.
  set (i := Path.initial_slashes p).
  rewrite (norm_fold_filter i (split_on Path.sep (Path.dirname p))).
  rewrite <- (filter_plain_split_slashes (Path.dirname p) m), <- Hm.
  destruct Hhead as [Hnil|[h Hh]].
  - rewrite Hnil in *. simpl in Hp. rewrite <- Hp.
    now rewrite (split_on_sep_free p) by (now rewrite Hp).
  - rewrite Hp at 1. rewrite Hh, <- app_assoc.
    change ([Path.sep] ++ Path.basename p) with (Path.sep :: Path.basename p).
    rewrite split_on_app, fold_left_app, (split_on_sep_free _ Hfree).
    rewrite filter_plain_split_slash, <- norm_fold_filter. reflexivity.
Qed.
Lemma last_split (p : str) : last (split_on Path.sep p) [] = Path.basename p.
Proof.
  destruct (head_and_basename p) as (Hp & Hfree & [Hnil|[h Hh]]).
  - rewrite Hnil in Hp. simpl in Hp. rewrite <- Hp.
    rewrite split_on_sep_free by (now rewrite Hp). reflexivity.
  - rewrite Hp at 1. rewrite Hh, <- app_assoc.
    change ([Path.sep] ++ Path.basename p) with (Path.sep :: Path.basename p).
    rewrite split_on_app, (split_on_sep_free _ Hfree).
    apply last_last.
Qed.

Lemma split_join (root rel : str) :
  Path.isabs rel = false ->
  exists before,
    split_on Path.sep (Path.join root rel) = before ++ split_on Path.sep rel.
Proof.
  unfold Path.isabs, Path.join. intros ->.
  destruct root as [|a root]; [now exists []|].
  destruct (endswith "/" (a :: root)) eqn:E.
  - apply endswith_slash in E as [r Hr]. rewrite Hr, <- app_assoc.
    exists (split_on Path.sep r). apply split_on_app.
  - exists (split_on Path.sep (a :: root)).
    apply (split_on_app Path.sep (a :: root) rel).
Qed.

Lemma last_app_nonempty {A : Type} (a b : list A) (d : A) :
  b <> [] -> last (a ++ b) d = last b d.
Proof.
  intros Hb. induction a as [|x a IH]; [reflexivity|].
  simpl. rewrite IH. destruct (a ++ b) eqn:E; [|reflexivity].
  apply app_eq_nil in E as [_ E]. now destruct Hb.
Qed.

Lemma basename_join (root rel : str) :
  Path.isabs rel = false ->
  Path.basename (Path.join root rel) = last (split_on Path.sep rel) [].
Proof.
  intros Habs. rewrite <- last_split.
  destruct (split_join root rel Habs) as [before ->].
  apply last_app_nonempty.
  destruct (split_on_nonempty Path.sep rel) as (w & ws & ->). discriminate.
Qed.

(** The directory of a path joined to a root stays under the root, when the
    path is relative and never goes up. *)
Lemma dirname_lies_under (root rel : str) :
  unsafe_path rel = false ->
  lies_under root (Path.dirname (Path.join root rel)).
Proof.
  intros H. apply unsafe_path_false in H as [Habs Hdd].
  destruct (resolved_dirname (Path.join root rel)) as [Hi Hc].
  rewrite (norm_comps_join root rel Habs Hdd) in Hc.
  rewrite (basename_join root rel Habs) in Hc.
  rewrite (initial_slashes_join root rel Habs) in Hi, Hc.
  destruct (split_on_nonempty Path.sep rel) as (w & ws & Hsplit).
  assert (Hne : split_on Path.sep rel <> []) by (rewrite Hsplit; discriminate).
  pose proof (@app_removelast_last str _ [] Hne) as Hlast.
  set (t := last (split_on Path.sep rel) []) in *.
  set (front := removelast (split_on Path.sep rel)) in *.
  assert (Ht : t <> "..").
  { intros Heq. apply Hdd. rewrite Hlast, <- Heq.
    apply in_or_app. right. now left. }
  rewrite norm_step_plain in Hc by exact Ht.
  rewrite Hlast, filter_app in Hc. cbn [filter] in Hc.
  assert (Hcomps : Path.norm_comps (Path.dirname (Path.join root rel))
                   = Path.norm_comps root ++ filter plain front).
  { destruct (plain t).
    - rewrite app_assoc in Hc. now apply app_inj_tail in Hc as [Hc _].
    - now rewrite app_nil_r in Hc. }
  split; simpl; [exact Hi|].
  exists (filter plain front). split; [exact Hcomps|]. split.
  - intros Hin. apply filter_In in Hin as [Hin _]. apply Hdd.
    rewrite Hlast. apply in_or_app. now left.
  - intros Hin. apply filter_In in Hin as [_ Hp]. discriminate.
Qed.

Lemma lies_under_itself (root : str) : lies_under root root.
Proof.
  split; [reflexivity|]. exists []. rewrite app_nil_r. now repeat split.
Qed.

Lemma slice_entry_makes_under (env : dec_env) (input_file root : str)
    (st : dec_state) (m : Re.mtch) :
  makes_under root st ->
  makes_under root (slice_entry env input_file root st m).
Proof.
  intros H. unfold slice_entry.
  destruct (unsafe_path (Path.normpath (strip (Re.group m 1)))) eqn:Hsafe;
    [exact H|].
  destruct (io env _ _); try exact H; intros d Hin; simpl in Hin;
    apply in_app_iff in Hin as [Hin|Hin]; try (now apply H);
    simpl in Hin; destruct Hin as [Hin|Hin]; try (now injection Hin as <-;
    apply dirname_lies_under); try discriminate;
    try (destruct Hin as [Hin|[]]; discriminate); now destruct Hin.
Qed.

(** X15: [slice_files] makes no directory outside the output folder: every
    [os.makedirs] of a run is for the output folder itself or for a path
    that, read lexically, lies under it. *)
Theorem directories_are_made_under_the_output_folder :
  forall env input_files output_folder st d,
    slice_files env input_files output_folder = Completed st ->
    In (Makedirs d) (ops st) ->
    lies_under output_folder d.
Proof.
  intros env input_files output_folder st d Hrun. revert d.
  change (makes_under output_folder st).
  assert (Hkeep : forall st0, makes_under output_folder st0 ->
             makes_under output_folder
               (fold_left (slice_input env output_folder) input_files st0)).
  { apply (slice_inputs_keep (makes_under output_folder));
      try (intros; assumption).
    intros. now apply slice_entry_makes_under. }
  unfold slice_files in Hrun. destruct (out_exists env).
  - injection Hrun as <-. apply Hkeep. intros d [].
  - destruct (out_creatable env); [|discriminate].
    injection Hrun as <-. apply Hkeep. intros d [Hin|[]].
    injection Hin as <-. apply lies_under_itself.
Qed.

Lemma directories_are_made_under_the_output_folder_witness :
  lies_under "out" "out/src".
Proof.
  refine (directories_are_made_under_the_output_folder
            (always_ok (entry_text "src/a.py" "python" "x = 1"))
            ["in.md" : str] "out" _ "out/src" eq_refl _).
  simpl. left. reflexivity.
Defined.
(** ** Files whose header is read back as it is *)

Lemma join_with_cons (w : str) (ws : list str) :
  ws <> [] -> join_with "/" (w :: ws) = w ++ "/" ++ join_with "/" ws.
Proof. destruct ws; [now intros []|reflexivity]. Qed.

Lemma join_with_last (l : list str) :
  l <> [] -> exists front, join_with "/" l = front ++ last l [].
Proof.
  induction l as [|w l IH]; [now intros []|]. intros _.
  destruct l as [|w' l]; [now exists []|].
  destruct (IH ltac:(discriminate)) as [front Hfront].
  rewrite join_with_cons by discriminate. rewrite Hfront.
  exists (w ++ "/" ++ front). now rewrite <- !app_assoc.
Qed.

Lemma tidy_parts (name : str) :
  tidy name = true ->
  forallb not_backtick name = true
  /\ match name with c :: _ => isspace c = false | [] => True end
  /\ match rev name with c :: _ => isspace c = false | [] => True end.
Proof.
  unfold tidy. intros H. apply andb_true_iff in H as [H H3].
  apply andb_true_iff in H as [H1 H2]. repeat split; trivial.
  - destruct name; [trivial|now apply negb_true_iff].
  - destruct (rev name); [trivial|now apply negb_true_iff].
Qed.

Lemma not_backtick_join (l : list str) :
  forallb tidy l = true -> forallb not_backtick (join_with "/" l) = true.
Proof.
  induction l as [|w l IH]; intros H; [reflexivity|].
  cbn [forallb] in H. apply andb_true_iff in H as [Hw H].
  apply tidy_parts in Hw as (Hw & _ & _).
  destruct l as [|w' l]; [exact Hw|].
  rewrite join_with_cons by discriminate.
  rewrite !forallb_app, Hw, (IH H). reflexivity.
Qed.

(** A text that neither starts nor ends with white space is its own
    strip. *)
Lemma strip_tidy (p : str) :
  match p with c :: _ => isspace c = false | [] => True end ->
  match rev p with c :: _ => isspace c = false | [] => True end ->
  strip p = p.
Proof.
  intros Hfirst Hlast. unfold strip, rstrip.
  assert (Hl : lstrip p = p).
  { destruct p as [|c p]; [reflexivity|]. simpl. now rewrite Hfirst. }
  rewrite Hl.
  assert (Hr : lstrip (rev p) = rev p).
  { destruct (rev p) as [|c r]; [reflexivity|]. simpl. now rewrite Hlast. }
  rewrite Hr. apply rev_involutive.
Qed.

Lemma strip_join (l : list str) :
  l <> [] -> forallb component l = true -> forallb tidy l = true ->
  strip (join_with "/" l) = join_with "/" l.
Proof.
  intros Hne Hcomp Htidy. apply strip_tidy.
  - destruct l as [|w l]; [now destruct Hne|].
    cbn [forallb] in Hcomp, Htidy.
    apply andb_true_iff in Hcomp as [Hw _].
    apply andb_true_iff in Htidy as [Ht _].
    apply component_parts in Hw as (Hp & _ & _). apply plain_not_empty in Hp.
    apply tidy_parts in Ht as (_ & Hfirst & _).
    destruct w as [|c w]; [now destruct Hp|].
    destruct l; [exact Hfirst|].
    rewrite join_with_cons by discriminate. exact Hfirst.
  - destruct (join_with_last l Hne) as [front ->].
    assert (Hin : In (last l []) l).
    { destruct l as [|w l]; [now destruct Hne|].
      rewrite (@app_removelast_last str (w :: l) []) at 2 by discriminate.
      apply in_or_app. right. now left. }
    rewrite forallb_forall in Hcomp, Htidy.
    pose proof (component_parts _ (Hcomp _ Hin)) as (Hp & _ & _).
    apply plain_not_empty in Hp.
    pose proof (tidy_parts _ (Htidy _ Hin)) as (_ & _ & Hlast).
    rewrite rev_app_distr.
    destruct (rev (last l [])) as [|c r] eqn:E.
    + apply (f_equal (@rev ascii)) in E. rewrite rev_involutive in E.
      now destruct Hp.
    + exact Hlast.
Qed.

(** A path made of tidy names is a header the decoder reads back as it
    is. *)
Lemma plain_header_join (l : list str) :
  l <> [] -> forallb component l = true -> forallb tidy l = true ->
  plain_header (join_with "/" l).
Proof.
  intros Hne Hcomp Htidy.
  destruct (normpath_names l Hne Hcomp) as [Hnorm Habs].
  assert (Hfree : Forall (fun c => sep_free c = true) l).
  { apply Forall_forall. intros n Hn. rewrite forallb_forall in Hcomp.
    now apply component_parts, Hcomp. }
  repeat split.
  - intros E. destruct l as [|w [|w' l]]; [now destruct Hne| |].
    + simpl in E. subst w. discriminate.
    + rewrite join_with_cons in E by discriminate. now destruct w.
  - now apply not_backtick_join.
  - now rewrite strip_join.
  - unfold unsafe_path. rewrite Habs. cbn [orb].
    rewrite (split_on_join_with l Hne Hfree).
    destruct (mem ".." l) eqn:E; [|reflexivity].
    apply mem_In in E. rewrite forallb_forall in Hcomp.
    now apply Hcomp, component_parts in E as (_ & E & _).
Qed.

(** The header path of a file reached by tidy names is made of tidy
    names. *)
Lemma header_comps_walk (cwd base : str) (names : list str) :
  Path.isabs cwd = true -> names <> [] ->
  forallb component names = true ->
  forallb tidy names = true ->
  tidy_base base ->
  exists comps,
    header_path cwd (fold_left Path.join names base) base
    = join_with "/" comps
    /\ comps <> [] /\ forallb component comps = true
    /\ forallb tidy comps = true
    /\ (comps = names
        \/ comps = Path.basename (Path.normpath base) :: names).
Proof.
  intros Hcwd Hne Hcomp Htidy Hbase. unfold tidy_base in Hbase.
  unfold header_path.
  rewrite (relpath_walk cwd base names Hcwd Hne Hcomp). cbn zeta in *.
  set (b := Path.basename (Path.normpath base)) in *.
  destruct (Path.nonempty b && negb (str_eqb b ".")) eqn:E.
  - apply andb_true_iff in E as [E1 E2].
    apply negb_true_iff in E1, E2. apply str_eqb_neq in E1, E2.
    destruct Hbase as [Hb|[Hb|[Hdd Hb]]]; [contradiction|contradiction|].
    exists (b :: names).
    rewrite (join_base_names b names Hne Hcomp E1)
      by (unfold b; apply basename_sep_free).
    rewrite <- (join_with_cons b names Hne).
    repeat split; [discriminate| | |now right].
    + cbn [forallb]. rewrite Hcomp, andb_true_r.
      unfold component, plain. apply str_eqb_neq in E1, E2, Hdd.
      rewrite E1, E2, Hdd. simpl.
      unfold sep_free, b. now rewrite basename_sep_free.
    + cbn [forallb]. now rewrite Hb, Htidy.
  - exists names. destruct (normpath_names names Hne Hcomp) as [Hnorm _].
    repeat split; trivial. now left.
Qed.

(** X16: the headers of the files of a walk are read back as they are.
    For a file reached from the base folder by going down through names
    that have no backtick and neither start nor end with white space, the
    base folder having such a name too, other than [..], or no name of its
    own, the header path is not empty, has no backtick, is unchanged by
    stripping and normalizing, and is safe: the decoder writes the file at
    that very path under its output folder. *)
Theorem walked_file_has_a_plain_header :
  forall cwd base names,
    Path.isabs cwd = true -> names <> [] ->
    forallb component names = true ->
    forallb tidy names = true ->
    tidy_base base ->
    plain_header (header_path cwd (fold_left Path.join names base) base).
Proof.
  intros cwd base names Hcwd Hne Hcomp Htidy Hbase.
  destruct (header_comps_walk cwd base names Hcwd Hne Hcomp Htidy Hbase)
    as (comps & -> & Hcomps & Hc & Ht & _).
  now apply plain_header_join.
Qed.

Lemma walked_file_has_a_plain_header_witness :
  plain_header (header_path "/work" "src/pkg/mod/my notes.txt" "src/pkg").
Proof.
  apply (walked_file_has_a_plain_header "/work" "src/pkg"
           ["mod" : str; "my notes.txt" : str] eq_refl);
    [discriminate|reflexivity|reflexivity|].
  right. right. split; [discriminate|reflexivity].
Defined.
(** ** A tidy tree comes back as it was *)

Lemma well_kept_dir (l : list (str * node)) :
  well_kept (Dir (Some l)) ->
  Forall (fun e => component (fst e) = true /\ tidy (fst e) = true
                   /\ cr_free (fst e) = true /\ well_kept (snd e)) l.
Proof.
  simpl. induction l as [|[name child] l IH]; intros H; constructor.
  - simpl. tauto.
  - apply IH. tauto.
Qed.

Lemma given_back_entries (cwd : str) (files : list source_file) :
  Forall (given_back cwd) files ->
  Forall readable (flat_map (entry_of cwd) files)
  /\ Forall (fun e => plain_header (e_path e)) (flat_map (entry_of cwd) files)
  /\ Forall (fun e => cr_free (e_path e) = true
                      /\ forallb not_space (e_language e) = true
                      /\ cr_free (e_content e) = true)
       (flat_map (entry_of cwd) files).
Proof.
  induction 1 as [|sf files (Hplain & Hpcr & Hfree) Hfiles (IH1 & IH2 & IH3)];
    simpl; [repeat split; constructor|].
  unfold entry_of at 1 3 5.
  destruct (decoded_text (src_file sf)) as [content|]; simpl;
    [|now repeat split].
  destruct Hfree as [Hfree Hcr].
  repeat split; constructor; try assumption.
  - destruct Hplain as (Hne & Hbt & _ & _).
    repeat split; simpl; try assumption.
    apply language_has_no_space.
  - repeat split; simpl; try assumption. apply language_has_no_space.
Qed.

Lemma fold_left_join_snoc (names : list str) (name base : str) :
  fold_left Path.join (names ++ [name]) base
  = Path.join (fold_left Path.join names base) name.
Proof. now rewrite fold_left_app. Qed.

Lemma cr_free_join (comps : list str) :
  forallb cr_free comps = true -> cr_free (join_with "/" comps) = true.
Proof.
  induction comps as [|w ws IH]; intros H; [reflexivity|].
  cbn [forallb] in H. apply andb_true_iff in H as [Hw H].
  destruct ws as [|w' ws]; [exact Hw|].
  rewrite join_with_cons by discriminate.
  now rewrite !cr_free_app, Hw, (IH H).
Qed.

(** The files selected in a tidy tree, walked from the base folder, are
    given back. *)
Lemma selected_given_back (cfg : config) :
  Path.isabs (cwd cfg) = true ->
  tidy_base (base_folder cfg) ->
  cr_free (Path.basename (Path.normpath (base_folder cfg))) = true ->
  forall n names,
    well_kept n ->
    forallb component names = true -> forallb tidy names = true ->
    forallb cr_free names = true ->
    names <> [] \/ isfile n = false ->
    Forall (given_back (cwd cfg))
      (selected cfg n (fold_left Path.join names (base_folder cfg))).
Proof.
  intros Hcwd Hbase Hbcr.
  induction n as [f| | |l IH] using node_ind_deep;
    intros names Hkept Hcomp Htidy Hcr Hnames.
  - simpl selected. unfold select. simpl view_is_dir.
    destruct (should_exclude _ _ _); [constructor|].
    destruct (_ && _); [constructor|].
    destruct (fst (is_text_file _ f)); [|constructor].
    constructor; [|constructor].
    destruct Hnames as [Hne|Hfile]; [|discriminate].
    destruct (header_comps_walk (cwd cfg) (base_folder cfg) names Hcwd Hne
                Hcomp Htidy Hbase) as (comps & Hhead & Hcomps & Hc & Ht & Hor).
    unfold given_back. simpl. rewrite Hhead.
    split; [now apply plain_header_join|]. split; [|exact Hkept].
    apply cr_free_join. destruct Hor as [->| ->]; [exact Hcr|].
    cbn [forallb]. now rewrite Hbcr, Hcr.
  - simpl selected. unfold select. simpl view_is_dir.
    destruct (should_exclude _ _ _); [constructor|].
    destruct (_ && _); constructor.
  - simpl selected. unfold select. simpl view_is_dir.
    destruct (should_exclude _ _ _); [constructor|].
    destruct (_ && _); constructor.
  - rewrite selected_dir. simpl option_map. unfold select. simpl view_is_dir.
    set (current_path := fold_left Path.join names (base_folder cfg)).
    assert (Hkids : Forall (given_back (cwd cfg))
                      (select_children current_path
                         (map (fun e => (fst e, selected cfg (snd e))) l))).
    { unfold select_children. apply Forall_flat_map.
      apply (Permutation_Forall
               (Permutation_sym (sorted_permutation _))).
      apply Forall_map. apply well_kept_dir in Hkept.
      rewrite Forall_forall in IH, Hkept. apply Forall_forall.
      intros [name child] Hin. simpl.
      destruct (Hkept _ Hin) as (Hc & Ht & Hr & Hk). simpl in Hc, Ht, Hr, Hk.
      unfold current_path. rewrite <- fold_left_join_snoc.
      apply (IH _ Hin); trivial.
      - rewrite forallb_app. simpl. now rewrite Hcomp, Hc.
      - rewrite forallb_app. simpl. now rewrite Htidy, Ht.
      - rewrite forallb_app. simpl. now rewrite Hcr, Hr.
      - left. now destruct names. }
    destruct (should_exclude _ _ _); [constructor|].
    destruct (_ && _); exact Hkids.
Qed.

Lemma selected_files_given_back (env : enc_env) (eff user_incl : list str)
    (paths : list str) :
  Path.isabs (working_dir env) = true ->
  Forall
    (fun p =>
       Path.normpath p = p /\ tidy_base p
       /\ cr_free (Path.basename p) = true
       /\ forall n, lookup env p = Some n -> isfile n = false /\ well_kept n)
    paths ->
  Forall (given_back (working_dir env))
    (selected_files env eff user_incl paths).
Proof.
  intros Hcwd Hpaths. unfold selected_files. apply Forall_flat_map.
  apply (Forall_impl _ (P := fun p =>
           Path.normpath p = p /\ tidy_base p
           /\ cr_free (Path.basename p) = true
           /\ forall n, lookup env p = Some n -> isfile n = false /\ well_kept n));
    [|exact Hpaths].
  intros p (Hnorm & Hbase & Hbcr & Hnode).
  destruct (lookup env p) as [n|] eqn:E; [|constructor].
  rewrite Hnorm, E. destruct (Hnode n eq_refl) as [Hfile Hkept].
  rewrite Hfile.
  assert (Hbcr' : cr_free (Path.basename (Path.normpath p)) = true)
    by (now rewrite Hnorm).
  apply (selected_given_back
           {| cwd := working_dir env; base_folder := p; exclusions := eff;
              includes := user_incl |} Hcwd Hbase Hbcr' n []); trivial.
  now right.
Qed.

(** X17: a tidy tree comes back as it was.  When the input paths are
    normalized paths of directories whose trees are kept tidy (tidy names
    without carriage return, no text with a carriage return or a line that
    starts with a fence), decoding the bundle of a completed run, read back
    in text mode, into an existing folder where every write succeeds
    writes, for each file the run selected that decodes, in order and
    nothing else, its text at the output folder joined with its header
    path. *)
Theorem tidy_trees_round_trip :
  forall env output_name paths force user_excl user_incl add_prompt enc
         denv input_file output_folder,
    Path.isabs (working_dir env) = true ->
    Forall
      (fun p =>
         Path.normpath p = p /\ tidy_base p
         /\ cr_free (Path.basename p) = true
         /\ forall n, lookup env p = Some n -> isfile n = false /\ well_kept n)
      paths ->
    concatenate_files_and_folders env output_name paths force user_excl
      user_incl add_prompt = Completed enc ->
    reads (sink enc) denv input_file ->
    exists dec,
      slice_files denv [input_file] output_folder = Completed dec
      /\ ops dec
         = flat_map (expected_ops output_folder)
             (flat_map (entry_of (working_dir env))
                (selected_files env
                   (set_order env (user_excl ++ default_venv_patterns))
                   user_incl paths)).
Proof.
  intros env output_name paths force user_excl user_incl add_prompt enc
    denv input_file output_folder Hcwd Hpaths Hrun
    (Hout & (read & Hb & Hr) & Hio).
  destruct (given_back_entries _ _
              (selected_files_given_back env
                 (set_order env (user_excl ++ default_venv_patterns))
                 user_incl paths Hcwd Hpaths)) as (Hread & Hplain & Hcr).
  unfold slice_files. rewrite Hout. eexists. split; [reflexivity|].
  rewrite ops_dec_print. cbn [fold_left]. unfold slice_input.
  rewrite Hb, Hr, (concatenate_sink _ _ _ _ _ _ _ _ Hrun).
  rewrite (bundle_read_back add_prompt _ Hcr).
  now rewrite decode_bundle.
Qed.

Lemma project_is_tidy :
  Forall
    (fun p =>
       Path.normpath p = p /\ tidy_base p
       /\ cr_free (Path.basename p) = true
       /\ forall n, lookup project_env p = Some n ->
                    isfile n = false /\ well_kept n)
    ["a" : str].
Proof.
  constructor; [|constructor]. split; [reflexivity|]. split; [|split].
  - right. right. split; [discriminate|reflexivity].
  - reflexivity.
  - intros n [= <-]. split; [reflexivity|]. simpl. tauto.
Qed.

Lemma tidy_trees_round_trip_witness :
  exists dec,
    slice_files
      (always_ok (entry_text "a/x.py" "python" "print(1)"))
      ["bundle.md" : str] "out"
    = Completed dec
    /\ ops dec = [Makedirs "out/a"; WriteFile "out/a/x.py" "print(1)"].
Proof.
  assert (Hrun : concatenate_files_and_folders project_env "bundle.md"
                   ["a" : str] false [] [] false
                 = Completed
                     {| sink := entry_text "a/x.py" "python" "print(1)";
                        processed_files := ["a/x.py" : str];
                        skipped_files := [];
                        excluded_items := ["a/.git" : str];
                        enc_printed :=
                          [Entering "."; Excluding ".git" true;
                           Adding "a/x.py";
                           Concatenation_complete "bundle.md" 0 1 0 1] |})
    by (vm_compute; reflexivity).
  assert (Hreads : reads (entry_text "a/x.py" "python" "print(1)")
                     (always_ok (entry_text "a/x.py" "python" "print(1)"))
                     "bundle.md").
  { split; [reflexivity|]. split; [|reflexivity].
    eexists. split; reflexivity. }
  exact (tidy_trees_round_trip project_env "bundle.md" ["a" : str] false [] []
           false _ (always_ok (entry_text "a/x.py" "python" "print(1)"))
           "bundle.md" "out" eq_refl project_is_tidy Hrun Hreads).
Defined.
(** ** Where a prompt ends *)

Lemma find_after_spaces (p : str) (c0 : ascii) (p' : str) (ws s : str) :
  p = c0 :: p' -> isspace c0 = false ->
  forallb isspace ws = true ->
  find p (ws ++ s) = option_map (Nat.add (length ws)) (find p s).
Proof.
  intros -> Hc0. induction ws as [|c ws IH]; intros Hws.
  - simpl app. simpl length. now destruct (find (c0 :: p') s).
  - cbn [forallb] in Hws. apply andb_true_iff in Hws as [Hc Hws].
    cbn [app find startswith].
    destruct (Ascii.eqb_spec c0 c) as [->|_]; [congruence|].
    cbn [andb]. rewrite (IH Hws).
    now destruct (find (c0 :: p') s).
Qed.

Lemma find_self (p s : str) : find p (p ++ s) = Some 0.
Proof.
  destruct p as [|c p]; [now destruct s|].
  cbn [app find]. change (c :: p ++ s) with ((c :: p) ++ s).
  now rewrite startswith_self.
Qed.

(** The first blank line of a text. *)
Lemma find_blank_line (a b : str) :
  contains (nl ++ nl) (a ++ nl) = false ->
  find (nl ++ nl) (a ++ nl ++ nl ++ b) = Some (length a).
Proof.
  induction a as [|c a IH]; intros H.
  - apply (find_self (nl ++ nl) b).
  - cbn [app contains] in H. apply orb_false_iff in H as [Hhere Hlater].
    cbn [app find].
    replace (c :: a ++ nl ++ nl ++ b) with ((c :: a ++ nl) ++ nl ++ b)
      by (simpl; now rewrite <- !app_assoc).
    rewrite startswith_app_short, Hhere
      by (simpl; rewrite length_app; simpl; lia).
    replace ((c :: a ++ nl) ++ nl ++ b) with (c :: a ++ nl ++ nl ++ b)
      by (simpl; now rewrite <- !app_assoc).
    now rewrite (IH Hlater).
Qed.

Lemma find_none (p : str) :
  forall s, contains p s = false -> find p s = None.
Proof.
  induction s as [|c s IH]; intros H; simpl in *.
  - now rewrite orb_false_r in H; rewrite H.
  - apply orb_false_iff in H as [H1 H2]. now rewrite H1, IH.
Qed.

Lemma skipn_length_app {A : Type} (a b : list A) :
  skipn (length a) (a ++ b) = b.
Proof. induction a; simpl; trivial. Qed.

Lemma marker_after_spaces (ws tail : str) :
  forallb isspace ws = true ->
  startswith prompt_marker (lstrip (ws ++ prompt_marker ++ tail)) = true
  /\ find prompt_marker (ws ++ prompt_marker ++ tail) = Some (length ws)
  /\ skipn (length ws) (ws ++ prompt_marker ++ tail) = prompt_marker ++ tail.
Proof.
  intros Hws. split; [|split].
  - rewrite lstrip_spaces by exact Hws.
    change (lstrip (prompt_marker ++ tail)) with (prompt_marker ++ tail).
    apply startswith_self.
  - rewrite (find_after_spaces prompt_marker ">"%char
               (tl prompt_marker) ws _ eq_refl eq_refl Hws).
    rewrite find_self. simpl. f_equal. lia.
  - apply skipn_length_app.
Qed.

(** X18: where the decoder takes a prompt to end.  For a text that
    starts, after white space, with the marker of the instruction prompt
    (whatever follows the marker), [slice_files] drops everything up to
    and including the first blank line after the marker and scans what
    follows it; entries before that blank line are not read.  When no
    blank line follows the marker, it warns and scans the whole text. *)
Theorem prompt_is_cut_at_first_blank_line :
  forall env input_file output_folder ws st,
    forallb isspace ws = true ->
    (forall body rest,
        contains (nl ++ nl) (prompt_marker ++ body ++ nl) = false ->
        slice_content env input_file output_folder
          (ws ++ prompt_marker ++ body ++ nl ++ nl ++ rest) st
        = scan_entries env input_file output_folder rest
            (dec_print [Skipped_prompt] st))
    /\ (forall tail,
           contains (nl ++ nl) (prompt_marker ++ tail) = false ->
           slice_content env input_file output_folder
             (ws ++ prompt_marker ++ tail) st
           = scan_entries env input_file output_folder
               (ws ++ prompt_marker ++ tail)
               (dec_print [Warning_prompt_end_not_found] st)).
Proof.
  intros env input_file output_folder ws st Hws. split.
  - intros body rest Hblank.
    destruct (marker_after_spaces ws (body ++ nl ++ nl ++ rest) Hws)
      as (Hstart & Hfind & Hskip).
    unfold slice_content. rewrite Hstart.
    unfold skip_prompt, find_from. rewrite Hfind, Hskip.
    destruct (Nat.ltb_spec
                (length (ws ++ prompt_marker ++ body ++ nl ++ nl ++ rest))
                (length ws)) as [Hlt|_];
      [rewrite length_app in Hlt; lia|].
    rewrite app_assoc, find_blank_line by (now rewrite <- app_assoc).
    cbn [option_map]. f_equal.
    replace (length ws + length (prompt_marker ++ body) + 2)
      with (length (ws ++ (prompt_marker ++ body) ++ nl ++ nl))
      by (rewrite !length_app; simpl; lia).
    replace (ws ++ (prompt_marker ++ body) ++ nl ++ nl ++ rest)
      with ((ws ++ (prompt_marker ++ body) ++ nl ++ nl) ++ rest)
      by (now rewrite <- !app_assoc).
    apply skipn_length_app.
  - intros tail Hblank.
    destruct (marker_after_spaces ws tail Hws) as (Hstart & Hfind & Hskip).
    unfold slice_content. rewrite Hstart.
    unfold skip_prompt, find_from. rewrite Hfind, Hskip.
    destruct (Nat.ltb_spec (length (ws ++ prompt_marker ++ tail)) (length ws))
      as [Hlt|_]; [rewrite length_app in Hlt; lia|].
    now rewrite (find_none _ _ Hblank).
Qed.

Lemma prompt_is_cut_at_first_blank_line_witness :
  ops (slice_content (always_ok []) "in.md" "out"
         (nl ++ prompt_marker ++ (nl ++ "> Keep the format.")
          ++ nl ++ nl ++ entry_text "kept.txt" "text" "y")
         no_ops)
  = [Makedirs "out"; WriteFile "out/kept.txt" "y"].
Proof.
  rewrite (proj1 (prompt_is_cut_at_first_blank_line (always_ok []) "in.md"
                    "out" nl no_ops eq_refl)
             (nl ++ "> Keep the format.")
             (entry_text "kept.txt" "text" "y")).
  - reflexivity.
  - reflexivity.
Defined.
(** ** Include patterns without wildcards *)

Lemma should_include_literal (item_path : str) (includes : list str)
    (is_dir : bool) :
  includes <> [] -> forallb literal includes = true ->
  should_include item_path includes is_dir = true ->
  exists pat, In pat includes
              /\ (item_path = pat \/ Path.basename item_path = pat).
Proof.
  intros Hne Hlit H. unfold should_include in H.
  destruct includes as [|i is_]; [now destruct Hne|].
  apply existsb_exists in H as (pat & Hin & H).
  exists pat. split; [exact Hin|].
  rewrite forallb_forall in Hlit.
  rewrite !fnmatch_literal in H by (now apply Hlit).
  apply orb_true_iff in H as [H|H]; apply str_eqb_eq in H; auto.
Qed.

(** X19: include patterns without wildcard characters name the files
    themselves.  When include patterns are given and none has a wildcard
    character, every file a run adds to the bundle has one of them as its
    path or as its base name: naming a directory includes none of the files
    in it. *)
Theorem literal_includes_name_the_files :
  forall env output_name paths force user_excl user_incl add_prompt st p,
    user_incl <> [] -> forallb literal user_incl = true ->
    concatenate_files_and_folders env output_name paths force user_excl
      user_incl add_prompt = Completed st ->
    In p (processed_files st) ->
    exists pat, In pat user_incl /\ (p = pat \/ Path.basename p = pat).
Proof.
  intros env output_name paths force user_excl user_incl add_prompt st p
    Hne Hlit Hrun.
  set (named := fun q : str =>
                  exists pat, In pat user_incl
                              /\ (q = pat \/ Path.basename q = pat)).
  assert (H : forall q, In q (processed_files st) ->
                        In q (processed_files empty_state) \/ named q).
  { apply (concatenate_keeps
             (fun a b => forall q, In q (processed_files b) ->
                                   In q (processed_files a) \/ named q)
             env user_excl user_incl)
      with (output_name := output_name) (paths := paths) (force := force)
           (add_prompt := add_prompt); trivial.
    - intros a q Hq. now left.
    - intros a b c Hab Hbc q Hq.
      destruct (Hbc q Hq) as [Hb|Hok]; [now apply Hab|now right].
    - intros e a q Hq. now left.
    - intros text a q Hq. now left.
    - intros cfg v current_path a [_ Hinc] Hleaf q Hq.
      destruct (visit_leaf_processed cfg v current_path q a Hleaf Hq)
        as [Ha|(-> & _ & H2 & _)]; [now left|].
      right. rewrite Hinc in H2.
      now apply (should_include_literal current_path user_incl false). }
  intros Hp. destruct (H p Hp) as [[]|Hok]. exact Hok.
Qed.

Lemma literal_includes_name_the_files_witness :
  exists pat, In pat ["x.py" : str]
              /\ (("a/x.py" : str) = pat \/ Path.basename "a/x.py" = pat).
Proof.
  refine (literal_includes_name_the_files project_env "out.md" ["a" : str]
            false [] ["x.py" : str] false _ "a/x.py" _ eq_refl eq_refl _).
  - discriminate.
  - simpl. left. reflexivity.
Defined.
(** ** Default exclusions, over a run *)

Lemma names_are_components_dir (l : list (str * node)) :
  names_are_components (Dir (Some l)) ->
  Forall (fun e => component (fst e) = true /\ names_are_components (snd e)) l.
Proof.
  simpl. induction l as [|[name child] l IH]; intros H; constructor.
  - simpl. tauto.
  - apply IH. tauto.
Qed.

(** The base name of a path that ends with a name is the name. *)
Lemma basename_component (start name : str) :
  component name = true -> Path.basename (Path.join start name) = name.
Proof.
  intros H. rewrite basename_join by (now apply component_not_abs).
  apply component_parts in H as (_ & _ & H).
  now rewrite (split_on_sep_free name H).
Qed.

Lemma reached_start (names : list str) (start : str) :
  ~ In (Path.basename start) names -> reached_cleanly names start start.
Proof. intros H. exists []. repeat split; trivial. Qed.

Lemma reached_step (names : list str) (start name p : str) :
  ~ In (Path.basename start) names -> component name = true ->
  reached_cleanly names (Path.join start name) p ->
  reached_cleanly names start p.
Proof.
  intros Hstart Hname (below & -> & Hcomp & Hbase & Hbelow).
  rewrite (basename_component start name Hname) in Hbase.
  exists (name :: below). repeat split; trivial.
  - cbn [forallb]. now rewrite Hname, Hcomp.
  - now constructor.
Qed.

(** The files selected below a path are reached cleanly from it. *)
Lemma selected_reached (cfg : config) :
  (forall d, In d default_venv_patterns -> In d (exclusions cfg)) ->
  forall n,
    names_are_components n ->
    forall current_path,
      Forall
        (fun sf => reached_cleanly default_venv_patterns current_path
                     (src_path sf))
        (selected cfg n current_path).
Proof.
  intros Hdef. induction n as [f| | |l IH] using node_ind_deep;
    intros Hnames current_path.
  - simpl selected. unfold select. simpl view_is_dir.
    destruct (should_exclude current_path (exclusions cfg) false) eqn:Hex;
      [constructor|].
    destruct (_ && _); [constructor|].
    destruct (fst (is_text_file _ f)); [|constructor].
    constructor; [|constructor]. simpl.
    apply reached_start.
    now apply (not_excluded_not_default cfg current_path false).
  - simpl selected. unfold select. simpl view_is_dir.
    destruct (should_exclude _ _ _); [constructor|].
    destruct (_ && _); constructor.
  - simpl selected. unfold select. simpl view_is_dir.
    destruct (should_exclude _ _ _); [constructor|].
    destruct (_ && _); constructor.
  - rewrite selected_dir. simpl option_map. unfold select. simpl view_is_dir.
    destruct (should_exclude current_path (exclusions cfg) true) eqn:Hex;
      [constructor|].
    pose proof (not_excluded_not_default cfg current_path true Hdef Hex)
      as Hclean.
    assert (Hkids : Forall
                      (fun sf => reached_cleanly default_venv_patterns
                                   current_path (src_path sf))
                      (select_children current_path
                         (map (fun e => (fst e, selected cfg (snd e))) l))).
    { unfold select_children. apply Forall_flat_map.
      apply (Permutation_Forall (Permutation_sym (sorted_permutation _))).
      apply Forall_map. apply names_are_components_dir in Hnames.
      rewrite Forall_forall in IH, Hnames. apply Forall_forall.
      intros [name child] Hin. simpl.
      destruct (Hnames _ Hin) as [Hc Hk]. simpl in Hc, Hk.
      apply (Forall_impl _ (P := fun sf =>
               reached_cleanly default_venv_patterns
                 (Path.join current_path name) (src_path sf))).
      - intros sf Hsf. now apply (reached_step _ _ name).
      - now apply (IH _ Hin). }
    destruct (_ && _); exact Hkids.
Qed.

Lemma selected_files_reached (env : enc_env) (eff user_incl paths : list str) :
  (forall d, In d default_venv_patterns -> In d eff) ->
  (forall path_arg n,
      In path_arg paths -> lookup env (Path.normpath path_arg) = Some n ->
      names_are_components n) ->
  Forall
    (fun sf =>
       exists path_arg,
         In path_arg paths
         /\ reached_cleanly default_venv_patterns (Path.normpath path_arg)
              (src_path sf))
    (selected_files env eff user_incl paths).
Proof.
  intros Hdef Htrees. unfold selected_files. apply Forall_flat_map.
  apply Forall_forall. intros path_arg Hin.
  destruct (lookup env path_arg) as [n0|]; [|constructor].
  apply (Forall_impl _ (P := fun sf =>
           reached_cleanly default_venv_patterns (Path.normpath path_arg)
             (src_path sf))).
  - intros sf Hsf. now exists path_arg.
  - apply selected_reached; [exact Hdef|].
    destruct (lookup env (Path.normpath path_arg)) as [n|] eqn:E;
      [now apply (Htrees path_arg)|exact I].
Qed.

Lemma visit_children_reaches (current_path p : str)
    (items : list (str * (str -> enc_state -> enc_state))) :
  Forall
    (fun item =>
       component (fst item) = true
       /\ forall path st,
            In p (processed_files (snd item path st)) ->
            In p (processed_files st)
            \/ reached_cleanly default_venv_patterns path p)
    items ->
  forall st,
    In p (processed_files (visit_children current_path items st)) ->
    In p (processed_files st)
    \/ exists name,
         component name = true
         /\ reached_cleanly default_venv_patterns
              (Path.join current_path name) p.
Proof.
  intros Hitems. unfold visit_children.
  apply (Permutation_Forall (Permutation_sym (sorted_permutation items)))
    in Hitems.
  induction Hitems as [|item rest [Hname Hitem] _ IH]; intros st; simpl;
    [now left|].
  intros Hin. destruct (IH _ Hin) as [Hbefore|Hbelow]; [|now right].
  destruct (Hitem _ _ Hbefore) as [Hst|Hreach]; [now left|].
  right. now exists (fst item).
Qed.

(** The files a traversal processes are reached cleanly from its path. *)
Lemma traverse_reaches (cfg : config) :
  (forall d, In d default_venv_patterns -> In d (exclusions cfg)) ->
  forall n,
    names_are_components n ->
    forall current_path st p,
      In p (processed_files (traverse_and_concatenate cfg n current_path st)) ->
      In p (processed_files st)
      \/ reached_cleanly default_venv_patterns current_path p.
Proof.
  intros Hdef.
  assert (Hleaf : forall v current_path st p,
             (forall items, v <> At_dir (Some items)) ->
             In p (processed_files (visit cfg v current_path st)) ->
             In p (processed_files st)
             \/ reached_cleanly default_venv_patterns current_path p).
  { intros v current_path st p Hv Hin.
    destruct (visit_leaf_processed cfg v current_path p st Hv Hin)
      as [Hst|(-> & Hex & _)]; [now left|].
    right. apply reached_start.
    now apply (not_excluded_not_default cfg current_path false). }
  induction n as [f| | |l IH] using node_ind_deep;
    intros Hnames current_path st p.
  - simpl. apply Hleaf. discriminate.
  - simpl. apply Hleaf. discriminate.
  - simpl. apply Hleaf. discriminate.
  - rewrite traverse_dir. simpl option_map. unfold visit. simpl view_is_dir.
    destruct (should_exclude current_path (exclusions cfg) true) eqn:Hex;
      [now left|].
    pose proof (not_excluded_not_default cfg current_path true Hdef Hex)
      as Hclean.
    set (items := map (fun e => (fst e, traverse_and_concatenate cfg (snd e)))
                    l).
    assert (Hitems : Forall
                       (fun item =>
                          component (fst item) = true
                          /\ forall path st,
                               In p (processed_files (snd item path st)) ->
                               In p (processed_files st)
                               \/ reached_cleanly default_venv_patterns path p)
                       items).
    { unfold items. apply Forall_map.
      apply names_are_components_dir in Hnames.
      rewrite Forall_forall in IH, Hnames. apply Forall_forall.
      intros [name child] Hin. simpl.
      destruct (Hnames _ Hin) as [Hc Hk]. simpl in Hc, Hk.
      split; [exact Hc|]. intros path st0. now apply (IH _ Hin). }
    assert (Hkids : forall st0,
               processed_files st0 = processed_files st ->
               In p (processed_files (visit_children current_path items st0)) ->
               In p (processed_files st)
               \/ reached_cleanly default_venv_patterns current_path p).
    { intros st0 Hst0 Hin.
      destruct (visit_children_reaches current_path p items Hitems st0 Hin)
        as [Hold|(name & Hname & Hreach)].
      - left. now rewrite <- Hst0.
      - right. now apply (reached_step _ _ name). }
    destruct (_ && _); now apply Hkids.
Qed.

Lemma concatenate_paths_reach (env : enc_env) (eff user_incl : list str)
    (p : str) (paths : list str) :
  (forall d, In d default_venv_patterns -> In d eff) ->
  (forall path_arg n,
      In path_arg paths -> lookup env (Path.normpath path_arg) = Some n ->
      names_are_components n) ->
  forall acc,
    In p (processed_files
            (fst (fold_left (concatenate_path env eff user_incl) paths acc))) ->
    In p (processed_files (fst acc))
    \/ exists path_arg,
         In path_arg paths
         /\ reached_cleanly default_venv_patterns (Path.normpath path_arg) p.
Proof.
  intros Hdef. induction paths as [|path_arg paths IH]; intros Htrees acc Hin;
    [now left|].
  cbn [fold_left] in Hin.
  destruct (IH (fun q n Hq => Htrees q n (or_intror Hq)) _ Hin)
    as [Hacc|(q & Hq & Hreach)].
  - destruct acc as [st not_found]. unfold concatenate_path in Hacc.
    destruct (lookup env path_arg) as [n0|]; [|now left].
    cbn [fst] in *.
    apply traverse_reaches in Hacc as [Hst|Hreach]; trivial.
    + now left.
    + right. exists path_arg. split; [now left|exact Hreach].
    + destruct (lookup env (Path.normpath path_arg)) as [n|] eqn:E;
        [|exact I].
      apply (Htrees path_arg n); [now left|exact E].
  - right. exists q. split; [now right|exact Hreach].
Qed.

(** C8: the default exclusions prune what a traversal reaches, whatever
    the user excludes (and so with no user exclusion).  A path the
    traversal gets to whose base name is one of the default names is only
    recorded as excluded: nothing is written for it and nothing below it is
    visited, whatever the directory holds.  Hence, in a completed run,
    every file of the bundle, and every file processed, is reached cleanly
    from an input path: it is the normalized input path followed by names
    listed by directories, and neither the base name of the input path nor
    any name that follows, down to the name of the file, is a default
    name.  (A file that lies under a directory with a default name is
    bundled when an input path points inside that directory.) *)
Theorem default_exclusions_prune :
  forall env user_excl user_incl,
    lists_the_set (set_order env) ->
    (forall base n current_path st,
        let cfg := {| cwd := working_dir env;
                      base_folder := base;
                      exclusions :=
                        set_order env (user_excl ++ default_venv_patterns);
                      includes := user_incl |} in
        In (Path.basename current_path) default_venv_patterns ->
        traverse_and_concatenate cfg n current_path st
        = excluded_at cfg (isdir n) current_path st)
    /\ (forall output_name paths force add_prompt st,
           (forall path_arg n,
               In path_arg paths ->
               lookup env (Path.normpath path_arg) = Some n ->
               names_are_components n) ->
           concatenate_files_and_folders env output_name paths force user_excl
             user_incl add_prompt = Completed st ->
           (exists files,
               sink st
               = (if add_prompt then AI_INSTRUCTION_PROMPT else [])
                 ++ bundle_text (flat_map (entry_of (working_dir env)) files)
               /\ Forall
                    (fun sf =>
                       exists path_arg,
                         In path_arg paths
                         /\ reached_cleanly default_venv_patterns
                              (Path.normpath path_arg) (src_path sf))
                    files)
           /\ (forall p,
                  In p (processed_files st) ->
                  exists path_arg,
                    In path_arg paths
                    /\ reached_cleanly default_venv_patterns
                         (Path.normpath path_arg) p)).
Proof.
  intros env user_excl user_incl Hset.
  assert (Hdef : forall d, In d default_venv_patterns ->
                           In d (set_order env
                                   (user_excl ++ default_venv_patterns))).
  { intros d Hd. apply Hset, in_or_app. now right. }
  split.
  - intros base n current_path st cfg Hin. apply traverse_excluded. simpl.
    unfold should_exclude. apply existsb_exists.
    exists (Path.basename current_path). split; [now apply Hdef|].
    rewrite (default_pattern_matches_itself _ Hin). now rewrite orb_true_r.
  - intros output_name paths force add_prompt st Htrees Hrun. split.
    + exists (selected_files env
                (set_order env (user_excl ++ default_venv_patterns))
                user_incl paths).
      split; [now apply (concatenate_sink _ _ _ _ _ _ _ _ Hrun)|].
      now apply selected_files_reached.
    + intros p Hp. unfold concatenate_files_and_folders in Hrun.
      destruct (output_exists env && negb force);
        [destruct (mem _ _); discriminate|].
      destruct (negb (output_opens env)); [discriminate|].
      match type of Hrun with
      | context [fold_left ?f paths (?s, [])] =>
          pose proof (concatenate_paths_reach env
                        (set_order env (user_excl ++ default_venv_patterns))
                        user_incl p paths Hdef Htrees (s, [])) as Hreach;
          destruct (fold_left f paths (s, [])) as [st1 not_found]
      end.
      injection Hrun as <-. simpl in Hp, Hreach.
      destruct (Hreach Hp) as [Hold|Hnew]; [|exact Hnew].
      exfalso. revert Hold.
      destruct add_prompt, (output_exists env && force); simpl; tauto.
Qed.

Lemma project_names_are_components :
  forall path_arg n,
    In path_arg ["a" : str] ->
    lookup project_env (Path.normpath path_arg) = Some n ->
    names_are_components n.
Proof.
  intros path_arg n [<-|[]] [= <-]. simpl. tauto.
Qed.

Lemma default_exclusions_prune_witness :
  sink (traverse_and_concatenate
          {| cwd := "/work"; base_folder := "a";
             exclusions := default_venv_patterns; includes := [] |}
          git_dir "a/.git" empty_state) = []
  /\ exists path_arg,
       In path_arg ["a" : str]
       /\ reached_cleanly default_venv_patterns (Path.normpath path_arg)
            "a/x.py".
Proof.
  pose proof (default_exclusions_prune project_env [] []
                (fun l x => iff_refl _)) as [Hprune Hrun].
  split.
  - assert (Hin : In (Path.basename "a/.git") default_venv_patterns)
      by (simpl; tauto).
    exact (f_equal sink (Hprune "a" git_dir "a/.git" empty_state Hin)).
  - refine (proj2 (Hrun "out.md" ["a" : str] false false _
                     project_names_are_components eq_refl) "a/x.py" _).
    simpl. left. reflexivity.
Defined.

(** A file under a directory with a default name is not reached cleanly
    from above that directory. *)
Lemma not_reached_through_git :
  ~ reached_cleanly default_venv_patterns "a" "a/.git/config".
Proof.
  intros (below & Hp & Hcomp & _ & Hbelow).
  destruct (resolved_walk below Hcomp "a") as [_ Hc].
  rewrite <- Hp in Hc.
  change (Path.norm_comps "a/.git/config")
    with (Path.norm_comps "a" ++ [".git" : str; "config" : str]) in Hc.
  apply app_inv_head in Hc. subst below.
  inversion Hbelow as [|? ? Hgit _]; subst. apply Hgit. simpl. tauto.
Qed.

(** An input path that points inside a directory with a default name: the
    files below it are bundled. *)
Lemma input_below_git_is_bundled :
  In (".git" : str) default_venv_patterns
  /\ exists st,
       concatenate_files_and_folders inside_git_env "out.md"
         ["a/.git/hooks" : str] false [] [] false = Completed st
       /\ processed_files st = ["a/.git/hooks/pre-commit" : str]
       /\ sink st = entry_text "hooks/pre-commit" "text" "#!/bin/sh".
Proof.
  split; [simpl; tauto|].
  eexists. split; [vm_compute; reflexivity|]. split; reflexivity.
Qed.
